(** * Noise generator: synthesis and WAV encoding engine of [src/App.jsx]

    A shallow embedding of the noise filters, the chunked generation loop of
    [generateNoise], [normalizeSamples] and [createWavFile].

    - A JavaScript number is an IEEE-754 binary64 value: [spec_float] with the
      operations of the standard library's [SpecFloat] at precision 53 and
      maximal exponent 1024 (round to nearest, ties to even).
    - A [Float32Array] is a [list float]; a store rounds the value to
      binary32 ([fround]), a load widens it back without loss.
    - Numbers that the code only uses as counts, indices and byte values
      (lengths, offsets, chunk numbers) are integers ([nat] or [Z]).
    - [Math.random], [new Float32Array] and [new ArrayBuffer] act on the
      host; the host is the record [World], threaded by the monad [M]. *)

From Stdlib Require Import ZArith Lia Bool Ascii String.
From Stdlib Require Import Floats.SpecFloat.
From Stdlib Require Import Decimal Number DecimalZ.
From stdpp Require Import gmap strings list fin_maps.

Local Open Scope Z_scope.

(** ** JavaScript numbers *)

Definition float := spec_float.

Declare Scope js_scope.
Delimit Scope js_scope with js.
Bind Scope js_scope with spec_float.
Bind Scope js_scope with float.

(** An integer as a number (exact below [2^53]). *)
Definition Z2F (n : Z) : float := binary_normalize 53 1024 n 0 false.

(** The decimal literal [m * 10^-k]: both [m] and [10^k] are exact, and the
    division rounds once, so this is the binary64 value nearest to the
    literal, which is what a JavaScript parser produces. *)
Definition dec (m k : Z) : float := SFdiv 53 1024 (Z2F m) (Z2F (10 ^ k)).

Definition lit_of_number (n : Number.number) : option spec_float :=
  match n with
  | Number.Decimal (Decimal.Decimal i f) =>
      Some (dec (Z.of_int (Decimal.app_int i f)) (Z.of_nat (Decimal.nb_digits f)))
  | _ => None
  end.

Definition number_of_lit (x : spec_float) : option Number.number := None.

Number Notation spec_float lit_of_number number_of_lit : js_scope.

Definition NaN : float := S754_nan.

Definition fadd : float -> float -> float := SFadd 53 1024.
Definition fsub : float -> float -> float := SFsub 53 1024.
Definition fmul : float -> float -> float := SFmul 53 1024.
Definition fdiv : float -> float -> float := SFdiv 53 1024.
Definition fneg : float -> float := SFopp.
(** [a < b] and [a > b]; both are false when an operand is NaN. *)
Definition flt (a b : float) : bool := SFltb a b.
Definition fgt (a b : float) : bool := SFltb b a.
Definition fle (a b : float) : bool := SFleb a b.

Infix "+" := fadd : js_scope.
Infix "-" := fsub : js_scope.
Infix "*" := fmul : js_scope.
Infix "/" := fdiv : js_scope.
Notation "- x" := (fneg x) : js_scope.
Infix "<" := flt : js_scope.
Infix ">" := fgt : js_scope.
Infix "<=" := fle : js_scope.

Definition is_nan (x : float) : bool :=
  match x with S754_nan => true | _ => false end.

Definition is_neg_zero (x : float) : bool :=
  match x with S754_zero true => true | _ => false end.

Definition Math_abs : float -> float := SFabs.

(** [Math.min] and [Math.max]: NaN if an operand is NaN; [-0] is below [+0]. *)
Definition Math_min (a b : float) : float :=
  if is_nan a || is_nan b then NaN
  else if (a < b)%js then a
  else if (b < a)%js then b
  else if is_neg_zero a then a else b.

Definition Math_max (a b : float) : float :=
  if is_nan a || is_nan b then NaN
  else if (a > b)%js then a
  else if (b > a)%js then b
  else if is_neg_zero a then b else a.

(** The value of a [Float32Array] element after storing [x]: [x] rounded to
    binary32, then written again as a binary64 value (exactly). *)
Definition fround (x : float) : float :=
  match x with
  | S754_finite s m e =>
      match binary_round 24 128 s m e with
      | S754_finite s' m' e' => binary_round 53 1024 s' m' e'
      | y => y
      end
  | _ => x
  end.

(** Results of [Math.floor] and [Math.ceil] kept as mathematical integers. *)
Inductive integral :=
  | Int (n : Z)
  | NotANumber
  | Infinite (negative : bool).

(** [Z.shiftl] by a negative amount is a flooring division by a power of 2. *)
Definition Math_floor (x : float) : integral :=
  match x with
  | S754_nan => NotANumber
  | S754_infinity s => Infinite s
  | S754_zero _ => Int 0
  | S754_finite s m e => Int (Z.shiftl (cond_Zopp s (Zpos m)) e)
  end.

(** Truncation toward zero of a finite number. *)
Definition truncate (x : float) : Z :=
  match x with
  | S754_finite s m e => cond_Zopp s (Z.shiftl (Zpos m) e)
  | _ => 0
  end.

(** ToInt16 of ECMAScript, applied by [DataView.prototype.setInt16]: NaN,
    zeros and infinities give 0; otherwise truncate and wrap modulo [2^16]
    into [-32768, 32767]. *)
Definition ToInt16 (x : float) : Z :=
  let int16bit := truncate x mod 65536 in
  if 32768 <=? int16bit then int16bit - 65536 else int16bit.

(** ToUint32 and friends on integers. *)
Definition ToUint32 (n : Z) : Z := n mod 4294967296.
Definition ToUint16 (n : Z) : Z := n mod 65536.
Definition ToUint8 (n : Z) : Z := n mod 256.

(** ** The host *)

Inductive allocation :=
  | Float32Buffer (length : Z)
  | ByteBuffer (length : Z).

(** [random i] is the value the [i]-th call of [Math.random] returns,
    [drawn] counts the calls made so far, [allocated] lists the buffers
    created so far, newest first. *)
Record World := {
  random : nat -> float;
  drawn : nat;
  allocated : list allocation
}.

Inductive Exn :=
  | RangeError
  | UnknownNoiseType.

Inductive Completion (A : Type) :=
  | Normal (a : A)
  | Throw (e : Exn).
Arguments Normal {A} a.
Arguments Throw {A} e.

Definition M (A : Type) : Type := World -> Completion A * World.

#[global] Instance M_ret : MRet M := fun A a w => (Normal a, w).
#[global] Instance M_bind : MBind M := fun A B f m w =>
  match m w with
  | (Normal a, w') => f a w'
  | (Throw e, w') => (Throw e, w')
  end.

Definition throw {A} (e : Exn) : M A := fun w => (Throw e, w).

Definition Math_random : M float := fun w =>
  (Normal (random w (drawn w)),
   {| random := random w; drawn := S (drawn w); allocated := allocated w |}).

Definition allocate (a : allocation) : M unit := fun w =>
  (Normal tt,
   {| random := random w; drawn := drawn w; allocated := a :: allocated w |}).

(** [new Float32Array(length)]: a RangeError outside [0, 2^53 - 1],
    otherwise [length] zeros. *)
Definition new_Float32Array (length : Z) : M (list float) :=
  if (length <? 0) || (9007199254740991 <? length) then throw RangeError
  else _ ← allocate (Float32Buffer length);
       mret (replicate (Z.to_nat length) (S754_zero false)).

Definition new_ArrayBuffer (length : Z) : M (list Z) :=
  if (length <? 0) || (9007199254740991 <? length) then throw RangeError
  else _ ← allocate (ByteBuffer length);
       mret (replicate (Z.to_nat length) 0).

(** [samples[i]]: reading past the end gives [undefined], NaN in arithmetic. *)
Definition load (samples : list float) (i : nat) : float :=
  default NaN (samples !! i).

(** [samples[i] = x] on a [Float32Array]. *)
Definition store (samples : list float) (i : nat) (x : float) : list float :=
  <[i := fround x]> samples.

(** [target.set(source, offset)] *)
Definition typedArray_set (target source : list float) (offset : nat)
  : M (list float) :=
  if (length target <? offset + length source)%nat then throw RangeError
  else mret (take offset target ++ source ++ drop (offset + length source) target).

(** [for (let i = start; i < start + count; i++) body], over loop-carried
    variables [s]. *)
Fixpoint for_ {S : Type} (i count : nat) (body : nat -> S -> M S) (s : S) : M S :=
  match count with
  | O => mret s
  | Datatypes.S count' => s' ← body i s; for_ (Datatypes.S i) count' body s'
  end.

(** ** Filter state objects *)

(** [state?.field ?? 0] *)
Definition field (state : option (gmap string float)) (name : string) : float :=
  default (S754_zero false) (state ≫= (fun o => o !! name)).

(** ** Noise filters (App.jsx, lines 161-296) *)

Definition SAMPLE_RATE : Z := 44100.
Definition CHANNELS : Z := 1.

(** [(Math.random() * 2 - 1) * 0.5] *)
Definition whiteSample (r : float) : float := ((r * 2 - 1) * 0.5)%js.

Definition generateWhiteNoise (length : nat) : M (list float) :=
  samples ← new_Float32Array (Z.of_nat length);
  for_ 0 length (fun i samples =>
    r ← Math_random;
    mret (store samples i (whiteSample r))) samples.

Definition pinkStep '((b0, b1, b2, b3, b4, b5, b6) : float * float * float * float * float * float * float)
    (white : float) (samples : list float) (i : nat) :=
  let b0 := (0.99886 * b0 + white * 0.0555179)%js in
  let b1 := (0.99332 * b1 + white * 0.0750759)%js in
  let b2 := (0.96900 * b2 + white * 0.1538520)%js in
  let b3 := (0.86650 * b3 + white * 0.3104856)%js in
  let b4 := (0.55000 * b4 + white * 0.5329522)%js in
  let b5 := (- 0.7616 * b5 - white * 0.0168980)%js in
  let samples := store samples i (b0 + b1 + b2 + b3 + b4 + b5 + b6 + white * 0.5362)%js in
  let samples := store samples i (load samples i * 0.11)%js in
  let b6 := (white * 0.115926)%js in
  (samples, (b0, b1, b2, b3, b4, b5, b6)).

Definition generatePinkNoise (length : nat) (state : option (gmap string float))
  : M (list float * gmap string float) :=
  samples ← new_Float32Array (Z.of_nat length);
  let b0 := field state "b0" in
  let b1 := field state "b1" in
  let b2 := field state "b2" in
  let b3 := field state "b3" in
  let b4 := field state "b4" in
  let b5 := field state "b5" in
  let b6 := field state "b6" in
  '(samples, (b0, b1, b2, b3, b4, b5, b6)) ←
    for_ 0 length (fun i '(samples, b) =>
      r ← Math_random;
      let white := whiteSample r in
      mret (pinkStep b white samples i))
    (samples, (b0, b1, b2, b3, b4, b5, b6));
  mret (samples,
        <["b0" := b0]> (<["b1" := b1]> (<["b2" := b2]> (<["b3" := b3]>
        (<["b4" := b4]> (<["b5" := b5]> (<["b6" := b6]> ∅))))))).

Definition generateBrownNoise (length : nat) (state : option (gmap string float))
  : M (list float * gmap string float) :=
  samples ← new_Float32Array (Z.of_nat length);
  let lastSample := field state "lastSample" in
  '(samples, lastSample) ←
    for_ 0 length (fun i '(samples, lastSample) =>
      r ← Math_random;
      let white := whiteSample r in
      let lastSample := ((lastSample + white * 0.02) * 0.99)%js in
      let samples := store samples i (lastSample * 3.5)%js in
      mret (samples, lastSample))
    (samples, lastSample);
  mret (samples, <["lastSample" := lastSample]> ∅).

Definition generateBlueNoise (length : nat) (state : option (gmap string float))
  : M (list float * gmap string float) :=
  samples ← new_Float32Array (Z.of_nat length);
  let lastSample := field state "lastSample" in
  '(samples, lastSample) ←
    for_ 0 length (fun i '(samples, lastSample) =>
      r ← Math_random;
      let white := whiteSample r in
      let samples := store samples i ((white - lastSample) * 0.5)%js in
      let lastSample := white in
      mret (samples, lastSample))
    (samples, lastSample);
  mret (samples, <["lastSample" := lastSample]> ∅).

Definition generateVioletNoise (length : nat) (state : option (gmap string float))
  : M (list float * gmap string float) :=
  samples ← new_Float32Array (Z.of_nat length);
  let lastSample := field state "lastSample" in
  let lastLastSample := field state "lastLastSample" in
  '(samples, (lastSample, lastLastSample)) ←
    for_ 0 length (fun i '(samples, (lastSample, lastLastSample)) =>
      r ← Math_random;
      let white := whiteSample r in
      let samples :=
        store samples i ((white - 2 * lastSample + lastLastSample) * 0.3)%js in
      let lastLastSample := lastSample in
      let lastSample := white in
      mret (samples, (lastSample, lastLastSample)))
    (samples, (lastSample, lastLastSample));
  mret (samples,
        <["lastSample" := lastSample]> (<["lastLastSample" := lastLastSample]> ∅)).

Definition generateGreyNoise (length : nat) : M (list float) :=
  samples ← new_Float32Array (Z.of_nat length);
  samples ←
    for_ 0 length (fun i samples =>
      r ← Math_random;
      let white := whiteSample r in
      let pinkComponent := (white * 0.7)%js in
      mret (store samples i (pinkComponent * 0.6)%js)) samples;
  filtered ← new_Float32Array (Z.of_nat length);
  let state1 : float := 0%js in
  let state2 : float := 0%js in
  '(filtered, _) ←
    for_ 0 length (fun i '(filtered, (state1, state2)) =>
      let state1 := (state1 * 0.99 + load samples i * 0.01)%js in
      let state2 := (state2 * 0.95 + load samples i * 0.05)%js in
      let filtered :=
        store filtered i
          ((state1 * 0.4 + state2 * 0.3 + load samples i * 0.3) * 1.2)%js in
      mret (filtered, (state1, state2)))
    (filtered, (state1, state2));
  mret filtered.

Definition generateOrangeNoise (length : nat) (state : option (gmap string float))
  : M (list float * gmap string float) :=
  samples ← new_Float32Array (Z.of_nat length);
  let lastSample := field state "lastSample" in
  let filterState := field state "filterState" in
  '(samples, (lastSample, filterState)) ←
    for_ 0 length (fun i '(samples, (lastSample, filterState)) =>
      r ← Math_random;
      let white := whiteSample r in
      let filterState := (filterState * 0.992 + white * 0.008)%js in
      let lastSample := ((lastSample + filterState * 0.015) * 0.995)%js in
      let samples := store samples i (lastSample * 2.8)%js in
      mret (samples, (lastSample, filterState)))
    (samples, (lastSample, filterState));
  mret (samples,
        <["lastSample" := lastSample]> (<["filterState" := filterState]> ∅)).

(** ** Normalizer (App.jsx, lines 298-314) *)

Definition normalizeSamples (samples : list float) : list float :=
  let max :=
    fold_left (fun max s =>
                 let abs := Math_abs s in
                 if (abs > max)%js then abs else max)
              samples 0%js in
  if (max > 0.99)%js then
    let scale := (0.99 / max)%js in
    map (fun s => fround (s * scale)%js) samples
  else samples.

(** ** Container encoder (App.jsx, lines 316-358) *)

(** [DataView] setters, with [littleEndian = true]; a write that does not
    fit in the buffer is a RangeError. *)
Definition setUint8 (view : list Z) (offset : nat) (value : Z) : M (list Z) :=
  if (offset + 1 <=? length view)%nat
  then mret (<[offset := ToUint8 value]> view)
  else throw RangeError.

Definition setUint16 (view : list Z) (offset : nat) (value : Z) : M (list Z) :=
  if (offset + 2 <=? length view)%nat
  then let v := ToUint16 value in
       mret (<[(offset + 1)%nat := v / 256]> (<[offset := v mod 256]> view))
  else throw RangeError.

Definition setUint32 (view : list Z) (offset : nat) (value : Z) : M (list Z) :=
  if (offset + 4 <=? length view)%nat
  then let v := ToUint32 value in
       mret (<[(offset + 3)%nat := v / 16777216]>
            (<[(offset + 2)%nat := (v / 65536) mod 256]>
            (<[(offset + 1)%nat := (v / 256) mod 256]>
            (<[offset := v mod 256]> view))))
  else throw RangeError.

(** [view.setInt16(offset, value, true)]: ToInt16, then two's complement. *)
Definition setInt16 (view : list Z) (offset : nat) (value : float) : M (list Z) :=
  if (offset + 2 <=? length view)%nat
  then let v := ToInt16 value mod 65536 in
       mret (<[(offset + 1)%nat := v / 256]> (<[offset := v mod 256]> view))
  else throw RangeError.

Definition charCode (c : ascii) : Z := Z.of_N (Ascii.N_of_ascii c).

Definition writeString (view : list Z) (offset : nat) (s : string) : M (list Z) :=
  for_ 0 (String.length s) (fun i view =>
    setUint8 view (offset + i) (charCode (default Ascii.zero (String.get i s)))) view.

(** [sample < 0 ? sample * 0x8000 : sample * 0x7FFF] after the clamp. *)
Definition intSample (x : float) : float :=
  let sample := Math_max (-1)%js (Math_min 1%js x) in
  if (sample < 0)%js then (sample * 32768)%js else (sample * 32767)%js.

Definition createWavFile (samples : list float) (sampleRate : Z) : M (list Z) :=
  let length := Z.of_nat (List.length samples) in
  view ← new_ArrayBuffer (44 + length * 2);
  view ← writeString view 0 "RIFF";
  view ← setUint32 view 4 (36 + length * 2);
  view ← writeString view 8 "WAVE";
  view ← writeString view 12 "fmt ";
  view ← setUint32 view 16 16;
  view ← setUint16 view 20 1;
  view ← setUint16 view 22 CHANNELS;
  view ← setUint32 view 24 sampleRate;
  view ← setUint32 view 28 (sampleRate * CHANNELS * 2);
  view ← setUint16 view 32 (CHANNELS * 2);
  view ← setUint16 view 34 16;
  view ← writeString view 36 "data";
  view ← setUint32 view 40 (length * 2);
  '(view, _) ←
    for_ 0 (List.length samples) (fun i '(view, offset) =>
      view ← setInt16 view offset (intSample (load samples i));
      mret (view, (offset + 2)%nat))
    (view, 44%nat);
  mret view.

(** ** Chunked generation (App.jsx, lines 372-460) *)

Definition CHUNK_SIZE : Z := 441000.

(** [Math.ceil(a / b)] for integers [a] and [b > 0]. *)
Definition ceil_div (a b : Z) : Z := - ((- a) / b).

(** The [switch (noiseType)] of the chunk loop. *)
Definition generateChunk (noiseType : string) (chunkLength : nat)
    (state : option (gmap string float))
  : M (list float * option (gmap string float)) :=
  if String.eqb noiseType "white" then
    chunkSamples ← generateWhiteNoise chunkLength;
    mret (chunkSamples, state)
  else if String.eqb noiseType "pink" then
    '(chunkSamples, state) ← generatePinkNoise chunkLength state;
    mret (chunkSamples, Some state)
  else if String.eqb noiseType "brown" then
    '(chunkSamples, state) ← generateBrownNoise chunkLength state;
    mret (chunkSamples, Some state)
  else if String.eqb noiseType "blue" then
    '(chunkSamples, state) ← generateBlueNoise chunkLength state;
    mret (chunkSamples, Some state)
  else if String.eqb noiseType "violet" then
    '(chunkSamples, state) ← generateVioletNoise chunkLength state;
    mret (chunkSamples, Some state)
  else if String.eqb noiseType "grey" then
    chunkSamples ← generateGreyNoise chunkLength;
    mret (chunkSamples, state)
  else if String.eqb noiseType "orange" then
    '(chunkSamples, state) ← generateOrangeNoise chunkLength state;
    mret (chunkSamples, Some state)
  else throw UnknownNoiseType.

(** The body of the [try] block up to the end of the chunk loop, for a chunk
    size [chunkSize] ([CHUNK_SIZE] in the source). *)
Definition generateSamples (chunkSize : Z) (noiseType : string) (totalSamples : Z)
  : M (list float) :=
  let chunks := ceil_div totalSamples chunkSize in
  samples ← new_Float32Array totalSamples;
  '(samples, _) ←
    for_ 0 (Z.to_nat chunks) (fun chunk '(samples, state) =>
      let start := Z.of_nat chunk * chunkSize in
      let end_ := Z.min (start + chunkSize) totalSamples in
      let chunkLength := end_ - start in
      '(chunkSamples, state) ← generateChunk noiseType (Z.to_nat chunkLength) state;
      samples ← typedArray_set samples chunkSamples (Z.to_nat start);
      mret (samples, state))
    (samples, None);
  mret samples.

(** The rest of the [try] block: normalize, encode. The returned bytes are
    the content of the downloaded Blob. *)
Definition generateEncoded (noiseType : string) (totalSamples : Z) : M (list Z) :=
  samples ← generateSamples CHUNK_SIZE noiseType totalSamples;
  let normalizedSamples := normalizeSamples samples in
  createWavFile normalizedSamples SAMPLE_RATE.

(** [generateNoise] for the component state [noiseType] and [duration]
    (minutes): the completion of its [try] block. An exception leaves the
    block for the [catch] handler, which only reports it; here it is the
    result [Throw]. A NaN sample count makes [new Float32Array] of length 0
    and a loop bound that no chunk index is below, as the count 0 does; an
    infinite one is a RangeError of [new Float32Array]. *)
Definition totalSamplesOf (duration : float) : integral :=
  let durationSeconds := (duration * 60)%js in
  Math_floor (Z2F SAMPLE_RATE * durationSeconds)%js.

Definition generateNoise (noiseType : string) (duration : float) : M (list Z) :=
  match totalSamplesOf duration with
  | Int totalSamples => generateEncoded noiseType totalSamples
  | NotANumber => generateEncoded noiseType 0
  | Infinite _ => throw RangeError
  end.

(** * Definitions used by the proofs *)

(** ** Rounding to nearest, ties to even, on fractions of integers *)

(** The position of [r / b] in [0, 1) relative to one half. *)
Definition loc_frac (r b : Z) : location :=
  if r =? 0 then loc_Exact else loc_Inexact (2 * r ?= b).

(** The shift record of the fraction [a / b]: its integer part and the
    round and sticky bits of the rest. *)
Definition frac_record (a b : Z) : shr_record :=
  shr_record_of_loc (a / b) (loc_frac (a mod b) b).

(** The integer nearest to [a / b], the even one on a tie. *)
Definition rne (a b : Z) : Z :=
  match 2 * (a mod b) ?= b with
  | Lt => a / b
  | Eq => if Z.even (a / b) then a / b else a / b + 1
  | Gt => a / b + 1
  end.

(** ** Floating-point formats as sets of integers

    With all values counted in units of [2^-bias], a format of precision
    [p] whose smallest exponent is [g - bias] is the set of integers that
    are multiples of [2^g] with at most [p] significant bits. *)

(** The exponent of the unit in the last place at magnitude [y]. *)
Definition ulp_exp (p g y : Z) : Z := Z.max (Zdigits2 y - p) g.

Definition representable (p g y : Z) : Prop :=
  0 <= y /\ y mod 2 ^ ulp_exp p g y = 0.

(** The fraction [a / b] rounded to the format. *)
Definition round_frac (p g a b : Z) : Z :=
  let k := ulp_exp p g (a / b) in
  rne a (b * 2 ^ k) * 2 ^ k.

(** ** Values of floating-point numbers as integers *)

(** Every exponent the operations meet is above [-bias]. *)
Definition bias : Z := 2148.

(** The value of a finite number in units of [2^-bias]. *)
Definition F2Z (x : spec_float) : Z :=
  match x with
  | S754_finite s m e => cond_Zopp s (Zpos m * 2 ^ (e + bias))
  | _ => 0
  end.

(** [R] is the number of sign [s] and magnitude [r] (in units of [2^-bias])
    in the format [(prec, emax)]: a signed zero, a canonical finite number,
    or an infinity when [r] is past the largest finite magnitude. *)
Definition encodes (prec emax : Z) (s : bool) (r : Z) (R : spec_float) : Prop :=
  (r = 0 /\ R = S754_zero s)
  \/ (0 < r < 2 ^ (emax + bias) /\
      exists m e, R = S754_finite s m e /\ bounded prec emax m e = true
                  /\ Zpos m * 2 ^ (e + bias) = r)
  \/ (2 ^ (emax + bias) <= r /\ R = S754_infinity s).

(** ** Binary64 numbers as integers in units of 2^-bias *)

(** A well-formed binary64 number: a finite one is in canonical form. *)
Definition valid64 (x : spec_float) : Prop := valid_binary 53 1024 x = true.

Definition is_finite (x : spec_float) : bool :=
  match x with S754_finite _ _ _ | S754_zero _ => true | _ => false end.

Definition sign_of (x : spec_float) : bool :=
  match x with
  | S754_finite s _ _ | S754_zero s | S754_infinity s => s
  | S754_nan => false
  end.

(** One, in units of [2^-bias]. *)
Definition unity : Z := 2 ^ bias.

(** A zero or a canonical finite number. *)
Definition finite64 (x : spec_float) : Prop :=
  valid64 x /\ is_finite x = true.

(** ** Pure readings of the loops, used to state what the code computes *)

(** The next [n] values of [Math.random], and the host after drawing them. *)
Definition draws (w : World) (n : nat) : list float :=
  map (fun i => random w (i + drawn w)%nat) (seq 0 n).

(** Running a per-sample recurrence over a list of draws. *)
Fixpoint scan {S : Type} (step : S -> float -> float * S) (s : S) (rs : list float)
  : list float * S :=
  match rs with
  | [] => ([], s)
  | r :: rs' =>
      let '(out, s') := step s r in
      let '(outs, s'') := scan step s' rs' in
      (out :: outs, s'')
  end.

(** Cutting a list of draws into [n] pieces of [size] draws and running
    [piece] on each in turn, with the state each piece returns. *)
Fixpoint chunked {S : Type} (piece : S -> list float -> list float * S)
    (n size : nat) (s : S) (rs : list float) : list float :=
  match n with
  | O => []
  | Datatypes.S n' =>
      let '(outs, s') := piece s (take size rs) in
      outs ++ chunked piece n' size s' (drop size rs)
  end.

Definition advance (n : nat) (w : World) : World :=
  {| random := random w; drawn := (n + drawn w)%nat; allocated := allocated w |}.

Definition poles : Type := float * float * float * float * float * float * float.

Definition whiteKernel (s : unit) (r : float) : float * unit :=
  (fround (whiteSample r), s).

(** One iteration of the pink loop on a one-sample buffer. *)
Definition pinkKernel (b : poles) (r : float) : float * poles :=
  let '(samples, b') := pinkStep b (whiteSample r) [S754_zero false] 0 in
  (load samples 0, b').

Definition brownKernel (lastSample : float) (r : float) : float * float :=
  let white := whiteSample r in
  let lastSample := ((lastSample + white * 0.02) * 0.99)%js in
  (fround (lastSample * 3.5)%js, lastSample).

Definition blueKernel (lastSample : float) (r : float) : float * float :=
  let white := whiteSample r in
  (fround ((white - lastSample) * 0.5)%js, white).

Definition violetKernel '((lastSample, lastLastSample) : float * float) (r : float)
  : float * (float * float) :=
  let white := whiteSample r in
  (fround ((white - 2 * lastSample + lastLastSample) * 0.3)%js, (white, lastSample)).

Definition orangeKernel '((lastSample, filterState) : float * float) (r : float)
  : float * (float * float) :=
  let white := whiteSample r in
  let filterState := (filterState * 0.992 + white * 0.008)%js in
  let lastSample := ((lastSample + filterState * 0.015) * 0.995)%js in
  (fround (lastSample * 2.8)%js, (lastSample, filterState)).

Definition pinkInit (state : option (gmap string float)) : poles :=
  (field state "b0", field state "b1", field state "b2", field state "b3",
   field state "b4", field state "b5", field state "b6").

Definition MAX_LENGTH : Z := 9007199254740991.

(** The host after a filter call that allocated [bufs] and drew [n] values. *)
Definition after (bufs : list allocation) (n : nat) (w : World) : World :=
  {| random := random w; drawn := (n + drawn w)%nat;
     allocated := bufs ++ allocated w |}.

Definition pinkPack (b : poles) : gmap string float :=
  let '(b0, b1, b2, b3, b4, b5, b6) := b in
  <["b0" := b0]> (<["b1" := b1]> (<["b2" := b2]> (<["b3" := b3]>
  (<["b4" := b4]> (<["b5" := b5]> (<["b6" := b6]> ∅)))))).

(** The input sample of the grey blend for a draw [r]. *)
Definition greyInput (r : float) : float :=
  fround (whiteSample r * 0.7 * 0.6)%js.

Definition greyKernel '((state1, state2) : float * float) (x : float)
  : float * (float * float) :=
  let state1 := (state1 * 0.99 + x * 0.01)%js in
  let state2 := (state2 * 0.95 + x * 0.05)%js in
  (fround ((state1 * 0.4 + state2 * 0.3 + x * 0.3) * 1.2)%js, (state1, state2)).

(** What one call of [generateGreyNoise] returns for the draws [rs]. *)
Definition greyPure (rs : list float) : list float :=
  fst (scan greyKernel (0%js, 0%js) (map greyInput rs)).

(** What a filter computes from the draws of one call: the state it reads
    from the state object, and the samples and state it returns. *)
Record kernel := {
  kstate : Type;
  kinit : option (gmap string float) -> kstate;
  kpiece : kstate -> list float -> list float * kstate
}.

Definition whiteK : kernel :=
  {| kstate := unit; kinit := fun _ => tt; kpiece := scan whiteKernel |}.
Definition pinkK : kernel :=
  {| kstate := poles; kinit := pinkInit; kpiece := scan pinkKernel |}.
Definition brownK : kernel :=
  {| kstate := float; kinit := fun st => field st "lastSample";
     kpiece := scan brownKernel |}.
Definition blueK : kernel :=
  {| kstate := float; kinit := fun st => field st "lastSample";
     kpiece := scan blueKernel |}.
Definition violetK : kernel :=
  {| kstate := float * float;
     kinit := fun st => (field st "lastSample", field st "lastLastSample");
     kpiece := scan violetKernel |}.
Definition greyK : kernel :=
  {| kstate := unit; kinit := fun _ => tt;
     kpiece := fun s rs => (greyPure rs, s) |}.
Definition orangeK : kernel :=
  {| kstate := float * float;
     kinit := fun st => (field st "lastSample", field st "filterState");
     kpiece := scan orangeKernel |}.

(** [generateChunk] computes the kernel [k] for the noise type [noiseType]. *)
Definition chunk_sound (k : kernel) (noiseType : string) : Prop :=
  forall len st w, Z.of_nat len <= MAX_LENGTH ->
    exists st' bufs,
      generateChunk noiseType len st w =
        (Normal (fst (kpiece k (kinit k st) (draws w len)), st'), after bufs len w)
      /\ kinit k st' = snd (kpiece k (kinit k st) (draws w len)).

(** A kernel returns one sample per draw. *)
Definition kernel_length (k : kernel) : Prop :=
  forall s rs, length (fst (kpiece k s rs)) = length rs.

(** The six noise types whose filter state the chunk loop threads. *)
Definition threaded (noiseType : string) : Prop :=
  noiseType = "white" \/ noiseType = "pink" \/ noiseType = "brown" \/
  noiseType = "blue" \/ noiseType = "violet" \/ noiseType = "orange".

(** ** The container of §6, written out *)

(** Little-endian bytes of an unsigned 16-bit and 32-bit value. *)
Definition le16 (v : Z) : list Z := [v mod 256; v / 256].
Definition le32 (v : Z) : list Z :=
  [v mod 256; (v / 256) mod 256; (v / 65536) mod 256; v / 16777216].

(** The two bytes [createWavFile] writes for the sample [x]. *)
Definition pcm16 (x : float) : Z := ToInt16 (intSample x).
Definition pcmBytes (x : float) : list Z := le16 (pcm16 x mod 65536).

(** The 44 header bytes for [sampleCount] samples at [sampleRate]. *)
Definition wavHeader (sampleRate sampleCount : Z) : list Z :=
  [82; 73; 70; 70] ++ le32 (ToUint32 (36 + sampleCount * 2)) ++
  [87; 65; 86; 69] ++
  [102; 109; 116; 32] ++ le32 (ToUint32 16) ++
  le16 (ToUint16 1) ++ le16 (ToUint16 CHANNELS) ++
  le32 (ToUint32 sampleRate) ++ le32 (ToUint32 (sampleRate * CHANNELS * 2)) ++
  le16 (ToUint16 (CHANNELS * 2)) ++ le16 (ToUint16 16) ++
  [100; 97; 116; 97] ++ le32 (ToUint32 (sampleCount * 2)).

(** Reading a header field back. *)
Definition byteAt (bytes : list Z) (i : nat) : Z := default 0 (bytes !! i).
Definition getUint16 (bytes : list Z) (offset : nat) : Z :=
  byteAt bytes offset + 256 * byteAt bytes (offset + 1).
Definition getUint32 (bytes : list Z) (offset : nat) : Z :=
  byteAt bytes offset + 256 * byteAt bytes (offset + 1)
  + 65536 * byteAt bytes (offset + 2) + 16777216 * byteAt bytes (offset + 3).

(** ** Sample counts, lengths and failures *)

(** The noise types of the [switch]. *)
Definition supported (noiseType : string) : Prop :=
  threaded noiseType \/ noiseType = "grey".

(** [Math.round], the rounding the specification names for the sample
    count. *)
Definition Math_round (x : float) : integral := Math_floor (x + 0.5)%js.

Definition roundedSamplesOf (duration : float) : integral :=
  Math_round (Z2F SAMPLE_RATE * (duration * 60))%js.

(** A host whose first draws are the listed values of [0, 1) and whose later
    draws are all 0.25; nothing drawn or allocated yet. *)
Definition sampleDraws : list float :=
  [0.361472915581; 0.707935876192; 0.054398836803; 0.400861797414;
   0.747324758025; 0.093787718636; 0.5; 0.999; 0; 0.123456789;
   0.987654321; 0.3333333333]%js.

Definition sampleRandom (i : nat) : float := default 0.25%js (sampleDraws !! i).

Definition world0 : World :=
  {| random := sampleRandom; drawn := 0; allocated := [] |}.

(** ** Paul Kellet's pink filter, as the specification words it *)

(** A leaky integrator [bk = a * bk + white * c]. *)
Definition leaky (a c bk white : float) : float := (a * bk + white * c)%js.

(** One step for the uniform draw [random] of [Math.random]: the white
    sample is the draw spread to (-1, 1) and halved; the six poles are
    updated; the output sums them with the seventh tap of the previous
    step and is then scaled, each time as an element of the
    single-precision buffer; only then the seventh tap is refreshed. *)
Definition kelletStep (b : poles) (random : float) : float * poles :=
  let '(b0, b1, b2, b3, b4, b5, b6) := b in
  let white := ((random * 2 - 1) * 0.5)%js in
  let b0 := leaky 0.99886 0.0555179 b0 white in
  let b1 := leaky 0.99332 0.0750759 b1 white in
  let b2 := leaky 0.96900 0.1538520 b2 white in
  let b3 := leaky 0.86650 0.3104856 b3 white in
  let b4 := leaky 0.55000 0.5329522 b4 white in
  let b5 := leaky (-0.7616) (-0.0168980) b5 white in
  let out := fround (b0 + b1 + b2 + b3 + b4 + b5 + b6 + white * 0.5362)%js in
  let out := fround (out * 0.11)%js in
  (out, (b0, b1, b2, b3, b4, b5, (white * 0.115926)%js)).

(** ** Bounds of the arithmetic of the encoder and of the white filter *)

(** [Math.random()] returns a number in [[0, 1)]. *)
Definition unit_draw (r : float) : Prop :=
  valid64 r /\ fle 0%js r = true /\ flt r 1%js = true.

Definition half : Z := 2 ^ (bias - 1).

(** ** The normalizer on binary32 buffers *)

(** The values a [Float32Array] element can hold. *)
Definition float32 (x : float) : Prop := valid64 x /\ fround x = x.

(** The maximum found by the first loop of [normalizeSamples]. *)
Definition peak (samples : list float) : float :=
  fold_left (fun max s =>
               let abs := Math_abs s in
               if (abs > max)%js then abs else max)
            samples 0%js.

(** A finite binary32 value. *)
Definition finite32 (x : float) : Prop :=
  finite64 x /\ representable 24 1999 (Z.abs (F2Z x)) /\ Z.abs (F2Z x) < 2 ^ (128 + bias).

(** [0.99] as stored in a [Float32Array]: the peak after a rescaling. *)
Definition target : float := fround 0.99%js.

(** The scale of a second rescaling. *)
Definition rescale : float := (0.99 / target)%js.

Definition N99 : Z := F2Z 0.99%js.
Definition FA : Z := F2Z target.
Definition K99 : Z := F2Z rescale.
(** The binary64 number just below [0.99]. *)
Definition L99 : Z := N99 - 2 ^ (bias - 53).

Definition peak_from (max0 : float) (samples : list float) : float :=
  fold_left (fun max s =>
               let abs := Math_abs s in
               if (abs > max)%js then abs else max)
            samples max0.

Definition is_infinite (x : float) : bool :=
  match x with S754_infinity _ => true | _ => false end.

(** ** A host for the grey filter *)

(** The first draws of [greyWorld]; its later draws are all 0.25. *)
Definition greyDraws : list float := [0.029%js; 0.049%js; 0.595%js].

Definition greyWorld : World :=
  {| random := fun i => default 0.25%js (greyDraws !! i); drawn := 0; allocated := [] |}.

(** ** The encoder, the white filter and the peak *)

(** [DataView.getInt16(offset, true)]. *)
Definition getInt16 (bytes : list Z) (offset : nat) : Z :=
  let u := getUint16 bytes offset in
  if 32768 <=? u then u - 65536 else u.

(** Every draw of the host is in [[0, 1)]. *)
Definition unit_draws (w : World) : Prop := forall i, unit_draw (random w i).

(** * Lemmas *)

(** ** Rounding to nearest even on fractions of integers *)

Lemma loc_of_shr_record_of_loc m l :
  loc_of_shr_record (shr_record_of_loc m l) = l.
Proof. destruct l as [|[]]; reflexivity. Qed.

Lemma shr_m_of_loc m l : shr_m (shr_record_of_loc m l) = m.
Proof. destruct l as [|[]]; reflexivity. Qed.

Lemma shr_1_of_loc m l :
  0 <= m ->
  shr_1 (shr_record_of_loc m l) =
  {| shr_m := m / 2;
     shr_r := Z.odd m;
     shr_s := match l with loc_Exact => false | _ => true end |}.
Proof.
  intros Hm.
  assert (Hs : forall r s, shr_record_of_loc m l = Build_shr_record m r s ->
                 orb r s = match l with loc_Exact => false | _ => true end).
  { intros r s. destruct l as [|[]]; simpl; intros H; injection H as <- <-; reflexivity. }
  destruct (shr_record_of_loc m l) as [m' r s] eqn:Hrec.
  assert (m' = m) as -> by (rewrite <- (shr_m_of_loc m l), Hrec; reflexivity).
  specialize (Hs r s eq_refl). unfold shr_1. rewrite Hs.
  destruct m as [|p|p]; [reflexivity | | lia].
  destruct p as [p|p|]; try reflexivity.
  - f_equal. rewrite Pos2Z.inj_xI. apply Z.div_unique with 1; lia.
  - f_equal. rewrite Pos2Z.inj_xO. apply Z.div_unique with 0; lia.
Qed.

Lemma frac_record_double a b :
  0 <= a -> 0 < b ->
  shr_1 (frac_record a b) = frac_record a (2 * b).
Proof.
  intros Ha Hb. unfold frac_record.
  pose proof (Z.div_pos a b Ha Hb) as Hq.
  rewrite shr_1_of_loc by exact Hq.
  pose proof (Z.div_mod a b ltac:(lia)) as Hdm.
  pose proof (Z.mod_pos_bound a b Hb) as Hr.
  assert (Hq2 : a / (2 * b) = a / b / 2) by (rewrite Z.mul_comm, Z.div_div; lia).
  assert (Hr2 : a mod (2 * b) = a mod b + b * ((a / b) mod 2))
    by (rewrite (Z.mul_comm 2 b); apply Z.rem_mul_r; lia).
  rewrite Hq2, Hr2.
  pose proof (Zmod_odd (a / b)) as Hodd.
  unfold loc_frac.
  destruct (Z.odd (a / b)) eqn:Ho; rewrite Hodd.
  - destruct (Z.eqb_spec (a mod b + b * 1) 0) as [H0|H0]; [lia|].
    destruct (Z.eqb_spec (a mod b) 0) as [Hz|Hz].
    + rewrite Hz. replace (2 * (0 + b * 1) ?= 2 * b) with Eq
        by (symmetry; apply Z.compare_eq_iff; lia).
      reflexivity.
    + replace (2 * (a mod b + b * 1) ?= 2 * b) with Gt
        by (symmetry; apply Z.compare_gt_iff; lia).
      reflexivity.
  - rewrite Z.mul_0_r, Z.add_0_r.
    destruct (Z.eqb_spec (a mod b) 0) as [Hz|Hz]; [reflexivity|].
    replace (2 * (a mod b) ?= 2 * b) with Lt
      by (symmetry; apply Z.compare_lt_iff; lia).
    reflexivity.
Qed.

Lemma pow2_xO p : 2 ^ Zpos p~0 = 2 ^ Zpos p * 2 ^ Zpos p.
Proof.
  rewrite (Pos2Z.inj_xO p). replace (2 * Zpos p) with (Zpos p + Zpos p) by lia.
  apply Z.pow_add_r; lia.
Qed.

Lemma pow2_xI p : 2 ^ Zpos p~1 = 2 * (2 ^ Zpos p * 2 ^ Zpos p).
Proof.
  rewrite (Pos2Z.inj_xI p). replace (2 * Zpos p + 1) with (1 + (Zpos p + Zpos p)) by lia.
  rewrite Z.pow_add_r, Z.pow_add_r by lia. reflexivity.
Qed.

Lemma pow2_pos n : 0 < 2 ^ n \/ n < 0.
Proof. destruct (Z.le_gt_cases 0 n); [left; apply Z.pow_pos_nonneg; lia | right; lia]. Qed.

Lemma iter_pos_frac p : forall a b,
  0 <= a -> 0 < b ->
  SpecFloat.iter_pos shr_1 p (frac_record a b) = frac_record a (b * 2 ^ Zpos p).
Proof.
  induction p as [p IH|p IH|]; intros a b Ha Hb; simpl SpecFloat.iter_pos.
  - assert (0 < 2 ^ Zpos p) by (apply Z.pow_pos_nonneg; lia).
    rewrite frac_record_double, !IH by nia. f_equal.
    rewrite pow2_xI. ring.
  - assert (0 < 2 ^ Zpos p) by (apply Z.pow_pos_nonneg; lia).
    rewrite !IH by nia. f_equal.
    rewrite pow2_xO. ring.
  - rewrite frac_record_double by lia. f_equal. rewrite Z.pow_1_r. ring.
Qed.

Lemma shr_frac a b e n :
  0 <= a -> 0 < b -> 0 <= n ->
  shr (frac_record a b) e n = (frac_record a (b * 2 ^ n), e + n).
Proof.
  intros Ha Hb Hn. unfold shr. destruct n as [|p|p]; [| | lia].
  - now rewrite Z.mul_1_r, Z.add_0_r.
  - now rewrite iter_pos_frac.
Qed.

Lemma shr_neg mrs e n : n <= 0 -> shr mrs e n = (mrs, e).
Proof. destruct n; try reflexivity. lia. Qed.

Lemma round_frac_record a b :
  0 < b ->
  round_nearest_even (shr_m (frac_record a b)) (loc_of_shr_record (frac_record a b))
  = rne a b.
Proof.
  intros Hb. unfold frac_record.
  rewrite shr_m_of_loc, loc_of_shr_record_of_loc.
  unfold loc_frac, rne.
  pose proof (Z.mod_pos_bound a b Hb) as Hr.
  destruct (Z.eqb_spec (a mod b) 0) as [Hz|Hz].
  - rewrite Hz. simpl. destruct b; try lia; reflexivity.
  - simpl. destruct (2 * (a mod b) ?= b); reflexivity.
Qed.

(** *** Properties of [rne] *)

Lemma rne_bounds a b : 0 < b -> a / b <= rne a b <= a / b + 1.
Proof.
  intros Hb. unfold rne.
  destruct (2 * (a mod b) ?= b); [destruct (Z.even (a / b))| |]; lia.
Qed.

Lemma rne_exact a b : 0 < b -> a mod b = 0 -> rne a b = a / b.
Proof.
  intros Hb H. unfold rne. rewrite H. simpl.
  destruct b; try lia; reflexivity.
Qed.

Lemma rne_mul k b : 0 < b -> rne (k * b) b = k.
Proof.
  intros Hb. rewrite rne_exact by (try apply Z.mod_mul; lia).
  apply Z.div_mul. lia.
Qed.

(** Rounding never crosses an integer. *)
Lemma rne_le_upper a b k : 0 < b -> a <= k * b -> rne a b <= k.
Proof.
  intros Hb H. unfold rne.
  pose proof (Z.div_mod a b ltac:(lia)) as Hdm.
  pose proof (Z.mod_pos_bound a b Hb) as Hr.
  assert (Hq : a / b <= k) by nia.
  destruct (Z.compare_spec (2 * (a mod b)) b) as [Heq|Hlt|Hgt].
  - destruct (Z.even (a / b)); [lia|]. assert (a / b <> k) by nia. lia.
  - lia.
  - assert (a / b <> k) by nia. lia.
Qed.

Lemma rne_ge_lower a b k : 0 < b -> k * b <= a -> k <= rne a b.
Proof.
  intros Hb H.
  pose proof (rne_bounds a b Hb).
  pose proof (Z.div_mod a b ltac:(lia)) as Hdm.
  pose proof (Z.mod_pos_bound a b Hb) as Hr.
  assert (Hq : k <= a / b) by nia. lia.
Qed.

Lemma rne_nonneg a b : 0 <= a -> 0 < b -> 0 <= rne a b.
Proof. intros Ha Hb. apply (rne_ge_lower a b 0); lia. Qed.

(** The rounded value is within half a unit. *)
Lemma rne_error a b : 0 < b -> 2 * Z.abs (rne a b * b - a) <= b.
Proof.
  intros Hb. unfold rne.
  pose proof (Z.div_mod a b ltac:(lia)) as Hdm.
  pose proof (Z.mod_pos_bound a b Hb) as Hr.
  destruct (Z.compare_spec (2 * (a mod b)) b) as [Heq|Hlt|Hgt];
    [destruct (Z.even (a / b))| |]; nia.
Qed.

Lemma rne_scale a b c : 0 < b -> 0 < c -> rne (a * c) (b * c) = rne a b.
Proof.
  intros Hb Hc. unfold rne.
  rewrite Z.div_mul_cancel_r by lia.
  rewrite Zmult_mod_distr_r.
  replace (2 * (a mod b * c) ?= b * c) with (2 * (a mod b) ?= b); [reflexivity|].
  destruct (Z.compare_spec (2 * (a mod b)) b) as [Heq|Hlt|Hgt]; symmetry.
  - apply Z.compare_eq_iff. nia.
  - apply Z.compare_lt_iff. nia.
  - apply Z.compare_gt_iff. nia.
Qed.

Lemma rne_monotone a a' b : 0 < b -> a <= a' -> rne a b <= rne a' b.
Proof.
  intros Hb H.
  pose proof (Z.div_mod a b ltac:(lia)) as Hdm.
  pose proof (Z.mod_pos_bound a b Hb) as Hr.
  pose proof (Z.div_mod a' b ltac:(lia)) as Hdm'.
  pose proof (Z.mod_pos_bound a' b Hb) as Hr'.
  assert (Hq : a / b <= a' / b) by (apply Z.div_le_mono; lia).
  destruct (Z.eq_dec (a / b) (a' / b)) as [Heq|Hne].
  - unfold rne. rewrite Heq in *.
    destruct (Z.compare_spec (2 * (a mod b)) b) as [H1|H1|H1];
    destruct (Z.compare_spec (2 * (a' mod b)) b) as [H2|H2|H2];
    destruct (Z.even (a' / b)); lia.
  - pose proof (rne_bounds a b Hb). pose proof (rne_bounds a' b Hb). lia.
Qed.

(** *** Number of binary digits *)

Lemma digits2_pos_size p : digits2_pos p = Pos.size p.
Proof. induction p as [p IH|p IH|]; simpl; now rewrite ?IH. Qed.

Lemma Zdigits2_log2 m : 0 < m -> Zdigits2 m = Z.log2 m + 1.
Proof.
  destruct m as [|p|p]; try lia. intros _. simpl.
  rewrite digits2_pos_size.
  destruct p as [p|p|]; simpl; rewrite ?Pos2Z.inj_succ; lia.
Qed.

Lemma Zdigits2_nonneg m : 0 <= Zdigits2 m.
Proof. destruct m; simpl; lia. Qed.

Lemma Zdigits2_pos m : 0 < m -> 0 < Zdigits2 m.
Proof. destruct m; simpl; lia. Qed.

Lemma Zdigits2_bounds m :
  0 < m -> 2 ^ (Zdigits2 m - 1) <= m < 2 ^ Zdigits2 m.
Proof.
  intros Hm. rewrite Zdigits2_log2 by exact Hm.
  pose proof (Z.log2_spec m Hm) as H.
  replace (Z.log2 m + 1 - 1) with (Z.log2 m) by lia.
  replace (Z.log2 m + 1) with (Z.succ (Z.log2 m)) by lia. exact H.
Qed.

Lemma Zdigits2_unique m d :
  2 ^ (d - 1) <= m < 2 ^ d -> 0 < d -> Zdigits2 m = d.
Proof.
  intros H Hd.
  assert (Hm : 0 < m).
  { assert (0 < 2 ^ (d - 1)) by (apply Z.pow_pos_nonneg; lia). lia. }
  rewrite Zdigits2_log2 by exact Hm.
  rewrite (Z.log2_unique m (d - 1)); [lia | lia |].
  replace (Z.succ (d - 1)) with d by lia. exact H.
Qed.

Lemma Zdigits2_le m m' : 0 <= m <= m' -> Zdigits2 m <= Zdigits2 m'.
Proof.
  intros [H0 H].
  destruct (Z.eq_dec m 0) as [->|Hm]; [simpl; apply Zdigits2_nonneg|].
  rewrite !Zdigits2_log2 by lia.
  pose proof (Z.log2_le_mono m m' H). lia.
Qed.

Lemma Zdigits2_lt_pow m d : 0 <= m -> 0 <= d -> m < 2 ^ d -> Zdigits2 m <= d.
Proof.
  intros H0 Hd H.
  destruct (Z.eq_dec m 0) as [->|Hm]; [simpl; lia|].
  pose proof (Zdigits2_bounds m ltac:(lia)) as [Hlo _].
  destruct (Z.le_gt_cases (Zdigits2 m) d) as [|Hgt]; [assumption|].
  assert (2 ^ d <= 2 ^ (Zdigits2 m - 1)) by (apply Z.pow_le_mono_r; lia). lia.
Qed.

Lemma Zdigits2_ge_pow m d : 0 <= d -> 2 ^ d <= m -> d + 1 <= Zdigits2 m.
Proof.
  intros Hd H.
  assert (0 < 2 ^ d) by (apply Z.pow_pos_nonneg; lia).
  pose proof (Zdigits2_bounds m ltac:(lia)) as [_ Hhi].
  destruct (Z.le_gt_cases (d + 1) (Zdigits2 m)) as [|Hlt]; [assumption|].
  assert (2 ^ Zdigits2 m <= 2 ^ d) by (apply Z.pow_le_mono_r; lia). lia.
Qed.

Lemma Zdigits2_mul_pow2 m k :
  0 < m -> 0 <= k -> Zdigits2 (m * 2 ^ k) = Zdigits2 m + k.
Proof.
  intros Hm Hk.
  assert (0 < 2 ^ k) by (apply Z.pow_pos_nonneg; lia).
  rewrite !Zdigits2_log2 by nia.
  rewrite Z.log2_mul_pow2 by lia. lia.
Qed.

Lemma Zdigits2_div_pow2 m k :
  0 <= m -> 0 <= k -> Zdigits2 (m / 2 ^ k) = Z.max (Zdigits2 m - k) 0.
Proof.
  intros Hm Hk.
  assert (H2k : 0 < 2 ^ k) by (apply Z.pow_pos_nonneg; lia).
  destruct (Z.eq_dec m 0) as [->|Hm0].
  { rewrite Z.div_0_l by lia. simpl. lia. }
  pose proof (Zdigits2_bounds m ltac:(lia)) as [Hlo Hhi].
  pose proof (Zdigits2_pos m ltac:(lia)) as Hd.
  destruct (Z.le_gt_cases (Zdigits2 m) k) as [Hle|Hgt].
  - rewrite Z.div_small; [simpl; lia|].
    split; [lia|]. assert (2 ^ Zdigits2 m <= 2 ^ k) by (apply Z.pow_le_mono_r; lia). lia.
  - rewrite Z.max_l by lia.
    apply Zdigits2_unique; [|lia].
    replace (2 ^ (Zdigits2 m - 1)) with (2 ^ (Zdigits2 m - k - 1) * 2 ^ k) in Hlo
      by (rewrite <- Z.pow_add_r by lia; f_equal; lia).
    replace (2 ^ Zdigits2 m) with (2 ^ (Zdigits2 m - k) * 2 ^ k) in Hhi
      by (rewrite <- Z.pow_add_r by lia; f_equal; lia).
    split.
    + apply Z.div_le_lower_bound; lia.
    + apply Z.div_lt_upper_bound; lia.
Qed.

(** ** [binary_round_aux] rounds to nearest even *)

Section Rounding.
Variables prec emax : Z.
Hypothesis Hprec : 0 < prec.
Hypothesis Hemax : 3 <= 2 * emax.

Abbreviation emin := (emin prec emax).
Abbreviation fexp := (fexp prec emax).

Lemma fexp_ge_emin e : emin <= fexp e.
Proof. unfold SpecFloat.fexp. lia. Qed.

Lemma fexp_le e e' : e <= e' -> fexp e <= fexp e'.
Proof. unfold SpecFloat.fexp. lia. Qed.

(** The closed form of [binary_round_aux] on the fraction [a / b] scaled
    by [2^ex], when the mantissa has enough digits ([0 <= n]). *)
Lemma binary_round_aux_frac s a b ex :
  0 <= a -> 0 < b ->
  let n := fexp (Zdigits2 (a / b) + ex) - ex in
  0 <= n ->
  binary_round_aux prec emax s (a / b) ex (loc_frac (a mod b) b) =
  let m1 := rne a (b * 2 ^ n) in
  let e1 := ex + n in
  let n2 := fexp (Zdigits2 m1 + e1) - e1 in
  let m2 := if 0 <? n2 then m1 / 2 ^ n2 else m1 in
  let e2 := if 0 <? n2 then e1 + n2 else e1 in
  match m2 with
  | Z0 => S754_zero s
  | Zpos m => if e2 <=? emax - prec then S754_finite s m e2 else S754_infinity s
  | Zneg _ => S754_nan
  end.
Proof.
  intros Ha Hb n Hn. cbv zeta.
  unfold binary_round_aux, shr_fexp.
  change (shr_record_of_loc (a / b) (loc_frac (a mod b) b)) with (frac_record a b).
  fold n. rewrite shr_frac by assumption.
  assert (Hbn : 0 < b * 2 ^ n) by (apply Z.mul_pos_pos; [|apply Z.pow_pos_nonneg]; lia).
  rewrite round_frac_record by exact Hbn.
  set (m1 := rne a (b * 2 ^ n)). set (e1 := ex + n).
  assert (Hm1 : 0 <= m1) by (apply rne_nonneg; assumption).
  set (n2 := fexp (Zdigits2 m1 + e1) - e1).
  assert (Hrec : shr_record_of_loc m1 loc_Exact = frac_record m1 1).
  { unfold frac_record. rewrite Z.div_1_r, Z.mod_1_r. reflexivity. }
  rewrite Hrec.
  destruct (Z.ltb_spec 0 n2) as [Hpos|Hneg].
  - rewrite shr_frac by lia. unfold frac_record. rewrite shr_m_of_loc, Z.mul_1_l.
    reflexivity.
  - rewrite shr_neg by exact Hneg. unfold frac_record.
    rewrite shr_m_of_loc, Z.div_1_r. reflexivity.
Qed.

(** The result is the rounded mantissa [m1] at exponent [e1], put in
    canonical form; it overflows to infinity past the largest exponent. *)
Theorem binary_round_aux_value s a b ex :
  0 <= a -> 0 < b ->
  let n := fexp (Zdigits2 (a / b) + ex) - ex in
  0 <= n ->
  let m1 := rne a (b * 2 ^ n) in
  let e1 := ex + n in
  let result := binary_round_aux prec emax s (a / b) ex (loc_frac (a mod b) b) in
  (m1 = 0 /\ result = S754_zero s)
  \/ (exists m e,
        Zpos m * 2 ^ (e - e1) = m1 /\ e1 <= e
        /\ canonical_mantissa prec emax m e = true
        /\ result = if e <=? emax - prec then S754_finite s m e else S754_infinity s).
Proof.
  intros Ha Hb n Hn m1 e1 result. subst result.
  rewrite binary_round_aux_frac by assumption. fold n. fold m1. fold e1. cbv zeta.
  assert (H2n : 0 < 2 ^ n) by (apply Z.pow_pos_nonneg; lia).
  assert (Hbn : 0 < b * 2 ^ n) by nia.
  assert (Hm1 : 0 <= m1) by (apply rne_nonneg; assumption).
  set (q := a / b) in *. set (d := Zdigits2 q) in *.
  assert (Hq : 0 <= q) by (apply Z.div_pos; lia).
  assert (He1 : e1 = fexp (d + ex)) by (subst e1 n; lia).
  assert (Hemin : emin <= e1) by (rewrite He1; apply fexp_ge_emin).
  (* the truncated mantissa has at most [prec] digits *)
  set (q' := a / (b * 2 ^ n)).
  assert (Hq' : q' = q / 2 ^ n) by (subst q' q; now rewrite Z.div_div by lia).
  assert (Hdq' : Zdigits2 q' = Z.max (d - n) 0)
    by (rewrite Hq'; apply Zdigits2_div_pow2; lia).
  assert (Hn_ge : d - prec <= n) by (subst n; unfold SpecFloat.fexp; lia).
  assert (Hq'0 : 0 <= q') by (apply Z.div_pos; lia).
  assert (Hq'lt : q' < 2 ^ prec).
  { destruct (Z.eq_dec q' 0) as [->|Hne]; [apply Z.pow_pos_nonneg; lia|].
    pose proof (Zdigits2_bounds q' ltac:(lia)) as [_ Hhi].
    assert (2 ^ Zdigits2 q' <= 2 ^ prec) by (apply Z.pow_le_mono_r; lia). lia. }
  pose proof (rne_bounds a (b * 2 ^ n) Hbn) as Hrb. fold m1 in Hrb. fold q' in Hrb.
  destruct (Z.eq_dec m1 0) as [Hz|Hnz].
  { left. split; [exact Hz|]. rewrite Hz. simpl Zdigits2.
    destruct (Z.ltb_spec 0 (fexp (0 + e1) - e1)) as [Hp|Hp]; [|reflexivity].
    rewrite Z.div_0_l; [reflexivity|]. apply Z.pow_nonzero; lia. }
  right.
  destruct (Z.eq_dec m1 (2 ^ prec)) as [Htop|Hntop].
  - (* the mantissa carried into the next binade *)
    assert (Hd1 : Zdigits2 m1 = prec + 1).
    { rewrite Htop. apply Zdigits2_unique; [|lia].
      replace (prec + 1 - 1) with prec by lia. split; [lia|].
      apply Z.pow_lt_mono_r; lia. }
    assert (Hn2 : fexp (Zdigits2 m1 + e1) - e1 = 1)
      by (rewrite Hd1; unfold SpecFloat.fexp; lia).
    rewrite Hn2. simpl (0 <? 1). cbv iota.
    assert (Hhalf : m1 / 2 ^ 1 = 2 ^ (prec - 1)).
    { rewrite Htop. replace prec with (prec - 1 + 1) at 1 by lia.
      rewrite Z.pow_add_r by lia. apply Z.div_mul. lia. }
    rewrite Hhalf.
    assert (Hp : 0 < 2 ^ (prec - 1)) by (apply Z.pow_pos_nonneg; lia).
    destruct (2 ^ (prec - 1)) as [|m|m] eqn:Hm; try lia.
    exists m, (e1 + 1). split; [|split; [lia|split; [|reflexivity]]].
    + replace (e1 + 1 - e1) with 1 by lia. rewrite Htop, <- Hm.
      rewrite <- Z.pow_add_r by lia. f_equal. lia.
    + unfold canonical_mantissa. apply Z.eqb_eq.
      change (Zpos (digits2_pos m)) with (Zdigits2 (Zpos m)).
      rewrite (Zdigits2_unique (Zpos m) prec); [unfold SpecFloat.fexp; lia | | lia].
      rewrite <- Hm. split; [lia|]. apply Z.pow_lt_mono_r; lia.
  - assert (Hlt : m1 < 2 ^ prec) by lia.
    assert (Hd1 : Zdigits2 m1 <= prec) by (apply Zdigits2_lt_pow; lia).
    assert (Hcanon : fexp (Zdigits2 m1 + e1) = e1).
    { destruct (Z.eq_dec e1 emin) as [Heq|Hneq].
      - unfold SpecFloat.fexp. lia.
      - (* normal: the truncated mantissa has exactly [prec] digits *)
        assert (Hn_eq : n = d - prec) by (subst n; unfold SpecFloat.fexp in *; lia).
        assert (Hdpos : 0 < d).
        { destruct (Z.eq_dec q 0) as [Hq0|Hq0].
          - subst d. rewrite Hq0 in *. simpl in *. unfold SpecFloat.fexp in *. lia.
          - apply Zdigits2_pos. lia. }
        assert (Hdq'p : Zdigits2 q' = prec) by lia.
        assert (2 ^ (prec - 1) <= q').
        { destruct (Z.eq_dec q' 0) as [Hz'|Hz']; [rewrite Hz' in Hdq'p; simpl in Hdq'p; lia|].
          pose proof (Zdigits2_bounds q' ltac:(lia)) as [Hlo _].
          now rewrite Hdq'p in Hlo. }
        assert (prec <= Zdigits2 m1).
        { replace prec with (prec - 1 + 1) by lia. apply Zdigits2_ge_pow; lia. }
        unfold SpecFloat.fexp. lia. }
    rewrite Hcanon, Z.sub_diag. simpl (0 <? 0). cbv iota.
    destruct m1 as [|m|m] eqn:Hm; try lia.
    exists m, e1. split; [|split; [lia|split; [|reflexivity]]].
    + rewrite Z.sub_diag. simpl. lia.
    + unfold canonical_mantissa. apply Z.eqb_eq. exact Hcanon.
Qed.
End Rounding.

Lemma ulp_exp_nonneg p g y : 0 <= g -> 0 <= ulp_exp p g y.
Proof. unfold ulp_exp. lia. Qed.

Lemma ulp_exp_le p g y y' : 0 <= y <= y' -> ulp_exp p g y <= ulp_exp p g y'.
Proof. intros H. unfold ulp_exp. pose proof (Zdigits2_le y y' H). lia. Qed.

Lemma pow2_divide j k : 0 <= j <= k -> (2 ^ k) mod (2 ^ j) = 0.
Proof.
  intros H. replace k with ((k - j) + j) by lia.
  rewrite Z.pow_add_r by lia. apply Z.mod_mul. apply Z.pow_nonzero; lia.
Qed.

Lemma mod_pow2_le y j k : 0 <= j <= k -> y mod 2 ^ k = 0 -> y mod 2 ^ j = 0.
Proof.
  intros H Hk.
  assert (0 < 2 ^ k) by (apply Z.pow_pos_nonneg; lia).
  assert (0 < 2 ^ j) by (apply Z.pow_pos_nonneg; lia).
  apply Z.mod_divide in Hk; [|lia]. destruct Hk as [c ->].
  replace k with ((k - j) + j) by lia. rewrite Z.pow_add_r by lia.
  rewrite Z.mul_assoc. apply Z.mod_mul. lia.
Qed.

Section Format.
Variables p g : Z.
Hypothesis Hp : 0 < p.
Hypothesis Hg : 0 <= g.

Lemma round_frac_nonneg a b : 0 <= a -> 0 < b -> 0 <= round_frac p g a b.
Proof.
  intros Ha Hb. unfold round_frac.
  pose proof (ulp_exp_nonneg p g (a / b) Hg).
  assert (0 < 2 ^ ulp_exp p g (a / b)) by (apply Z.pow_pos_nonneg; lia).
  apply Z.mul_nonneg_nonneg; [apply rne_nonneg|]; nia.
Qed.

(** Rounding does not cross a representable number. *)
Lemma round_frac_le a b y :
  0 <= a -> 0 < b -> representable p g y -> a <= y * b ->
  round_frac p g a b <= y.
Proof.
  intros Ha Hb [Hy Hmod] Hle. unfold round_frac.
  set (k := ulp_exp p g (a / b)).
  assert (Hq : 0 <= a / b <= y).
  { split; [apply Z.div_pos; lia|]. apply Z.div_le_upper_bound; lia. }
  assert (Hk : 0 <= k <= ulp_exp p g y)
    by (split; [apply ulp_exp_nonneg; lia | apply ulp_exp_le; lia]).
  assert (H2k : 0 < 2 ^ k) by (apply Z.pow_pos_nonneg; lia).
  pose proof (mod_pow2_le y k _ Hk Hmod) as Hyk.
  apply Z.mod_divide in Hyk; [|lia]. destruct Hyk as [c Hc].
  assert (rne a (b * 2 ^ k) <= c) by (apply rne_le_upper; nia).
  nia.
Qed.

Lemma round_frac_ge a b y :
  0 <= a -> 0 < b -> representable p g y -> y * b <= a ->
  y <= round_frac p g a b.
Proof.
  intros Ha Hb [Hy Hmod] Hle. unfold round_frac.
  set (q := a / b). set (k := ulp_exp p g q).
  assert (Hq : y <= q) by (apply Z.div_le_lower_bound; lia).
  assert (Hk0 : 0 <= k) by (apply ulp_exp_nonneg; lia).
  assert (H2k : 0 < 2 ^ k) by (apply Z.pow_pos_nonneg; lia).
  destruct (Z.le_gt_cases k (ulp_exp p g y)) as [Hk|Hk].
  - pose proof (mod_pow2_le y k _ (conj Hk0 Hk) Hmod) as Hyk.
    apply Z.mod_divide in Hyk; [|lia]. destruct Hyk as [c Hc].
    assert (c <= rne a (b * 2 ^ k)) by (apply rne_ge_lower; nia).
    nia.
  - (* the quotient lies in a higher binade than [y] *)
    assert (Hkd : k = Zdigits2 q - p) by (unfold k, ulp_exp in *; lia).
    assert (Hdy : Zdigits2 y < Zdigits2 q) by (unfold k, ulp_exp in *; lia).
    assert (Hq0 : 0 < q).
    { destruct (Z.eq_dec q 0) as [H0|H0]; [|lia].
      rewrite H0 in Hdy. simpl in Hdy. pose proof (Zdigits2_nonneg y). lia. }
    pose proof (Zdigits2_bounds q Hq0) as [Hqlo _].
    assert (Hy_lt : y < 2 ^ (Zdigits2 q - 1)).
    { destruct (Z.eq_dec y 0) as [->|Hy0]; [apply Z.pow_pos_nonneg; lia|].
      pose proof (Zdigits2_bounds y ltac:(lia)) as [_ Hyhi].
      assert (2 ^ Zdigits2 y <= 2 ^ (Zdigits2 q - 1))
        by (apply Z.pow_le_mono_r; lia). lia. }
    assert (Hfloor : 2 ^ (Zdigits2 q - 1 - k) <= a / (b * 2 ^ k)).
    { rewrite <- Z.div_div by lia. fold q.
      apply Z.div_le_lower_bound; [lia|].
      rewrite <- Z.pow_add_r by lia.
      replace (k + (Zdigits2 q - 1 - k)) with (Zdigits2 q - 1) by lia. exact Hqlo. }
    pose proof (rne_bounds a (b * 2 ^ k) ltac:(nia)) as [Hr _].
    assert (2 ^ (Zdigits2 q - 1) <= rne a (b * 2 ^ k) * 2 ^ k).
    { replace (Zdigits2 q - 1) with ((Zdigits2 q - 1 - k) + k) by lia.
      rewrite Z.pow_add_r by lia. nia. }
    lia.
Qed.

(** The rounding error is at most half a unit in the last place. *)
Lemma round_frac_error a b :
  0 <= a -> 0 < b ->
  2 * Z.abs (round_frac p g a b * b - a) <= b * 2 ^ ulp_exp p g (a / b).
Proof.
  intros Ha Hb. unfold round_frac.
  set (k := ulp_exp p g (a / b)).
  assert (Hk0 : 0 <= k) by (apply ulp_exp_nonneg; lia).
  assert (H2k : 0 < 2 ^ k) by (apply Z.pow_pos_nonneg; lia).
  pose proof (rne_error a (b * 2 ^ k) ltac:(nia)) as H.
  replace (rne a (b * 2 ^ k) * 2 ^ k * b - a) with (rne a (b * 2 ^ k) * (b * 2 ^ k) - a)
    by ring. exact H.
Qed.

Lemma round_frac_exact y :
  representable p g y -> round_frac p g y 1 = y.
Proof.
  intros [Hy Hmod]. unfold round_frac. rewrite Z.div_1_r, Z.mul_1_l.
  set (k := ulp_exp p g y) in *.
  assert (Hk0 : 0 <= k) by (apply ulp_exp_nonneg; lia).
  assert (H2k : 0 < 2 ^ k) by (apply Z.pow_pos_nonneg; lia).
  rewrite rne_exact by (lia || assumption).
  pose proof (Z.div_mod y (2 ^ k) ltac:(lia)). lia.
Qed.

Lemma round_frac_scale a b c :
  0 < b -> 0 < c -> round_frac p g (a * c) (b * c) = round_frac p g a b.
Proof.
  intros Hb Hc. unfold round_frac.
  rewrite Z.div_mul_cancel_r by lia.
  set (k := ulp_exp p g (a / b)).
  assert (Hk0 : 0 <= k) by (apply ulp_exp_nonneg; lia).
  assert (H2k : 0 < 2 ^ k) by (apply Z.pow_pos_nonneg; lia).
  replace (b * c * 2 ^ k) with (b * 2 ^ k * c) by ring.
  rewrite rne_scale by nia. reflexivity.
Qed.

End Format.

Lemma Zdigits2_frac_scale a b t :
  0 < b <= a -> 0 <= t ->
  Zdigits2 (a * 2 ^ t / b) = Zdigits2 (a / b) + t.
Proof.
  intros [Hb Ha] Ht.
  assert (H2t : 0 < 2 ^ t) by (apply Z.pow_pos_nonneg; lia).
  assert (Hq : 0 < a / b) by (apply Z.div_str_pos; lia).
  pose proof (Zdigits2_bounds (a / b) Hq) as [Hlo Hhi].
  pose proof (Zdigits2_pos (a / b) Hq) as Hd.
  pose proof (Z.div_mod a b ltac:(lia)) as Hdm.
  pose proof (Z.mod_pos_bound a b Hb) as Hr.
  apply Zdigits2_unique; [|lia].
  replace (Zdigits2 (a / b) + t - 1) with (Zdigits2 (a / b) - 1 + t) by lia.
  rewrite !Z.pow_add_r by lia.
  set (lo := 2 ^ (Zdigits2 (a / b) - 1)) in *. set (hi := 2 ^ Zdigits2 (a / b)) in *.
  assert (Hlo' : b * lo <= a) by nia.
  assert (Hhi' : a < b * hi) by nia.
  split.
  - apply Z.div_le_lower_bound; [lia|]. nia.
  - apply Z.div_lt_upper_bound; [lia|]. nia.
Qed.

Section Scaled.
Variables prec emax : Z.
Hypothesis Hprec : 0 < prec.
Hypothesis Hemax : 3 <= 2 * emax.
Hypothesis Hbias : 0 <= emin prec emax + bias.

Abbreviation emin' := (emin prec emax).
Abbreviation fexp' := (fexp prec emax).

Lemma canonical_overflow m e :
  canonical_mantissa prec emax m e = true ->
  (e <=? emax - prec) = (Zpos m * 2 ^ (e + bias) <? 2 ^ (emax + bias)).
Proof.
  unfold canonical_mantissa. intros Hc. apply Z.eqb_eq in Hc.
  change (Zpos (digits2_pos m)) with (Zdigits2 (Zpos m)) in Hc.
  pose proof (Zdigits2_bounds (Zpos m) ltac:(lia)) as [Hlo Hhi].
  set (d := Zdigits2 (Zpos m)) in *.
  assert (Hd : 0 < d) by (apply Zdigits2_pos; lia).
  assert (Hemin : emin' <= e) by (rewrite <- Hc; apply fexp_ge_emin).
  assert (Heb : 0 <= e + bias) by lia.
  assert (H2e : 0 < 2 ^ (e + bias)) by (apply Z.pow_pos_nonneg; lia).
  assert (Hdp : d <= prec) by (unfold fexp, SpecFloat.emin in *; lia).
  destruct (Z.leb_spec e (emax - prec)) as [Hle|Hgt]; symmetry.
  - apply Z.ltb_lt.
    assert (2 ^ d * 2 ^ (e + bias) <= 2 ^ (emax + bias)).
    { rewrite <- Z.pow_add_r by lia. apply Z.pow_le_mono_r; lia. }
    nia.
  - apply Z.ltb_ge.
    assert (Hnorm : d = prec) by (unfold fexp, SpecFloat.emin in *; lia).
    assert (2 ^ (emax + bias) <= 2 ^ (d - 1) * 2 ^ (e + bias)).
    { rewrite <- Z.pow_add_r by lia. apply Z.pow_le_mono_r; lia. }
    nia.
Qed.

Theorem binary_round_aux_encodes s a b ex :
  0 < b <= a -> 0 <= ex + bias ->
  0 <= fexp' (Zdigits2 (a / b) + ex) - ex ->
  encodes prec emax s
    (round_frac prec (emin' + bias) (a * 2 ^ (ex + bias)) b)
    (binary_round_aux prec emax s (a / b) ex (loc_frac (a mod b) b)).
Proof.
  intros [Hb Ha] Hex Hn.
  pose proof (binary_round_aux_value prec emax Hprec Hemax s a b ex ltac:(lia) Hb Hn) as Hv.
  cbv zeta in Hv.
  set (n := fexp' (Zdigits2 (a / b) + ex) - ex) in *.
  set (t := ex + bias) in *.
  assert (H2t : 0 < 2 ^ t) by (apply Z.pow_pos_nonneg; lia).
  assert (H2n : 0 < 2 ^ n) by (apply Z.pow_pos_nonneg; lia).
  (* the rounding in integer units is the same rounding *)
  assert (Hk : ulp_exp prec (emin' + bias) (a * 2 ^ t / b) = n + t).
  { unfold ulp_exp. rewrite Zdigits2_frac_scale by lia.
    subst n t. unfold fexp. lia. }
  assert (Hr : round_frac prec (emin' + bias) (a * 2 ^ t) b
               = rne a (b * 2 ^ n) * 2 ^ (n + t)).
  { unfold round_frac. rewrite Hk. f_equal.
    rewrite Z.pow_add_r by lia.
    replace (b * (2 ^ n * 2 ^ t)) with (b * 2 ^ n * 2 ^ t) by ring.
    apply rne_scale; nia. }
  rewrite Hr.
  assert (H2nt : 0 < 2 ^ (n + t)) by (apply Z.pow_pos_nonneg; lia).
  destruct Hv as [[Hm1 Hres] | (m & e & Hval & He & Hcan & Hres)].
  - left. rewrite Hm1, Hres. split; [lia | reflexivity].
  - assert (Hm1pos : 0 < rne a (b * 2 ^ n)).
    { rewrite <- Hval. apply Z.mul_pos_pos; [lia|]. apply Z.pow_pos_nonneg; lia. }
    assert (Hval' : Zpos m * 2 ^ (e + bias) = rne a (b * 2 ^ n) * 2 ^ (n + t)).
    { rewrite <- Hval.
      replace (e + bias) with ((e - (ex + n)) + (n + t)) by (subst t; lia).
      rewrite Z.pow_add_r by lia. ring. }
    rewrite Hres, (canonical_overflow m e Hcan), Hval'.
    destruct (Z.ltb_spec (rne a (b * 2 ^ n) * 2 ^ (n + t)) (2 ^ (emax + bias))) as [Hlt|Hge].
    + right. left. split; [nia|].
      exists m, e. split; [reflexivity|]. split; [|exact Hval'].
      unfold bounded. rewrite Hcan. simpl.
      rewrite (canonical_overflow m e Hcan), Hval'. apply Z.ltb_lt. exact Hlt.
    + right. right. split; [exact Hge | reflexivity].
Qed.
End Scaled.

(** ** Binary64 numbers as integers in units of 2^-bias *)

Lemma bounded64_inv m e :
  bounded 53 1024 m e = true ->
  -1074 <= e <= 971 /\ 0 < Zdigits2 (Zpos m) <= 53
  /\ (Zdigits2 (Zpos m) = 53 \/ e = -1074).
Proof.
  unfold bounded, canonical_mantissa. intros H.
  apply andb_prop in H. destruct H as [Hc He].
  apply Z.eqb_eq in Hc. apply Z.leb_le in He.
  change (Zpos (digits2_pos m)) with (Zdigits2 (Zpos m)) in Hc.
  pose proof (Zdigits2_pos (Zpos m) ltac:(lia)).
  unfold fexp, emin in Hc. lia.
Qed.

Lemma bounded32_inv m e :
  bounded 24 128 m e = true ->
  -149 <= e <= 104 /\ 0 < Zdigits2 (Zpos m) <= 24
  /\ (Zdigits2 (Zpos m) = 24 \/ e = -149).
Proof.
  unfold bounded, canonical_mantissa. intros H.
  apply andb_prop in H. destruct H as [Hc He].
  apply Z.eqb_eq in Hc. apply Z.leb_le in He.
  change (Zpos (digits2_pos m)) with (Zdigits2 (Zpos m)) in Hc.
  pose proof (Zdigits2_pos (Zpos m) ltac:(lia)).
  unfold fexp, emin in Hc. lia.
Qed.

Lemma canonical_representable prec emax m e :
  0 < prec -> 0 <= emin prec emax + bias ->
  canonical_mantissa prec emax m e = true ->
  representable prec (emin prec emax + bias) (Zpos m * 2 ^ (e + bias)).
Proof.
  intros Hp Hb Hc. unfold canonical_mantissa in Hc. apply Z.eqb_eq in Hc.
  change (Zpos (digits2_pos m)) with (Zdigits2 (Zpos m)) in Hc.
  assert (He : emin prec emax <= e) by (rewrite <- Hc; unfold fexp; lia).
  assert (H2 : 0 < 2 ^ (e + bias)) by (apply Z.pow_pos_nonneg; lia).
  split; [nia|].
  unfold ulp_exp. rewrite Zdigits2_mul_pow2 by lia.
  replace (Z.max (Zdigits2 (Zpos m) + (e + bias) - prec) (emin prec emax + bias))
    with (e + bias) by (unfold fexp in Hc; lia).
  apply Z.mod_mul. lia.
Qed.

Lemma encodes_finite prec emax s r R :
  encodes prec emax s r R -> 0 <= r < 2 ^ (emax + bias) ->
  valid_binary prec emax R = true /\ is_finite R = true
  /\ F2Z R = cond_Zopp s r /\ sign_of R = s.
Proof.
  intros [[-> ->] | [[Hr (m & e & -> & Hb & Hv)] | [Hr ->]]] Hlt.
  - split; [reflexivity|]. split; [reflexivity|]. split; [|reflexivity].
    destruct s; reflexivity.
  - split; [exact Hb|]. split; [reflexivity|]. split; [|reflexivity].
    unfold F2Z. now rewrite Hv.
  - lia.
Qed.

(** *** Multiplication *)

Lemma Zdigits2_mul_ge a b :
  0 < a -> 0 < b -> Zdigits2 a + Zdigits2 b - 1 <= Zdigits2 (a * b).
Proof.
  intros Ha Hb.
  pose proof (Zdigits2_bounds a Ha) as [Hla _].
  pose proof (Zdigits2_bounds b Hb) as [Hlb _].
  pose proof (Zdigits2_pos a Ha). pose proof (Zdigits2_pos b Hb).
  replace (Zdigits2 a + Zdigits2 b - 1) with ((Zdigits2 a - 1 + (Zdigits2 b - 1)) + 1) by lia.
  apply Zdigits2_ge_pow; [lia|].
  rewrite Z.pow_add_r by lia.
  assert (0 < 2 ^ (Zdigits2 a - 1)) by (apply Z.pow_pos_nonneg; lia).
  assert (0 < 2 ^ (Zdigits2 b - 1)) by (apply Z.pow_pos_nonneg; lia).
  nia.
Qed.

Theorem SFmul_encodes sx mx ex sy my ey :
  bounded 53 1024 mx ex = true -> bounded 53 1024 my ey = true ->
  encodes 53 1024 (xorb sx sy)
    (round_frac 53 1074 (Zpos mx * 2 ^ (ex + bias) * (Zpos my * 2 ^ (ey + bias))) unity)
    (SFmul 53 1024 (S754_finite sx mx ex) (S754_finite sy my ey)).
Proof.
  intros Hx Hy.
  destruct (bounded64_inv _ _ Hx) as (Hex & Hdx & Hnx).
  destruct (bounded64_inv _ _ Hy) as (Hey & Hdy & Hny).
  pose proof (Zdigits2_mul_ge (Zpos mx) (Zpos my) ltac:(lia) ltac:(lia)) as Hd.
  unfold SFmul.
  pose proof (binary_round_aux_encodes 53 1024 ltac:(lia) ltac:(lia) ltac:(unfold emin, bias; lia)
                (xorb sx sy) (Zpos mx * Zpos my) 1 (ex + ey)) as H.
  rewrite Z.div_1_r, Z.mod_1_r in H.
  change (loc_frac 0 1) with loc_Exact in H.
  change (Zpos (mx * my)) with (Zpos mx * Zpos my).
  replace (emin 53 1024 + bias) with 1074 in H by reflexivity.
  assert (Heq : Zpos mx * 2 ^ (ex + bias) * (Zpos my * 2 ^ (ey + bias))
                = Zpos mx * Zpos my * 2 ^ (ex + ey + bias) * unity).
  { unfold unity. rewrite <- !Z.mul_assoc. f_equal.
    rewrite (Z.mul_comm (2 ^ (ex + bias))), <- !Z.mul_assoc. f_equal.
    rewrite <- !Z.pow_add_r by (unfold bias; lia). f_equal. lia. }
  rewrite Heq.
  replace unity with (1 * unity) at 2 by lia.
  rewrite round_frac_scale by (unfold unity, bias; lia).
  apply H.
  - lia.
  - unfold bias. lia.
  - unfold fexp, emin. lia.
Qed.

(** *** Normalization of an integer mantissa *)

Lemma Pos_iter_xO m d : Zpos (Pos.iter xO m d) = Zpos m * 2 ^ Zpos d.
Proof.
  induction d as [|d IH] using Pos.peano_ind.
  - simpl. lia.
  - rewrite Pos.iter_succ, Pos2Z.inj_succ, Z.pow_succ_r by lia.
    rewrite Pos2Z.inj_xO, IH. ring.
Qed.

Lemma shl_align_spec m e e' :
  shl_align m e e' =
  if e' <? e then (Z.to_pos (Zpos m * 2 ^ (e - e')), e') else (m, e).
Proof.
  unfold shl_align.
  destruct (Z.ltb_spec e' e) as [Hlt|Hge].
  - destruct (e' - e) as [|d|d] eqn:Hd; try lia.
    f_equal. apply Pos2Z.inj. rewrite Pos_iter_xO.
    replace (e - e') with (Zpos d) by lia.
    assert (0 < 2 ^ Zpos d) by (apply Z.pow_pos_nonneg; lia).
    rewrite Z2Pos.id by nia. reflexivity.
  - destruct (e' - e) as [|d|d] eqn:Hd; try lia; reflexivity.
Qed.

Section Normalize.
Variables prec emax : Z.
Hypothesis Hprec : 0 < prec.
Hypothesis Hemax : 3 <= 2 * emax.
Hypothesis Hbias : 0 <= emin prec emax + bias.

Theorem binary_round_encodes s m e :
  0 <= e + bias ->
  encodes prec emax s
    (round_frac prec (emin prec emax + bias) (Zpos m * 2 ^ (e + bias)) 1)
    (binary_round prec emax s m e).
Proof.
  intros He. unfold binary_round.
  change (Zpos (digits2_pos m)) with (Zdigits2 (Zpos m)).
  set (d := Zdigits2 (Zpos m)).
  set (f := fexp prec emax (d + e)).
  assert (Hf : emin prec emax <= f) by (subst f; unfold fexp; lia).
  rewrite shl_align_spec.
  destruct (Z.ltb_spec f e) as [Hlt|Hge].
  - assert (H2 : 0 < 2 ^ (e - f)) by (apply Z.pow_pos_nonneg; lia).
    set (mz := Zpos m * 2 ^ (e - f)).
    assert (Hmz : 0 < mz) by (subst mz; nia).
    rewrite Z2Pos.id by exact Hmz.
    pose proof (binary_round_aux_encodes prec emax Hprec Hemax Hbias s mz 1 f) as H.
    rewrite Z.div_1_r, Z.mod_1_r in H. change (loc_frac 0 1) with loc_Exact in H.
    replace (mz * 2 ^ (f + bias)) with (Zpos m * 2 ^ (e + bias)) in H.
    2:{ subst mz. rewrite <- Z.mul_assoc, <- Z.pow_add_r by lia. do 2 f_equal. lia. }
    apply H; [lia | lia |].
    subst mz. rewrite Zdigits2_mul_pow2 by lia. fold d.
    replace (d + (e - f) + f) with (d + e) by lia. fold f. lia.
  - pose proof (binary_round_aux_encodes prec emax Hprec Hemax Hbias s (Zpos m) 1 e) as H.
    rewrite Z.div_1_r, Z.mod_1_r in H. change (loc_frac 0 1) with loc_Exact in H.
    apply H; [lia | lia |]. fold d. fold f. lia.
Qed.

(** [binary_normalize] of a signed integer mantissa. *)
Theorem binary_normalize_encodes n e :
  0 <= e + bias -> n <> 0 ->
  encodes prec emax (n <? 0)
    (round_frac prec (emin prec emax + bias) (Z.abs n * 2 ^ (e + bias)) 1)
    (binary_normalize prec emax n e false).
Proof.
  intros He Hn. destruct n as [|m|m]; [lia | |]; simpl binary_normalize.
  - apply binary_round_encodes. exact He.
  - apply binary_round_encodes. exact He.
Qed.
End Normalize.

(** *** Subtraction *)

Lemma shl_align_fst m e e' :
  e' <= e -> Zpos (fst (shl_align m e e')) = Zpos m * 2 ^ (e - e').
Proof.
  intros H. rewrite shl_align_spec.
  destruct (Z.ltb_spec e' e) as [Hlt|Hge]; cbn [fst].
  - assert (0 < 2 ^ (e - e')) by (apply Z.pow_pos_nonneg; lia).
    rewrite Z2Pos.id by (apply Z.mul_pos_pos; lia). reflexivity.
  - replace (e - e') with 0 by lia. simpl. lia.
Qed.

Lemma cond_Zopp_mul s a b : cond_Zopp s a * b = cond_Zopp s (a * b).
Proof. destruct s; simpl; ring. Qed.

Theorem SFsub_encodes sx mx ex sy my ey :
  0 <= ex + bias -> 0 <= ey + bias ->
  let x := S754_finite sx mx ex in
  let y := S754_finite sy my ey in
  let D := F2Z x - F2Z y in
  (D = 0 /\ SFsub 53 1024 x y = S754_zero false)
  \/ (D <> 0 /\
      encodes 53 1024 (D <? 0) (round_frac 53 1074 (Z.abs D) 1) (SFsub 53 1024 x y)).
Proof.
  intros Hex Hey x y D. subst x y. unfold SFsub.
  set (ez := Z.min ex ey).
  rewrite !shl_align_fst by (subst ez; lia).
  set (N := cond_Zopp sx (Zpos mx * 2 ^ (ex - ez)) - cond_Zopp sy (Zpos my * 2 ^ (ey - ez))).
  assert (Hez : 0 <= ez + bias) by (subst ez; lia).
  assert (H2 : 0 < 2 ^ (ez + bias)) by (apply Z.pow_pos_nonneg; lia).
  assert (HD : D = N * 2 ^ (ez + bias)).
  { subst D N. unfold F2Z. rewrite Z.mul_sub_distr_r, !cond_Zopp_mul.
    rewrite <- !Z.mul_assoc, <- !Z.pow_add_r by (subst ez; lia).
    replace (ex - ez + (ez + bias)) with (ex + bias) by lia.
    replace (ey - ez + (ez + bias)) with (ey + bias) by lia. reflexivity. }
  destruct (Z.eq_dec N 0) as [HN|HN].
  - left. rewrite HN in *. split; [lia | reflexivity].
  - right. split; [nia|].
    replace (D <? 0) with (N <? 0).
    2:{ destruct (Z.ltb_spec N 0), (Z.ltb_spec D 0); try reflexivity; nia. }
    replace (Z.abs D) with (Z.abs N * 2 ^ (ez + bias))
      by (rewrite HD, Z.abs_mul, (Z.abs_eq (2 ^ _)); lia).
    apply (binary_normalize_encodes 53 1024); try (unfold emin, bias; lia); assumption.
Qed.

(** *** Rounding to binary32 *)

Lemma representable_32_64 r : representable 24 1999 r -> representable 53 1074 r.
Proof.
  intros [H0 Hm]. split; [exact H0|].
  apply (mod_pow2_le r _ (ulp_exp 24 1999 r)); [|exact Hm].
  unfold ulp_exp. pose proof (Zdigits2_nonneg r). lia.
Qed.

Theorem fround_spec s m e :
  0 <= e + bias ->
  let r := round_frac 24 1999 (Zpos m * 2 ^ (e + bias)) 1 in
  let y := fround (S754_finite s m e) in
  (r < 2 ^ (128 + bias) ->
     valid64 y /\ is_finite y = true /\ F2Z y = cond_Zopp s r /\ sign_of y = s
     /\ representable 24 1999 r)
  /\ (2 ^ (128 + bias) <= r -> y = S754_infinity s).
Proof.
  intros He r y. subst y. unfold fround.
  pose proof (binary_round_encodes 24 128 ltac:(lia) ltac:(lia) ltac:(unfold emin, bias; lia)
                s m e He) as H32.
  replace (emin 24 128 + bias) with 1999 in H32 by reflexivity. fold r in H32.
  destruct H32 as [[Hr ->] | [[Hr (m' & e' & -> & Hb & Hv)] | [Hr ->]]].
  - split; [|intros Hge; rewrite Hr in Hge; exfalso; revert Hge; apply Z.lt_nge;
             apply Z.pow_pos_nonneg; unfold bias; lia].
    intros _. rewrite Hr. split; [reflexivity|]. split; [reflexivity|].
    split; [destruct s; reflexivity|]. split; [reflexivity|].
    split; [lia|]. apply Z.mod_0_l. apply Z.pow_nonzero; [lia|]. unfold ulp_exp. simpl. lia.
  - split; [|lia]. intros _.
    destruct (bounded32_inv _ _ Hb) as (He' & Hd' & _).
    assert (Hcan : canonical_mantissa 24 128 m' e' = true)
      by (unfold bounded in Hb; apply andb_prop in Hb; tauto).
    pose proof (canonical_representable 24 128 m' e' ltac:(lia) ltac:(unfold emin, bias; lia) Hcan)
      as Hrep.
    replace (emin 24 128 + bias) with 1999 in Hrep by reflexivity. rewrite Hv in Hrep.
    pose proof (binary_round_encodes 53 1024 ltac:(lia) ltac:(lia) ltac:(unfold emin, bias; lia)
                  s m' e' ltac:(unfold bias; lia)) as H64.
    replace (emin 53 1024 + bias) with 1074 in H64 by reflexivity.
    rewrite Hv, (round_frac_exact 53 1074 ltac:(lia) r (representable_32_64 r Hrep)) in H64.
    assert (Hlt : 0 <= r < 2 ^ (1024 + bias)).
    { split; [lia|]. apply Z.lt_trans with (2 ^ (128 + bias)); [lia|].
      apply Z.pow_lt_mono_r; unfold bias; lia. }
    destruct (encodes_finite 53 1024 s r _ H64 Hlt) as (Hvalid & Hfin & HF & Hs).
    split; [exact Hvalid|]. split; [exact Hfin|]. split; [exact HF|].
    split; [exact Hs | exact Hrep].
  - split; [lia | reflexivity].
Qed.

(** *** Comparison *)

Lemma canonical64_exp_lt m1 e1 m2 e2 :
  bounded 53 1024 m1 e1 = true -> bounded 53 1024 m2 e2 = true ->
  e1 < e2 ->
  Zpos m1 * 2 ^ (e1 + bias) < Zpos m2 * 2 ^ (e2 + bias).
Proof.
  intros H1 H2 Hlt.
  destruct (bounded64_inv _ _ H1) as (He1 & Hd1 & Hn1).
  destruct (bounded64_inv _ _ H2) as (He2 & Hd2 & Hn2).
  pose proof (Zdigits2_bounds (Zpos m1) ltac:(lia)) as [_ Hhi].
  pose proof (Zdigits2_bounds (Zpos m2) ltac:(lia)) as [Hlo _].
  set (d1 := Zdigits2 (Zpos m1)) in *. set (d2 := Zdigits2 (Zpos m2)) in *.
  assert (Hd : d1 + e1 <= d2 - 1 + e2) by lia.
  assert (H2e1 : 0 < 2 ^ (e1 + bias)) by (apply Z.pow_pos_nonneg; unfold bias; lia).
  assert (H2e2 : 0 < 2 ^ (e2 + bias)) by (apply Z.pow_pos_nonneg; unfold bias; lia).
  assert (Hpow : 2 ^ d1 * 2 ^ (e1 + bias) <= 2 ^ (d2 - 1) * 2 ^ (e2 + bias)).
  { rewrite <- !Z.pow_add_r by (unfold bias; lia).
    apply Z.pow_le_mono_r; unfold bias; lia. }
  nia.
Qed.

Lemma compare_scaled m1 m2 k :
  0 < k -> (Zpos m1 * k ?= Zpos m2 * k) = Pos.compare_cont Eq m1 m2.
Proof.
  intros Hk. change (Pos.compare_cont Eq m1 m2) with (Zpos m1 ?= Zpos m2).
  destruct (Z.compare_spec (Zpos m1) (Zpos m2)) as [H|H|H].
  - rewrite H. apply Z.compare_refl.
  - apply Z.compare_lt_iff. nia.
  - apply Z.compare_gt_iff. nia.
Qed.

Theorem SFcompare_F2Z x y :
  finite64 x -> finite64 y ->
  SFcompare x y = Some (F2Z x ?= F2Z y).
Proof.
  intros [Hvx Hfx] [Hvy Hfy].
  destruct x as [sx|sx| |sx mx ex]; try discriminate Hfx;
  destruct y as [sy|sy| |sy my ey]; try discriminate Hfy;
  unfold valid64 in *; simpl in Hvx, Hvy.
  - reflexivity.
  - destruct (bounded64_inv _ _ Hvy) as (Hey & _).
    assert (0 < Zpos my * 2 ^ (ey + bias))
      by (apply Z.mul_pos_pos; [lia | apply Z.pow_pos_nonneg; unfold bias; lia]).
    unfold SFcompare, F2Z. f_equal. symmetry.
    destruct sy; cbn [cond_Zopp];
      [apply Z.compare_gt_iff | apply Z.compare_lt_iff]; lia.
  - destruct (bounded64_inv _ _ Hvx) as (Hex & _).
    assert (0 < Zpos mx * 2 ^ (ex + bias))
      by (apply Z.mul_pos_pos; [lia | apply Z.pow_pos_nonneg; unfold bias; lia]).
    unfold SFcompare, F2Z. f_equal. symmetry.
    destruct sx; cbn [cond_Zopp];
      [apply Z.compare_lt_iff | apply Z.compare_gt_iff]; lia.
  - destruct (bounded64_inv _ _ Hvx) as (Hex & _).
    destruct (bounded64_inv _ _ Hvy) as (Hey & _).
    assert (Hpx : 0 < Zpos mx * 2 ^ (ex + bias))
      by (apply Z.mul_pos_pos; [lia | apply Z.pow_pos_nonneg; unfold bias; lia]).
    assert (Hpy : 0 < Zpos my * 2 ^ (ey + bias))
      by (apply Z.mul_pos_pos; [lia | apply Z.pow_pos_nonneg; unfold bias; lia]).
    unfold SFcompare, F2Z. f_equal.
    destruct sx, sy; cbn [cond_Zopp].
    + (* both negative *)
      rewrite Z.compare_opp.
      destruct (Z.compare_spec ex ey) as [Heq|Hlt|Hgt].
      * subst ey. rewrite compare_scaled by (apply Z.pow_pos_nonneg; unfold bias; lia).
        change (CompOpp (mx ?= my)%positive = (my ?= mx)%positive).
        symmetry. apply Pos.compare_antisym.
      * symmetry. apply Z.compare_gt_iff. now apply canonical64_exp_lt.
      * symmetry. apply Z.compare_lt_iff. now apply canonical64_exp_lt.
    + symmetry. apply Z.compare_lt_iff. lia.
    + symmetry. apply Z.compare_gt_iff. lia.
    + destruct (Z.compare_spec ex ey) as [Heq|Hlt|Hgt].
      * subst ey. rewrite compare_scaled by (apply Z.pow_pos_nonneg; unfold bias; lia).
        reflexivity.
      * symmetry. apply Z.compare_lt_iff. now apply canonical64_exp_lt.
      * symmetry. apply Z.compare_gt_iff. now apply canonical64_exp_lt.
Qed.

Lemma SFltb_F2Z x y :
  finite64 x -> finite64 y -> SFltb x y = (F2Z x <? F2Z y).
Proof.
  intros Hx Hy. unfold SFltb, Z.ltb. rewrite (SFcompare_F2Z x y Hx Hy).
  destruct (F2Z x ?= F2Z y); reflexivity.
Qed.

Lemma SFleb_F2Z x y :
  finite64 x -> finite64 y -> SFleb x y = (F2Z x <=? F2Z y).
Proof.
  intros Hx Hy. unfold SFleb, Z.leb. rewrite (SFcompare_F2Z x y Hx Hy).
  destruct (F2Z x ?= F2Z y); reflexivity.
Qed.

(** ** Division, and rounding near a representable number *)

Lemma new_location_frac b r :
  0 < b -> 0 <= r < b -> new_location b r = loc_frac r b.
Proof.
  intros Hb Hr. unfold new_location, loc_frac.
  destruct (Z.even b) eqn:Heven.
  - unfold new_location_even. reflexivity.
  - unfold new_location_odd. destruct (r =? 0); [reflexivity|]. f_equal.
    assert (Hodd : Z.odd b = true) by (rewrite <- Z.negb_even, Heven; reflexivity).
    apply Z.odd_spec in Hodd. destruct Hodd as [k Hk].
    destruct (Z.compare_spec (2 * r + 1) b); destruct (Z.compare_spec (2 * r) b);
      try reflexivity; lia.
Qed.

(** Division of finite numbers whose quotient is at least the least
    positive number: the quotient rounded once. *)
Theorem SFdiv_encodes sx mx ex sy my ey :
  bounded 53 1024 mx ex = true -> bounded 53 1024 my ey = true ->
  Zpos my * 2 ^ (ey + bias) * 2 ^ 1074 <= Zpos mx * 2 ^ (ex + bias) * unity ->
  encodes 53 1024 (xorb sx sy)
    (round_frac 53 1074 (Zpos mx * 2 ^ (ex + bias) * unity) (Zpos my * 2 ^ (ey + bias)))
    (SFdiv 53 1024 (S754_finite sx mx ex) (S754_finite sy my ey)).
Proof.
  intros Hbx Hby Hq.
  destruct (bounded64_inv _ _ Hbx) as (Hex & Hdx & _).
  destruct (bounded64_inv _ _ Hby) as (Hey & Hdy & _).
  unfold SFdiv, SFdiv_core_binary.
  set (d1 := Zdigits2 (Zpos mx)) in *. set (d2 := Zdigits2 (Zpos my)) in *.
  set (e' := Z.min (fexp 53 1024 (d1 + ex - (d2 + ey))) (ex - ey)).
  set (s := ex - ey - e').
  assert (Hs : 0 <= s) by (subst s e'; lia).
  assert (He' : -2045 <= e') by (subst e'; unfold fexp, emin; lia).
  set (m' := match s with Z.pos _ => Z.shiftl (Z.pos mx) s | 0 => Z.pos mx | Z.neg _ => 0 end).
  assert (Hm' : m' = Zpos mx * 2 ^ s).
  { subst m'. destruct s as [|p|p]; [simpl; lia | | lia].
    apply Z.shiftl_mul_pow2. lia. }
  assert (H2s : 0 < 2 ^ s) by (apply Z.pow_pos_nonneg; lia).
  assert (Hm'pos : 0 < m') by (rewrite Hm'; lia).
  change (Z.div_eucl m' (Z.pos my)) with (Z.div_eucl m' (Z.pos my)).
  pose proof (Z.mod_pos_bound m' (Zpos my) ltac:(lia)) as Hr.
  assert (Hde : Z.div_eucl m' (Z.pos my) = (m' / Zpos my, m' mod Zpos my)).
  { unfold Z.div, Z.modulo. destruct (Z.div_eucl m' (Z.pos my)). reflexivity. }
  rewrite Hde, new_location_frac by lia.
  (* the quotient has enough digits, and is at least one *)
  assert (H2ey : 0 < 2 ^ (ey + bias)) by (apply Z.pow_pos_nonneg; unfold bias; lia).
  assert (H2ex : 0 < 2 ^ (ex + bias)) by (apply Z.pow_pos_nonneg; unfold bias; lia).
  assert (H2e' : 0 < 2 ^ (e' + bias)) by (apply Z.pow_pos_nonneg; unfold bias; lia).
  assert (Hexp : 2 ^ (ex + bias) * unity = 2 ^ s * 2 ^ (e' + bias) * 2 ^ (ey + bias)).
  { unfold unity. rewrite <- !Z.pow_add_r by (unfold bias; lia).
    f_equal. subst s. lia. }
  assert (Hval : Zpos mx * 2 ^ (ex + bias) * unity
                 = m' * 2 ^ (e' + bias) * 2 ^ (ey + bias)).
  { rewrite Hm'. rewrite <- Z.mul_assoc, Hexp. ring. }
  assert (Hge : Zpos my <= m').
  { (* the quotient is at least [2^emin] *)
    destruct (Z.le_gt_cases (Zpos my) m') as [H|H]; [exact H | exfalso].
    pose proof (Zdigits2_bounds (Zpos mx) ltac:(lia)) as [Hlo1 Hhi1].
    pose proof (Zdigits2_bounds (Zpos my) ltac:(lia)) as [Hlo2 Hhi2].
    fold d1 in Hlo1, Hhi1. fold d2 in Hlo2, Hhi2.
    rewrite Hval in Hq.
    assert (Hcmp : Zpos my * 2 ^ 1074 <= m' * 2 ^ (e' + bias)).
    { apply Z.mul_le_mono_pos_r with (p := 2 ^ (ey + bias)); [exact H2ey|]. lia. }
    destruct (Z.le_gt_cases (e' + bias) 1074) as [Hsmall|Hbig].
    - assert (2 ^ (e' + bias) <= 2 ^ 1074) by (apply Z.pow_le_mono_r; lia).
      assert (0 < 2 ^ 1074) by (apply Z.pow_pos_nonneg; lia).
      nia.
    - (* [e'] is above [emin], so it leaves [prec] digits to the quotient *)
      assert (Hfe : e' = d1 + ex - (d2 + ey) - 53 \/ e' = ex - ey).
      { subst e'. unfold fexp, emin in *. unfold bias in Hbig. lia. }
      destruct Hfe as [Hfe|Hfe].
      + assert (Hsd : s = 53 - d1 + d2) by (subst s; lia).
        assert (2 ^ (d1 - 1) * 2 ^ s <= m') by (rewrite Hm'; nia).
        assert (Hpw : 2 ^ (d1 - 1) * 2 ^ s = 2 ^ d2 * 2 ^ 52).
        { rewrite <- !Z.pow_add_r by lia. f_equal. lia. }
        assert (0 < 2 ^ 52) by (apply Z.pow_pos_nonneg; lia).
        nia.
      + subst e'. unfold fexp, emin in *. unfold bias in Hbig. lia. }
  pose proof (binary_round_aux_encodes 53 1024 ltac:(lia) ltac:(lia)
                ltac:(unfold emin, bias; lia) (xorb sx sy) m' (Zpos my) e'
                ltac:(lia) ltac:(unfold bias; lia)) as Henc.
  assert (Hdig : 0 <= fexp 53 1024 (Zdigits2 (m' / Z.pos my) + e') - e').
  { assert (d1 + s - d2 <= Zdigits2 (m' / Zpos my)).
    { pose proof (Zdigits2_bounds (Zpos mx) ltac:(lia)) as [Hlo1 _].
      pose proof (Zdigits2_bounds (Zpos my) ltac:(lia)) as [_ Hhi2].
      fold d1 in Hlo1. fold d2 in Hhi2.
      destruct (Z.le_gt_cases (d1 + s - d2) 0) as [Hle|Hgt].
      - pose proof (Zdigits2_nonneg (m' / Zpos my)). lia.
      - assert (2 ^ (d1 + s - d2 - 1) <= m' / Zpos my).
        { apply Z.div_le_lower_bound; [lia|].
          assert (2 ^ (d1 - 1) * 2 ^ s <= m') by (rewrite Hm'; nia).
          assert (Hpw : 2 ^ (d1 - 1) * 2 ^ s = 2 ^ d2 * 2 ^ (d1 + s - d2 - 1)).
          { rewrite <- !Z.pow_add_r by lia. f_equal. lia. }
          assert (0 < 2 ^ (d1 + s - d2 - 1)) by (apply Z.pow_pos_nonneg; lia).
          nia. }
        pose proof (Zdigits2_ge_pow (m' / Zpos my) (d1 + s - d2 - 1) ltac:(lia) ltac:(lia)).
        lia. }
    subst e' s. unfold fexp, emin in *. lia. }
  specialize (Henc Hdig).
  replace (round_frac 53 1074 (Z.pos mx * 2 ^ (ex + bias) * unity) (Z.pos my * 2 ^ (ey + bias)))
    with (round_frac 53 (emin 53 1024 + bias) (m' * 2 ^ (e' + bias)) (Z.pos my)).
  - exact Henc.
  - rewrite Hval. change (emin 53 1024 + bias) with 1074.
    symmetry. apply round_frac_scale; lia.
Qed.

(** A number just below a representable one rounds to it. *)
Lemma round_near_below p g x y :
  0 < p -> 0 <= g ->
  representable p g x -> 0 <= y <= x -> 4 * (x - y) < 2 ^ ulp_exp p g x ->
  round_frac p g y 1 = x.
Proof.
  intros Hp Hg [Hx0 Hmod] [Hy0 Hyx] Hd.
  set (kx := ulp_exp p g x) in *.
  assert (Hkx : 0 <= kx) by (apply ulp_exp_nonneg; exact Hg).
  assert (H2kx : 0 < 2 ^ kx) by (apply Z.pow_pos_nonneg; lia).
  unfold round_frac. rewrite Z.div_1_r, Z.mul_1_l.
  set (k := ulp_exp p g y).
  assert (Hk0 : 0 <= k) by (apply ulp_exp_nonneg; exact Hg).
  assert (H2k : 0 < 2 ^ k) by (apply Z.pow_pos_nonneg; lia).
  assert (Hkle : k <= kx) by (apply ulp_exp_le; lia).
  destruct (Z.eq_dec x 0) as [->|Hxn].
  { assert (y = 0) by lia. subst y.
    unfold rne. rewrite Z.mod_0_l, Z.div_0_l by lia.
    replace (2 * 0 ?= 2 ^ k) with Lt by (symmetry; apply Z.compare_lt_iff; lia).
    reflexivity. }
  assert (Hxge : 2 ^ kx <= x).
  { pose proof (Z.div_mod x (2 ^ kx) ltac:(lia)) as Hdm. rewrite Hmod in Hdm.
    assert (0 < x / 2 ^ kx) by nia. nia. }
  assert (Hkge : kx - 1 <= k).
  { subst k kx. unfold ulp_exp.
    assert (Zdigits2 x <= Zdigits2 y + 1).
    { replace (Zdigits2 y + 1) with (Zdigits2 (y * 2 ^ 1))
        by (apply Zdigits2_mul_pow2; lia).
      apply Zdigits2_le. unfold ulp_exp in *. lia. }
    lia. }
  assert (Hmodk : x mod 2 ^ k = 0) by (apply mod_pow2_le with (k := kx); [lia | exact Hmod]).
  pose proof (Z.div_mod x (2 ^ k) ltac:(lia)) as Hdm. rewrite Hmodk, Z.add_0_r in Hdm.
  set (n := x / 2 ^ k) in *.
  assert (H2d : 2 * (x - y) < 2 ^ k).
  { assert (2 ^ kx <= 2 * 2 ^ k).
    { replace (2 * 2 ^ k) with (2 ^ (k + 1)) by (rewrite Z.pow_add_r by lia; lia).
      apply Z.pow_le_mono_r; lia. }
    lia. }
  destruct (Z.eq_dec y x) as [->|Hne].
  - rewrite Hdm at 1. rewrite (Z.mul_comm (2 ^ k) n), rne_mul by lia. lia.
  - assert (Hq : y / 2 ^ k = n - 1).
    { symmetry. apply Z.div_unique with (r := y - (n - 1) * 2 ^ k); nia. }
    assert (Hr : y mod 2 ^ k = y - (n - 1) * 2 ^ k).
    { symmetry. apply Z.mod_unique with (q := n - 1); nia. }
    unfold rne. rewrite Hq, Hr.
    replace (2 * (y - (n - 1) * 2 ^ k) ?= 2 ^ k) with Gt
      by (symmetry; apply Z.compare_gt_iff; nia).
    nia.
Qed.

(** A finite number is determined by its value and its sign. *)
Lemma finite64_eq x y :
  finite64 x -> finite64 y -> F2Z x = F2Z y -> sign_of x = sign_of y -> x = y.
Proof.
  intros [Hvx Hfx] [Hvy Hfy] HF Hs.
  assert (Hpos : forall m e, bounded 53 1024 m e = true -> 0 < Zpos m * 2 ^ (e + bias)).
  { intros m e Hb. destruct (bounded64_inv _ _ Hb) as (He & _).
    apply Z.mul_pos_pos; [lia|]. apply Z.pow_pos_nonneg; unfold bias; lia. }
  destruct x as [sx|sx| |sx mx ex]; try discriminate Hfx;
  destruct y as [sy|sy| |sy my ey]; try discriminate Hfy; cbn [sign_of] in Hs; subst sy.
  - reflexivity.
  - exfalso. pose proof (Hpos _ _ Hvy). unfold F2Z in HF.
    destruct sx; cbn [cond_Zopp] in HF; lia.
  - exfalso. pose proof (Hpos _ _ Hvx). unfold F2Z in HF.
    destruct sx; cbn [cond_Zopp] in HF; lia.
  - pose proof (Hpos _ _ Hvx) as Hpx. pose proof (Hpos _ _ Hvy) as Hpy.
    assert (Hv : Zpos mx * 2 ^ (ex + bias) = Zpos my * 2 ^ (ey + bias)).
    { unfold F2Z in HF. destruct sx; cbn [cond_Zopp] in HF; lia. }
    destruct (bounded64_inv _ _ Hvx) as (Hex & _).
    destruct (bounded64_inv _ _ Hvy) as (Hey & _).
    assert (Hcx : canonical_mantissa 53 1024 mx ex = true).
    { unfold valid_binary, bounded in Hvx. apply andb_prop in Hvx. apply Hvx. }
    assert (Hcy : canonical_mantissa 53 1024 my ey = true).
    { unfold valid_binary, bounded in Hvy. apply andb_prop in Hvy. apply Hvy. }
    unfold canonical_mantissa in Hcx, Hcy.
    apply Z.eqb_eq in Hcx. apply Z.eqb_eq in Hcy.
    change (Zpos (digits2_pos mx)) with (Zdigits2 (Zpos mx)) in Hcx.
    change (Zpos (digits2_pos my)) with (Zdigits2 (Zpos my)) in Hcy.
    assert (Hd : Zdigits2 (Zpos mx) + ex = Zdigits2 (Zpos my) + ey).
    { pose proof (Zdigits2_mul_pow2 (Zpos mx) (ex + bias) ltac:(lia) ltac:(unfold bias; lia)).
      pose proof (Zdigits2_mul_pow2 (Zpos my) (ey + bias) ltac:(lia) ltac:(unfold bias; lia)).
      rewrite Hv in *. lia. }
    assert (He : ex = ey) by (rewrite <- Hcx, <- Hcy, Hd; reflexivity).
    subst ey.
    assert (H2 : 0 < 2 ^ (ex + bias)) by (apply Z.pow_pos_nonneg; unfold bias; lia).
    assert (Zpos mx = Zpos my) by nia.
    congruence.
Qed.

(** ** Filters as recurrences over the draws; the chunk loop *)

Lemma bind_normal {A B} (m : M A) (f : A -> M B) w a w' :
  m w = (Normal a, w') -> (m ≫= f) w = f a w'.
Proof. intros H. unfold mbind, M_bind. now rewrite H. Qed.

Lemma bind_throw {A B} (m : M A) (f : A -> M B) w e w' :
  m w = (Throw e, w') -> (m ≫= f) w = (Throw e, w').
Proof. intros H. unfold mbind, M_bind. now rewrite H. Qed.

Lemma scan_app {S} (step : S -> float -> float * S) s rs1 rs2 :
  scan step s (rs1 ++ rs2) =
  let '(o1, s1) := scan step s rs1 in
  let '(o2, s2) := scan step s1 rs2 in
  (o1 ++ o2, s2).
Proof.
  revert s. induction rs1 as [|r rs1 IH]; intros s; simpl.
  - now destruct (scan step s rs2).
  - destruct (step s r) as [o s']. rewrite IH.
    destruct (scan step s' rs1) as [o1 s1].
    now destruct (scan step s1 rs2).
Qed.

Lemma scan_length {S} (step : S -> float -> float * S) s rs :
  length (fst (scan step s rs)) = length rs.
Proof.
  revert s. induction rs as [|r rs IH]; intros s; simpl; [easy|].
  destruct (step s r) as [o s']. specialize (IH s').
  destruct (scan step s' rs). simpl in *. now rewrite IH.
Qed.

Lemma draws_length w n : length (draws w n) = n.
Proof. unfold draws. now rewrite length_map, length_seq. Qed.

Lemma advance_advance n m w : advance n (advance m w) = advance (m + n) w.
Proof. unfold advance; simpl. f_equal. lia. Qed.

Lemma advance_0 w : advance 0 w = w.
Proof. now destruct w. Qed.

Lemma draws_S w n : draws w (S n) = random w (drawn w) :: draws (advance 1 w) n.
Proof.
  unfold draws. simpl. f_equal. rewrite <- seq_shift, map_map.
  apply map_ext. intros i. f_equal. lia.
Qed.

Lemma draws_add w n m : draws w (n + m) = draws w n ++ draws (advance n w) m.
Proof.
  revert w. induction n as [|n IH]; intros w.
  - now rewrite advance_0.
  - simpl Nat.add. rewrite !draws_S, IH, advance_advance. reflexivity.
Qed.

Lemma insert_take_drop_mid {A} (l : list A) i x :
  (i < length l)%nat -> <[i := x]> l = take i l ++ x :: drop (S i) l.
Proof. intros H. now apply insert_take_drop. Qed.

(** A loop that draws once per index and stores one value at that index
    computes the [scan] of its recurrence over the draws. *)
Lemma for_fill {S} (body : nat -> list float * S -> M (list float * S))
    (step : S -> float -> float * S) :
  (forall i samples s w, (i < length samples)%nat ->
     body i (samples, s) w =
     (Normal (<[i := fst (step s (random w (drawn w)))]> samples,
              snd (step s (random w (drawn w)))), advance 1 w)) ->
  forall n i0 samples s w, (i0 + n <= length samples)%nat ->
    for_ i0 n body (samples, s) w =
    (Normal (take i0 samples ++ fst (scan step s (draws w n)) ++ drop (i0 + n) samples,
             snd (scan step s (draws w n))), advance n w).
Proof.
  intros Hbody. induction n as [|n IH]; intros i0 samples s w Hlen.
  - simpl. rewrite Nat.add_0_r, take_drop, advance_0. reflexivity.
  - simpl for_. erewrite bind_normal by (apply Hbody; lia).
    rewrite IH by (rewrite length_insert; lia).
    rewrite draws_S. simpl scan.
    destruct (step s (random w (drawn w))) as [out s'] eqn:Hs. simpl fst; simpl snd.
    destruct (scan step s' (draws (advance 1 w) n)) as [outs s''] eqn:Hsc.
    simpl fst; simpl snd. rewrite advance_advance.
    f_equal. f_equal.
    rewrite insert_take_drop_mid by lia.
    assert (Hl : length (take i0 samples ++ [out]) = Datatypes.S i0)
      by (rewrite length_app, length_take; simpl; lia).
    replace (take i0 samples ++ out :: drop (Datatypes.S i0) samples)
      with ((take i0 samples ++ [out]) ++ drop (Datatypes.S i0) samples)
      by (now rewrite <- app_assoc).
    rewrite (take_app_length' (take i0 samples ++ [out]) _ (Datatypes.S i0)) by now rewrite Hl.
    replace (Datatypes.S i0 + n)%nat with (length (take i0 samples ++ [out]) + n)%nat
      by (rewrite Hl; lia).
    rewrite drop_app_add, drop_drop.
    rewrite <- !app_assoc. simpl.
    now rewrite Nat.add_succ_r.
Qed.

Lemma new_Float32Array_okZ (n : Z) w :
  0 <= n <= MAX_LENGTH ->
  new_Float32Array n w =
  (Normal (replicate (Z.to_nat n) (S754_zero false)), after [Float32Buffer n] 0 w).
Proof.
  intros H. unfold new_Float32Array, MAX_LENGTH in *.
  destruct (Z.ltb_spec n 0); [lia|].
  destruct (Z.ltb_spec 9007199254740991 n); [lia|].
  reflexivity.
Qed.

Lemma new_Float32Array_ok (n : nat) w :
  Z.of_nat n <= MAX_LENGTH ->
  new_Float32Array (Z.of_nat n) w =
  (Normal (replicate n (S754_zero false)), after [Float32Buffer (Z.of_nat n)] 0 w).
Proof.
  intros H. unfold new_Float32Array, MAX_LENGTH in *.
  destruct (Z.ltb_spec (Z.of_nat n) 0); [lia|].
  destruct (Z.ltb_spec 9007199254740991 (Z.of_nat n)); [lia|].
  simpl. unfold mbind, M_bind, allocate, mret, M_ret. now rewrite Nat2Z.id.
Qed.

Lemma load_store samples i x :
  (i < length samples)%nat -> load (store samples i x) i = fround x.
Proof.
  intros H. unfold load, store. now rewrite list_lookup_insert_eq.
Qed.

Lemma store_store samples i x y :
  store (store samples i x) i y = store samples i y.
Proof. unfold store. apply list_insert_insert_eq. Qed.

Lemma fill_whole {S} (step : S -> float -> float * S) s w n :
  take 0 (replicate n (S754_zero false)) ++
    fst (scan step s (draws w n)) ++ drop (0 + n) (replicate n (S754_zero false))
  = fst (scan step s (draws w n)).
Proof.
  simpl. rewrite drop_ge by (rewrite length_replicate; lia). apply app_nil_r.
Qed.

Lemma after_after b1 n1 b2 n2 w :
  after b2 n2 (after b1 n1 w) = after (b2 ++ b1) (n1 + n2) w.
Proof. unfold after; simpl. f_equal; [lia | now rewrite app_assoc]. Qed.

Lemma advance_after n w : advance n w = after [] n w.
Proof. reflexivity. Qed.

Lemma generateBrownNoise_scan length state w :
  Z.of_nat length <= MAX_LENGTH ->
  generateBrownNoise length state w =
  (Normal (fst (scan brownKernel (field state "lastSample") (draws w length)),
           <["lastSample" := snd (scan brownKernel (field state "lastSample") (draws w length))]> ∅),
   after [Float32Buffer (Z.of_nat length)] length w).
Proof.
  intros Hmax. unfold generateBrownNoise.
  erewrite bind_normal by (now apply new_Float32Array_ok).
  erewrite bind_normal.
  2:{ apply (for_fill _ brownKernel).
      - intros i samples s w0 Hi. reflexivity.
      - rewrite length_replicate. lia. }
  rewrite fill_whole. unfold mret, M_ret.
  rewrite advance_after, after_after. simpl.
  reflexivity.
Qed.

Ltac filter_scan kernel body_tac :=
  intros Hmax;
  erewrite bind_normal by (now apply new_Float32Array_ok);
  erewrite bind_normal
    by (apply (for_fill _ kernel); [ body_tac | rewrite length_replicate; lia ]);
  rewrite fill_whole; unfold mret, M_ret;
  rewrite advance_after, after_after.

Lemma generateBlueNoise_scan length state w :
  Z.of_nat length <= MAX_LENGTH ->
  generateBlueNoise length state w =
  (Normal (fst (scan blueKernel (field state "lastSample") (draws w length)),
           <["lastSample" := snd (scan blueKernel (field state "lastSample") (draws w length))]> ∅),
   after [Float32Buffer (Z.of_nat length)] length w).
Proof.
  unfold generateBlueNoise.
  filter_scan blueKernel ltac:(intros i samples s w0 Hi; reflexivity).
  reflexivity.
Qed.

Lemma generateVioletNoise_scan length state w :
  Z.of_nat length <= MAX_LENGTH ->
  let r := scan violetKernel (field state "lastSample", field state "lastLastSample")
                (draws w length) in
  generateVioletNoise length state w =
  (Normal (fst r,
           <["lastSample" := fst (snd r)]> (<["lastLastSample" := snd (snd r)]> ∅)),
   after [Float32Buffer (Z.of_nat length)] length w).
Proof.
  unfold generateVioletNoise.
  filter_scan violetKernel ltac:(intros i samples [a b] w0 Hi; reflexivity).
  cbv zeta.
  destruct (scan violetKernel _ _) as [outs [a b]]. reflexivity.
Qed.

Lemma generateOrangeNoise_scan length state w :
  Z.of_nat length <= MAX_LENGTH ->
  let r := scan orangeKernel (field state "lastSample", field state "filterState")
                (draws w length) in
  generateOrangeNoise length state w =
  (Normal (fst r,
           <["lastSample" := fst (snd r)]> (<["filterState" := snd (snd r)]> ∅)),
   after [Float32Buffer (Z.of_nat length)] length w).
Proof.
  unfold generateOrangeNoise.
  filter_scan orangeKernel ltac:(intros i samples [a b] w0 Hi; reflexivity).
  cbv zeta.
  destruct (scan orangeKernel _ _) as [outs [a b]]. reflexivity.
Qed.

Lemma pinkStep_kernel b r samples i :
  (i < length samples)%nat ->
  pinkStep b (whiteSample r) samples i =
  (<[i := fst (pinkKernel b r)]> samples, snd (pinkKernel b r)).
Proof.
  intros Hi. destruct b as [[[[[[b0 b1] b2] b3] b4] b5] b6].
  unfold pinkKernel, pinkStep. cbv zeta.
  rewrite !load_store by (simpl; lia). rewrite !store_store.
  simpl fst. simpl snd. unfold load, store. simpl. reflexivity.
Qed.

Lemma generatePinkNoise_scan length state w :
  Z.of_nat length <= MAX_LENGTH ->
  let r := scan pinkKernel (pinkInit state) (draws w length) in
  generatePinkNoise length state w =
  (Normal (fst r, pinkPack (snd r)),
   after [Float32Buffer (Z.of_nat length)] length w).
Proof.
  unfold generatePinkNoise.
  filter_scan pinkKernel ltac:(intros i samples s w0 Hi; unfold mbind, M_bind, Math_random;
                               simpl; rewrite pinkStep_kernel by exact Hi; reflexivity).
  cbv zeta. fold (pinkInit state).
  destruct (scan pinkKernel _ _) as [outs [[[[[[b0 b1] b2] b3] b4] b5] b6]]. reflexivity.
Qed.

(** The same for a loop without loop-carried variables. *)
Lemma for_fill_map (body : nat -> list float -> M (list float)) (f : float -> float) :
  (forall i samples w, (i < length samples)%nat ->
     body i samples w =
     (Normal (<[i := f (random w (drawn w))]> samples), advance 1 w)) ->
  forall n i0 samples w, (i0 + n <= length samples)%nat ->
    for_ i0 n body samples w =
    (Normal (take i0 samples ++ map f (draws w n) ++ drop (i0 + n) samples),
     advance n w).
Proof.
  intros Hbody. induction n as [|n IH]; intros i0 samples w Hlen.
  - simpl. rewrite Nat.add_0_r, take_drop, advance_0. reflexivity.
  - simpl for_. erewrite bind_normal by (apply Hbody; lia).
    rewrite IH by (rewrite length_insert; lia).
    rewrite draws_S. simpl map. rewrite advance_advance.
    f_equal. f_equal.
    rewrite insert_take_drop_mid by lia.
    set (out := f (random w (drawn w))).
    assert (Hl : length (take i0 samples ++ [out]) = Datatypes.S i0)
      by (rewrite length_app, length_take; simpl; lia).
    replace (take i0 samples ++ out :: drop (Datatypes.S i0) samples)
      with ((take i0 samples ++ [out]) ++ drop (Datatypes.S i0) samples)
      by (now rewrite <- app_assoc).
    rewrite (take_app_length' (take i0 samples ++ [out]) _ (Datatypes.S i0)) by now rewrite Hl.
    replace (Datatypes.S i0 + n)%nat with (length (take i0 samples ++ [out]) + n)%nat
      by (rewrite Hl; lia).
    rewrite drop_app_add, drop_drop.
    rewrite <- !app_assoc. simpl.
    now rewrite Nat.add_succ_r.
Qed.

Lemma fill_whole_map (f : float -> float) w n :
  take 0 (replicate n (S754_zero false)) ++
    map f (draws w n) ++ drop (0 + n) (replicate n (S754_zero false))
  = map f (draws w n).
Proof.
  simpl. rewrite drop_ge by (rewrite length_replicate; lia). apply app_nil_r.
Qed.

Lemma generateWhiteNoise_map length w :
  Z.of_nat length <= MAX_LENGTH ->
  generateWhiteNoise length w =
  (Normal (map (fun r => fround (whiteSample r)) (draws w length)),
   after [Float32Buffer (Z.of_nat length)] length w).
Proof.
  intros Hmax. unfold generateWhiteNoise.
  erewrite bind_normal by (now apply new_Float32Array_ok).
  rewrite (for_fill_map _ (fun r => fround (whiteSample r)));
    [ | intros i samples w0 Hi; reflexivity | rewrite length_replicate; lia ].
  rewrite fill_whole_map, advance_after, after_after. reflexivity.
Qed.

Lemma scan_stateless (f : float -> float) rs :
  scan (fun (s : unit) r => (f r, s)) tt rs = (map f rs, tt).
Proof. induction rs as [|r rs IH]; simpl; [easy | now rewrite IH]. Qed.

Lemma load_drop xs i x rest :
  drop i xs = x :: rest -> load xs i = x.
Proof.
  intros H. unfold load.
  assert (xs !! i = Some x) as ->; [|reflexivity].
  rewrite <- (Nat.add_0_r i), <- lookup_drop, H. reflexivity.
Qed.

(** A loop that reads [xs[i]] and stores one value at index [i]. *)
Lemma for_scan_array {S} (xs : list float)
    (body : nat -> list float * S -> M (list float * S))
    (step : S -> float -> float * S) :
  (forall i out s w, (i < length out)%nat ->
     body i (out, s) w =
     (Normal (<[i := fst (step s (load xs i))]> out, snd (step s (load xs i))), w)) ->
  forall n i0 out s w, (i0 + n <= length out)%nat -> (i0 + n <= length xs)%nat ->
    for_ i0 n body (out, s) w =
    (Normal (take i0 out ++ fst (scan step s (take n (drop i0 xs))) ++ drop (i0 + n) out,
             snd (scan step s (take n (drop i0 xs)))), w).
Proof.
  intros Hbody. induction n as [|n IH]; intros i0 out s w Hlen Hxs.
  - simpl. rewrite Nat.add_0_r, take_drop. reflexivity.
  - simpl for_. erewrite bind_normal by (apply Hbody; lia).
    rewrite IH by (rewrite ?length_insert; lia).
    destruct (drop i0 xs) as [|x rest] eqn:Hd.
    { apply (f_equal length) in Hd. rewrite length_drop in Hd. simpl in Hd. lia. }
    rewrite (load_drop _ _ _ _ Hd).
    assert (Hd' : drop (Datatypes.S i0) xs = rest).
    { replace (Datatypes.S i0) with (i0 + 1)%nat by lia.
      rewrite <- drop_drop, Hd. reflexivity. }
    rewrite Hd'. simpl take. simpl scan.
    destruct (step s x) as [o s'] eqn:Hs. simpl fst; simpl snd.
    destruct (scan step s' (take n rest)) as [outs s''] eqn:Hsc.
    simpl fst; simpl snd.
    f_equal. f_equal.
    rewrite insert_take_drop_mid by lia.
    assert (Hl : length (take i0 out ++ [o]) = Datatypes.S i0)
      by (rewrite length_app, length_take; simpl; lia).
    replace (take i0 out ++ o :: drop (Datatypes.S i0) out)
      with ((take i0 out ++ [o]) ++ drop (Datatypes.S i0) out)
      by (now rewrite <- app_assoc).
    rewrite (take_app_length' (take i0 out ++ [o]) _ (Datatypes.S i0)) by now rewrite Hl.
    replace (Datatypes.S i0 + n)%nat with (length (take i0 out ++ [o]) + n)%nat
      by (rewrite Hl; lia).
    rewrite drop_app_add, drop_drop.
    rewrite <- !app_assoc. simpl.
    now rewrite Nat.add_succ_r.
Qed.

Lemma generateGreyNoise_pure length w :
  Z.of_nat length <= MAX_LENGTH ->
  generateGreyNoise length w =
  (Normal (greyPure (draws w length)),
   after [Float32Buffer (Z.of_nat length); Float32Buffer (Z.of_nat length)] length w).
Proof.
  intros Hmax. unfold generateGreyNoise.
  erewrite bind_normal by (now apply new_Float32Array_ok).
  erewrite bind_normal.
  2:{ apply (for_fill_map _ greyInput).
      - intros i samples w0 Hi. reflexivity.
      - rewrite length_replicate. lia. }
  rewrite fill_whole_map.
  erewrite bind_normal by (now apply new_Float32Array_ok).
  erewrite bind_normal.
  2:{ eapply for_scan_array with (step := greyKernel).
      - intros i out [s1 s2] w0 Hi. reflexivity.
      - rewrite length_replicate. lia.
      - rewrite length_map, draws_length. lia. }
  rewrite drop_0.
  rewrite (take_ge (map greyInput _)) by (rewrite length_map, draws_length; lia).
  simpl take. rewrite drop_ge by (rewrite length_replicate; lia).
  rewrite app_nil_r. unfold mret, M_ret.
  rewrite advance_after, !after_after. unfold greyPure.
  change (draws (after [Float32Buffer (Z.of_nat length)] 0 w) length) with (draws w length).
  destruct (scan greyKernel _ _) as [outs [a b]] eqn:Hsc.
  simpl. f_equal. unfold after. simpl. f_equal. lia.
Qed.

Lemma generateChunk_white len st :
  generateChunk "white" len st =
  (chunkSamples ← generateWhiteNoise len; mret (chunkSamples, st)).
Proof. reflexivity. Qed.

Lemma generateChunk_pink len st :
  generateChunk "pink" len st =
  ('(chunkSamples, state) ← generatePinkNoise len st; mret (chunkSamples, Some state)).
Proof. reflexivity. Qed.

Lemma generateChunk_brown len st :
  generateChunk "brown" len st =
  ('(chunkSamples, state) ← generateBrownNoise len st; mret (chunkSamples, Some state)).
Proof. reflexivity. Qed.

Lemma generateChunk_blue len st :
  generateChunk "blue" len st =
  ('(chunkSamples, state) ← generateBlueNoise len st; mret (chunkSamples, Some state)).
Proof. reflexivity. Qed.

Lemma generateChunk_violet len st :
  generateChunk "violet" len st =
  ('(chunkSamples, state) ← generateVioletNoise len st; mret (chunkSamples, Some state)).
Proof. reflexivity. Qed.

Lemma generateChunk_grey len st :
  generateChunk "grey" len st =
  (chunkSamples ← generateGreyNoise len; mret (chunkSamples, st)).
Proof. reflexivity. Qed.

Lemma generateChunk_orange len st :
  generateChunk "orange" len st =
  ('(chunkSamples, state) ← generateOrangeNoise len st; mret (chunkSamples, Some state)).
Proof. reflexivity. Qed.

Lemma scan_whiteKernel s rs :
  scan whiteKernel s rs = (map (fun r => fround (whiteSample r)) rs, s).
Proof.
  induction rs as [|r rs IH]; simpl; [easy|]. now rewrite IH.
Qed.

Lemma white_sound : chunk_sound whiteK "white".
Proof.
  intros len st w H. exists st, [Float32Buffer (Z.of_nat len)].
  rewrite generateChunk_white.
  erewrite bind_normal by (now apply generateWhiteNoise_map).
  simpl. rewrite scan_whiteKernel. split; reflexivity.
Qed.

Lemma pinkInit_pack b : pinkInit (Some (pinkPack b)) = b.
Proof. destruct b as [[[[[[b0 b1] b2] b3] b4] b5] b6]. reflexivity. Qed.

Lemma pink_sound : chunk_sound pinkK "pink".
Proof.
  intros len st w H. eexists _, [Float32Buffer (Z.of_nat len)].
  rewrite generateChunk_pink.
  erewrite bind_normal by (now apply generatePinkNoise_scan).
  split; [reflexivity|]. simpl kinit. apply pinkInit_pack.
Qed.

Lemma brown_sound : chunk_sound brownK "brown".
Proof.
  intros len st w H. eexists _, [Float32Buffer (Z.of_nat len)].
  rewrite generateChunk_brown.
  erewrite bind_normal by (now apply generateBrownNoise_scan).
  split; reflexivity.
Qed.

Lemma blue_sound : chunk_sound blueK "blue".
Proof.
  intros len st w H. eexists _, [Float32Buffer (Z.of_nat len)].
  rewrite generateChunk_blue.
  erewrite bind_normal by (now apply generateBlueNoise_scan).
  split; reflexivity.
Qed.

Lemma violet_sound : chunk_sound violetK "violet".
Proof.
  intros len st w H. eexists _, [Float32Buffer (Z.of_nat len)].
  rewrite generateChunk_violet.
  erewrite bind_normal by (now apply generateVioletNoise_scan).
  split; [reflexivity|]. simpl kinit. simpl kpiece.
  destruct (scan violetKernel _ _) as [outs [a b]]. reflexivity.
Qed.

Lemma grey_sound : chunk_sound greyK "grey".
Proof.
  intros len st w H. exists st, [Float32Buffer (Z.of_nat len); Float32Buffer (Z.of_nat len)].
  rewrite generateChunk_grey.
  erewrite bind_normal by (now apply generateGreyNoise_pure). split; reflexivity.
Qed.

Lemma orange_sound : chunk_sound orangeK "orange".
Proof.
  intros len st w H. eexists _, [Float32Buffer (Z.of_nat len)].
  rewrite generateChunk_orange.
  erewrite bind_normal by (now apply generateOrangeNoise_scan).
  split; [reflexivity|]. simpl kinit. simpl kpiece.
  destruct (scan orangeKernel _ _) as [outs [a b]]. reflexivity.
Qed.

Lemma take_draws n m w : take n (draws w m) = draws w (Nat.min n m).
Proof.
  destruct (Nat.le_gt_cases n m) as [H|H].
  - replace m with (n + (m - n))%nat at 1 by lia.
    rewrite draws_add, take_app_length' by (now rewrite draws_length).
    f_equal. lia.
  - rewrite take_ge by (rewrite draws_length; lia). f_equal. lia.
Qed.

Lemma drop_draws n m w : drop n (draws w m) = draws (advance n w) (m - n).
Proof.
  destruct (Nat.le_gt_cases n m) as [H|H].
  - replace m with (n + (m - n))%nat at 1 by lia.
    rewrite draws_add, drop_app_length' by (now rewrite draws_length).
    reflexivity.
  - rewrite drop_ge by (rewrite draws_length; lia).
    replace (m - n)%nat with 0%nat by lia. reflexivity.
Qed.

Lemma ceil_div_spec T c :
  0 < c -> c * ceil_div T c - c < T <= c * ceil_div T c.
Proof.
  intros Hc. unfold ceil_div.
  pose proof (Z.div_mod (- T) c ltac:(lia)) as Hdm.
  pose proof (Z.mod_pos_bound (- T) c Hc) as Hb.
  lia.
Qed.

Lemma after_nil_0 w : after [] 0 w = w.
Proof. now destruct w. Qed.

Lemma white_length : kernel_length whiteK.
Proof. intros s rs. apply scan_length. Qed.
Lemma pink_length : kernel_length pinkK.
Proof. intros s rs. apply scan_length. Qed.
Lemma brown_length : kernel_length brownK.
Proof. intros s rs. apply scan_length. Qed.
Lemma blue_length : kernel_length blueK.
Proof. intros s rs. apply scan_length. Qed.
Lemma violet_length : kernel_length violetK.
Proof. intros s rs. apply scan_length. Qed.
Lemma grey_length : kernel_length greyK.
Proof. intros s rs. simpl. unfold greyPure. now rewrite scan_length, length_map. Qed.
Lemma orange_length : kernel_length orangeK.
Proof. intros s rs. apply scan_length. Qed.

Lemma for_S {S} i n (body : nat -> S -> M S) s w :
  for_ i (Datatypes.S n) body s w =
  match body i s w with
  | (Normal s', w') => for_ (Datatypes.S i) n body s' w'
  | (Throw e, w') => (Throw e, w')
  end.
Proof. reflexivity. Qed.

Section ChunkLoop.
Variables (k : kernel) (noiseType : string) (c T : Z).
Hypothesis Hsound : chunk_sound k noiseType.
Hypothesis Hlength : kernel_length k.
Hypothesis Hc : 0 < c.
Hypothesis HT : 0 <= T <= MAX_LENGTH.

Lemma chunk_loop n : forall k0 samples st w,
  length samples = (Z.to_nat T) ->
  Z.of_nat (k0 + n) = ceil_div T c ->
  exists bufs st',
    for_ k0 n (fun chunk '(samples, state) =>
      let start := Z.of_nat chunk * c in
      let end_ := Z.min (start + c) T in
      let chunkLength := end_ - start in
      '(chunkSamples, state) ← generateChunk noiseType (Z.to_nat chunkLength) state;
      samples ← typedArray_set samples chunkSamples (Z.to_nat start);
      mret (samples, state)) (samples, st) w =
    (Normal (take (Nat.min (k0 * (Z.to_nat c)) (Z.to_nat T)) samples ++
             chunked (kpiece k) n (Z.to_nat c) (kinit k st)
               (draws w ((Z.to_nat T) - Nat.min (k0 * (Z.to_nat c)) (Z.to_nat T))), st'),
     after bufs ((Z.to_nat T) - Nat.min (k0 * (Z.to_nat c)) (Z.to_nat T)) w).
Proof.
  set (cn := Z.to_nat c). set (Tn := Z.to_nat T).
  pose proof (ceil_div_spec T c Hc) as Hcd.
  induction n as [|n IH]; intros k0 samples st w Hlen Hk0.
  - exists [], st. simpl for_.
    assert (Tn <= k0 * cn)%nat by (subst cn Tn; nia).
    rewrite Nat.min_r, Nat.sub_diag by lia.
    rewrite take_ge by lia. simpl. rewrite app_nil_r, after_nil_0. reflexivity.
  - assert (Hlt : Z.of_nat k0 * c < T) by nia.
    assert (Hstart : Z.to_nat (Z.of_nat k0 * c) = (k0 * cn)%nat) by (subst cn; nia).
    set (len := Nat.min cn (Tn - k0 * cn)).
    assert (Hclen : Z.to_nat (Z.min (Z.of_nat k0 * c + c) T - Z.of_nat k0 * c) = len)
      by (subst len cn Tn; nia).
    destruct (Hsound len st w) as (st1 & bufs1 & Hrun & Hst1);
      [subst len cn Tn; unfold MAX_LENGTH in *; lia|].
    set (outs1 := fst (kpiece k (kinit k st) (draws w len))) in *.
    assert (Hl1 : length outs1 = len) by (subst outs1; now rewrite Hlength, draws_length).
    set (samples1 := take (k0 * cn) samples ++ outs1 ++ drop (k0 * cn + len) samples).
    assert (Hlen1 : length samples1 = Tn).
    { subst samples1. rewrite !length_app, length_take, length_drop, Hl1. subst len. lia. }
    match goal with |- context [for_ _ _ ?b _ _] => set (body := b) in * end.
    rewrite for_S.
    assert (Hbody : body k0 (samples, st) w = (Normal (samples1, st1), after bufs1 len w)).
    { subst body. cbv beta zeta. rewrite Hclen, Hstart.
      erewrite bind_normal by exact Hrun. cbv beta iota.
      unfold typedArray_set. rewrite Hl1.
      destruct (Nat.ltb_spec (length samples) (k0 * cn + len)) as [Hbad|Hfit];
        [subst len; lia|].
      reflexivity. }
    rewrite Hbody. clear Hbody.
    destruct (IH (Datatypes.S k0) samples1 st1 (after bufs1 len w) Hlen1 ltac:(lia))
      as (bufs2 & st2 & Hrest).
    exists (bufs2 ++ bufs1), st2.
    rewrite Hrest. clear Hrest IH.
    assert (Hmin : Nat.min (Datatypes.S k0 * cn) Tn = (k0 * cn + len)%nat) by (subst len; lia).
    assert (Hmin0 : Nat.min (k0 * cn) Tn = (k0 * cn)%nat) by lia.
    rewrite Hmin, Hmin0, after_after.
    f_equal.
    + f_equal.
      simpl chunked. rewrite take_draws. fold len.
      replace (Nat.min cn (Tn - k0 * cn)) with len by reflexivity.
      fold outs1.
      destruct (kpiece k (kinit k st) (draws w len)) as [o1 s1] eqn:Hp.
      simpl in outs1, Hst1. subst outs1.
      rewrite drop_draws, Hst1.
      subst samples1.
      rewrite app_assoc, take_app_length' by (rewrite length_app, length_take, Hl1; lia).
      rewrite <- app_assoc. do 3 f_equal.
      destruct (Nat.le_gt_cases cn (Tn - k0 * cn)) as [Hle|Hgt].
      * assert (len = cn) as -> by (subst len; lia).
        replace (Tn - (k0 * cn + cn))%nat with (Tn - k0 * cn - cn)%nat by lia.
        reflexivity.
      * assert (len = (Tn - k0 * cn)%nat) as Hlen' by (subst len; lia).
        replace (Tn - (k0 * cn + len))%nat with 0%nat by lia.
        replace (Tn - k0 * cn - cn)%nat with 0%nat by lia.
        reflexivity.
    + f_equal. subst len. lia.
Qed.
End ChunkLoop.

Lemma generateSamples_chunked k noiseType c T w :
  chunk_sound k noiseType -> kernel_length k ->
  0 < c -> 0 <= T <= MAX_LENGTH ->
  exists bufs,
    generateSamples c noiseType T w =
    (Normal (chunked (kpiece k) (Z.to_nat (ceil_div T c)) (Z.to_nat c) (kinit k None)
               (draws w (Z.to_nat T))),
     after bufs (Z.to_nat T) w).
Proof.
  intros Hs Hl Hc HT. unfold generateSamples. cbv zeta.
  pose proof (ceil_div_spec T c Hc) as Hcd.
  erewrite bind_normal by (apply new_Float32Array_okZ; lia).
  destruct (chunk_loop k noiseType c T Hs Hl Hc HT (Z.to_nat (ceil_div T c)) 0
              (replicate (Z.to_nat T) (S754_zero false)) None
              (after [Float32Buffer T] 0 w))
    as (bufs & st' & Hloop).
  { apply length_replicate. }
  { simpl. nia. }
  exists (bufs ++ [Float32Buffer T]).
  erewrite bind_normal by exact Hloop.
  simpl. rewrite Nat.sub_0_r, after_after. reflexivity.
Qed.

Lemma chunked_scan {S} (step : S -> float -> float * S) n size s rs :
  (length rs <= n * size)%nat ->
  chunked (scan step) n size s rs = fst (scan step s rs).
Proof.
  revert s rs. induction n as [|n IH]; intros s rs Hlen.
  - destruct rs; [reflexivity | simpl in Hlen; lia].
  - simpl chunked.
    rewrite <- (take_drop size rs) at 2. rewrite scan_app.
    destruct (scan step s (take size rs)) as [o1 s1].
    rewrite IH by (rewrite length_drop; lia).
    now destruct (scan step s1 (drop size rs)).
Qed.

Lemma threaded_kernel noiseType :
  threaded noiseType ->
  exists (S : Type) (init : option (gmap string float) -> S) (step : S -> float -> float * S),
    chunk_sound {| kstate := S; kinit := init; kpiece := scan step |} noiseType.
Proof.
  intros [-> | [-> | [-> | [-> | [-> | ->]]]]].
  - exists unit, (fun _ => tt), whiteKernel. exact white_sound.
  - exists poles, pinkInit, pinkKernel. exact pink_sound.
  - exists float, (fun st => field st "lastSample"), brownKernel. exact brown_sound.
  - exists float, (fun st => field st "lastSample"), blueKernel. exact blue_sound.
  - eexists _, _, violetKernel. exact violet_sound.
  - eexists _, _, orangeKernel. exact orange_sound.
Qed.

(** ** The bytes of the container *)

Lemma new_ArrayBuffer_ok (n : Z) w :
  0 <= n <= MAX_LENGTH ->
  new_ArrayBuffer n w = (Normal (replicate (Z.to_nat n) 0), after [ByteBuffer n] 0 w).
Proof.
  intros H. unfold new_ArrayBuffer, MAX_LENGTH in *.
  destruct (Z.ltb_spec n 0); [lia|].
  destruct (Z.ltb_spec 9007199254740991 n); [lia|].
  reflexivity.
Qed.

Lemma insert2_app (pre tail : list Z) t0 t1 a b :
  <[(length pre + 1)%nat := b]> (<[length pre := a]> (pre ++ t0 :: t1 :: tail))
  = pre ++ a :: b :: tail.
Proof.
  rewrite (insert_app_r_alt pre _ (length pre)) by lia.
  rewrite insert_app_r_alt by lia.
  replace (length pre - length pre)%nat with 0%nat by lia.
  replace (length pre + 1 - length pre)%nat with 1%nat by lia.
  reflexivity.
Qed.

(** The sample loop appends two bytes per sample after the bytes written
    so far. *)
Lemma pcm_loop (samples : list float) n : forall i0 (pre tail : list Z) w,
  (i0 + n <= length samples)%nat ->
  (2 * n <= length tail)%nat ->
  for_ i0 n (fun i '(view, offset) =>
      view ← setInt16 view offset (intSample (load samples i));
      mret (view, (offset + 2)%nat))
    (pre ++ tail, length pre) w =
  (Normal (pre ++ flat_map pcmBytes (take n (drop i0 samples)) ++ drop (2 * n) tail,
           (length pre + 2 * n)%nat), w).
Proof.
  induction n as [|n IH]; intros i0 pre tail w Hs Ht.
  - simpl. rewrite Nat.add_0_r. reflexivity.
  - rewrite for_S.
    destruct tail as [|t0 [|t1 tail']]; [simpl in Ht; lia | simpl in Ht; lia |].
    destruct (drop i0 samples) as [|x rest] eqn:Hd.
    { apply (f_equal length) in Hd. rewrite length_drop in Hd. simpl in Hd. lia. }
    assert (Hd' : drop (Datatypes.S i0) samples = rest).
    { replace (Datatypes.S i0) with (i0 + 1)%nat by lia.
      rewrite <- drop_drop, Hd. reflexivity. }
    assert (Hbody :
      (view ← setInt16 (pre ++ t0 :: t1 :: tail') (length pre) (intSample (load samples i0));
       mret (view, (length pre + 2)%nat)) w =
      (Normal ((pre ++ pcmBytes x) ++ tail', length (pre ++ pcmBytes x)), w)).
    { unfold setInt16.
      destruct (Nat.leb_spec (length pre + 2) (length (pre ++ t0 :: t1 :: tail'))) as [_|Hbad];
        [| rewrite length_app in Hbad; simpl in Hbad; lia].
      rewrite (load_drop _ _ _ _ Hd).
      unfold mbind, M_bind, mret, M_ret.
      rewrite insert2_app. unfold pcmBytes, le16, pcm16.
      rewrite <- app_assoc, length_app. reflexivity. }
    cbv beta iota. rewrite Hbody.
    assert (Ht' : (2 * n <= length tail')%nat) by (simpl in Ht; lia).
    rewrite (IH (Datatypes.S i0) (pre ++ pcmBytes x) tail' w) by (try exact Ht'; lia).
    rewrite Hd'. simpl take. simpl flat_map.
    replace (2 * Datatypes.S n)%nat with (Datatypes.S (Datatypes.S (2 * n))) by lia.
    simpl drop. rewrite <- !app_assoc, length_app.
    unfold pcmBytes at 2, le16. simpl app. simpl length.
    do 3 f_equal. lia.
Qed.

Lemma window1 (view : list Z) o :
  (o + 1 <= length view)%nat ->
  exists a, view = take o view ++ a :: drop (o + 1) view.
Proof.
  intros H. destruct (drop o view) as [|a rest] eqn:Hd.
  { apply (f_equal length) in Hd. rewrite length_drop in Hd. simpl in Hd. lia. }
  exists a. rewrite <- (take_drop o view) at 1. rewrite Hd. do 2 f_equal.
  rewrite <- drop_drop, Hd. reflexivity.
Qed.

Lemma window2 (view : list Z) o :
  (o + 2 <= length view)%nat ->
  exists a b, view = take o view ++ a :: b :: drop (o + 2) view.
Proof.
  intros H. destruct (window1 view o ltac:(lia)) as [a Ha].
  destruct (window1 (drop (o + 1) view) 0 ltac:(rewrite length_drop; lia)) as [b Hb].
  exists a, b. simpl in Hb. rewrite drop_drop in Hb.
  replace (o + 1 + 1)%nat with (o + 2)%nat in Hb by lia.
  rewrite <- Hb. exact Ha.
Qed.

Lemma window4 (view : list Z) o :
  (o + 4 <= length view)%nat ->
  exists a b c d, view = take o view ++ a :: b :: c :: d :: drop (o + 4) view.
Proof.
  intros H. destruct (window2 view o ltac:(lia)) as (a & b & Hab).
  destruct (window2 (drop (o + 2) view) 0 ltac:(rewrite length_drop; lia)) as (c & d & Hcd).
  exists a, b, c, d. simpl in Hcd. rewrite drop_drop in Hcd.
  replace (o + 2 + 2)%nat with (o + 4)%nat in Hcd by lia.
  rewrite <- Hcd. exact Hab.
Qed.

Lemma insert_pre (pre : list Z) k x (l : list Z) :
  <[(length pre + k)%nat := x]> (pre ++ l) = pre ++ <[k := x]> l.
Proof. apply insert_app_r. Qed.

Lemma setUint8_window view o v w :
  (o + 1 <= length view)%nat ->
  setUint8 view o v w = (Normal (take o view ++ [ToUint8 v] ++ drop (o + 1) view), w).
Proof.
  intros H. unfold setUint8.
  destruct (Nat.leb_spec (o + 1) (length view)); [|lia].
  destruct (window1 view o H) as (a & Hv).
  unfold mret, M_ret. do 2 f_equal.
  rewrite Hv at 1.
  assert (Hl : length (take o view) = o) by (rewrite length_take; lia).
  rewrite <- Hl at 1. rewrite <- (Nat.add_0_r (length (take o view))).
  rewrite insert_pre. reflexivity.
Qed.

Lemma setUint16_window view o v w :
  (o + 2 <= length view)%nat ->
  setUint16 view o v w =
  (Normal (take o view ++ le16 (ToUint16 v) ++ drop (o + 2) view), w).
Proof.
  intros H. unfold setUint16.
  destruct (Nat.leb_spec (o + 2) (length view)); [|lia].
  destruct (window2 view o H) as (a & b & Hv).
  unfold mret, M_ret. do 2 f_equal.
  rewrite Hv at 1.
  assert (Hl : length (take o view) = o) by (rewrite length_take; lia).
  rewrite <- Hl at 1 2.
  rewrite <- (Nat.add_0_r (length (take o view))) at 2.
  rewrite !insert_pre. reflexivity.
Qed.

Lemma setUint32_window view o v w :
  (o + 4 <= length view)%nat ->
  setUint32 view o v w =
  (Normal (take o view ++ le32 (ToUint32 v) ++ drop (o + 4) view), w).
Proof.
  intros H. unfold setUint32.
  destruct (Nat.leb_spec (o + 4) (length view)); [|lia].
  destruct (window4 view o H) as (a & b & c & d & Hv).
  unfold mret, M_ret. do 2 f_equal.
  rewrite Hv at 1.
  assert (Hl : length (take o view) = o) by (rewrite length_take; lia).
  rewrite <- Hl at 1 2 3 4.
  rewrite <- (Nat.add_0_r (length (take o view))) at 4.
  rewrite !insert_pre. reflexivity.
Qed.

Lemma setUint8_app (pre : list Z) k (l : list Z) v w :
  (k < length l)%nat ->
  setUint8 (pre ++ l) (length pre + k) v w = (Normal (pre ++ <[k := ToUint8 v]> l), w).
Proof.
  intros H. unfold setUint8.
  destruct (Nat.leb_spec (length pre + k + 1) (length (pre ++ l))) as [_|Hbad];
    [| rewrite length_app in Hbad; lia].
  now rewrite insert_pre.
Qed.

Lemma writeString4_app (pre post : list Z) a b c d (c0 c1 c2 c3 : ascii) w :
  writeString (pre ++ a :: b :: c :: d :: post) (length pre)
    (String c0 (String c1 (String c2 (String c3 EmptyString)))) w =
  (Normal (pre ++
           [ToUint8 (charCode c0); ToUint8 (charCode c1);
            ToUint8 (charCode c2); ToUint8 (charCode c3)] ++ post), w).
Proof.
  unfold writeString. simpl String.length.
  rewrite for_S, setUint8_app by (simpl; lia).
  rewrite for_S, setUint8_app by (simpl; lia).
  rewrite for_S, setUint8_app by (simpl; lia).
  rewrite for_S, setUint8_app by (simpl; lia).
  reflexivity.
Qed.

Lemma writeString4_window view o (c0 c1 c2 c3 : ascii) w :
  (o + 4 <= length view)%nat ->
  writeString view o (String c0 (String c1 (String c2 (String c3 EmptyString)))) w =
  (Normal (take o view ++
           [ToUint8 (charCode c0); ToUint8 (charCode c1);
            ToUint8 (charCode c2); ToUint8 (charCode c3)] ++
           drop (o + 4) view), w).
Proof.
  intros H.
  destruct (window4 view o H) as (a & b & c & d & Hv).
  assert (Hl : length (take o view) = o) by (rewrite length_take; lia).
  set (pre := take o view) in *. set (post := drop (o + 4) view) in *.
  clearbody pre post. subst view o.
  apply writeString4_app.
Qed.

Ltac header_step :=
  erewrite bind_normal
    by (first [ apply writeString4_window | apply setUint32_window
              | apply setUint16_window ];
        cbn [length]; lia);
  unfold le32, le16; cbn [take drop app Nat.add firstn skipn].

Lemma createWavFile_bytes samples sampleRate w :
  44 + Z.of_nat (length samples) * 2 <= MAX_LENGTH ->
  createWavFile samples sampleRate w =
  (Normal (wavHeader sampleRate (Z.of_nat (length samples)) ++ flat_map pcmBytes samples),
   after [ByteBuffer (44 + Z.of_nat (length samples) * 2)] 0 w).
Proof.
  intros Hmax. unfold createWavFile. cbv zeta.
  erewrite bind_normal by (apply new_ArrayBuffer_ok; lia).
  set (n := length samples) in *.
  replace (Z.to_nat (44 + Z.of_nat n * 2)) with (44 + 2 * n)%nat by lia.
  rewrite replicate_add.
  set (tail := replicate (2 * n) 0).
  set (w1 := after _ 0 w).
  assert (Htail : length tail = (2 * n)%nat) by (subst tail; now rewrite length_replicate).
  clearbody tail w1.
  cbn [replicate app Nat.add].
  do 13 header_step.
  erewrite bind_normal.
  2:{ apply (pcm_loop samples n 0 (wavHeader sampleRate (Z.of_nat n)) tail); lia. }
  unfold mret, M_ret. rewrite drop_0, take_ge by lia.
  rewrite drop_ge by lia. now rewrite app_nil_r.
Qed.

(** ** Sample counts, lengths and failures *)

Lemma supported_kernel noiseType :
  supported noiseType -> exists k, chunk_sound k noiseType /\ kernel_length k.
Proof.
  intros [[-> | [-> | [-> | [-> | [-> | ->]]]]] | ->].
  - exists whiteK. split; [exact white_sound | exact white_length].
  - exists pinkK. split; [exact pink_sound | exact pink_length].
  - exists brownK. split; [exact brown_sound | exact brown_length].
  - exists blueK. split; [exact blue_sound | exact blue_length].
  - exists violetK. split; [exact violet_sound | exact violet_length].
  - exists orangeK. split; [exact orange_sound | exact orange_length].
  - exists greyK. split; [exact grey_sound | exact grey_length].
Qed.

Lemma chunked_length k n size s rs :
  kernel_length k -> (length rs <= n * size)%nat ->
  length (chunked (kpiece k) n size s rs) = length rs.
Proof.
  intros Hl. revert s rs. induction n as [|n IH]; intros s rs Hlen.
  - destruct rs; [reflexivity | simpl in Hlen; lia].
  - simpl chunked. specialize (Hl s (take size rs)).
    destruct (kpiece k s (take size rs)) as [o s1]. simpl in Hl.
    rewrite length_app, Hl, IH by (rewrite length_drop; lia).
    rewrite length_take, length_drop. lia.
Qed.

(** The chunk loop fills the whole buffer for every supported type. *)
Lemma generateSamples_length noiseType c T w :
  supported noiseType -> 0 < c -> 0 <= T <= MAX_LENGTH ->
  exists samples bufs,
    generateSamples c noiseType T w = (Normal samples, after bufs (Z.to_nat T) w)
    /\ length samples = Z.to_nat T.
Proof.
  intros Hs Hc HT. destruct (supported_kernel _ Hs) as (k & Hk & Hl).
  destruct (generateSamples_chunked k noiseType c T w Hk Hl Hc HT) as (bufs & Hrun).
  eexists _, bufs. split; [exact Hrun|].
  pose proof (ceil_div_spec T c Hc).
  rewrite chunked_length, draws_length; [reflexivity | exact Hl |].
  rewrite draws_length. nia.
Qed.

Lemma normalizeSamples_length samples :
  length (normalizeSamples samples) = length samples.
Proof.
  unfold normalizeSamples. cbv zeta.
  destruct (fgt _ _); [apply length_map | reflexivity].
Qed.

Lemma wavHeader_length sampleRate sampleCount :
  length (wavHeader sampleRate sampleCount) = 44%nat.
Proof. reflexivity. Qed.

Lemma flat_map_pcm_length samples :
  length (flat_map pcmBytes samples) = (2 * length samples)%nat.
Proof.
  induction samples as [|x xs IH]; [reflexivity|].
  simpl. rewrite IH. lia.
Qed.

Lemma generateEncoded_sizes noiseType n w :
  supported noiseType -> 0 <= n -> 44 + n * 2 <= MAX_LENGTH ->
  exists samples w1 bytes w2,
    generateSamples CHUNK_SIZE noiseType n w = (Normal samples, w1)
    /\ length samples = Z.to_nat n
    /\ generateEncoded noiseType n w = (Normal bytes, w2)
    /\ Z.of_nat (length bytes) = 44 + 2 * n.
Proof.
  intros Hs Hn Hmax.
  destruct (generateSamples_length noiseType CHUNK_SIZE n w Hs) as (samples & bufs & Hrun & Hlen);
    [reflexivity | unfold MAX_LENGTH in *; lia |].
  exists samples, (after bufs (Z.to_nat n) w).
  unfold generateEncoded. erewrite bind_normal by exact Hrun. cbv zeta.
  rewrite createWavFile_bytes by (rewrite normalizeSamples_length, Hlen; lia).
  eexists _, _. split; [exact Hrun|]. split; [exact Hlen|]. split; [reflexivity|].
  rewrite length_app, wavHeader_length, flat_map_pcm_length, normalizeSamples_length, Hlen.
  lia.
Qed.

Lemma totalSamples_encoded noiseType duration n :
  totalSamplesOf duration = Int n ->
  generateNoise noiseType duration = generateEncoded noiseType n.
Proof. intros H. unfold generateNoise. now rewrite H. Qed.

Lemma generateChunk_unsupported noiseType len st w :
  ~ supported noiseType ->
  generateChunk noiseType len st w = (Throw UnknownNoiseType, w).
Proof.
  intros Hns. unfold generateChunk.
  repeat match goal with
  | |- context [String.eqb noiseType ?s] =>
      destruct (String.eqb_spec noiseType s) as [->|_];
      [exfalso; apply Hns; unfold supported, threaded; tauto|]
  end.
  reflexivity.
Qed.

Lemma generateSamples_unsupported noiseType c n w :
  ~ supported noiseType -> 0 < c -> 1 <= n <= MAX_LENGTH ->
  generateSamples c noiseType n w = (Throw UnknownNoiseType, after [Float32Buffer n] 0 w).
Proof.
  intros Hns Hc Hn. unfold generateSamples. cbv zeta.
  erewrite bind_normal by (apply new_Float32Array_okZ; lia).
  pose proof (ceil_div_spec n c Hc).
  destruct (Z.to_nat (ceil_div n c)) as [|chunks] eqn:Hch; [nia|].
  erewrite bind_throw; [reflexivity|].
  rewrite for_S. cbv zeta beta iota.
  erewrite bind_throw by (now apply generateChunk_unsupported).
  reflexivity.
Qed.

Lemma generateEncoded_unsupported noiseType n w :
  ~ supported noiseType -> 1 <= n <= MAX_LENGTH ->
  generateEncoded noiseType n w = (Throw UnknownNoiseType, after [Float32Buffer n] 0 w).
Proof.
  intros Hns Hn. unfold generateEncoded.
  erewrite bind_throw; [reflexivity|].
  now apply generateSamples_unsupported.
Qed.

Lemma generateEncoded_zero noiseType w :
  generateEncoded noiseType 0 w =
  (Normal (wavHeader SAMPLE_RATE 0), after [ByteBuffer 44; Float32Buffer 0] 0 w).
Proof. reflexivity. Qed.

Lemma generateEncoded_negative noiseType n w :
  n < 0 -> generateEncoded noiseType n w = (Throw RangeError, w).
Proof.
  intros Hn. unfold generateEncoded, generateSamples. cbv zeta.
  erewrite bind_throw; [reflexivity|].
  erewrite bind_throw; [reflexivity|].
  unfold new_Float32Array. destruct (Z.ltb_spec n 0); [reflexivity | lia].
Qed.

Lemma unknown_unsupported : ~ supported "unknown".
Proof.
  unfold supported, threaded. intros H.
  repeat destruct H as [H|H]; discriminate H.
Qed.

Lemma le32_roundtrip v :
  0 <= v < 4294967296 ->
  getUint32 (le32 v) 0 = v.
Proof.
  intros H. unfold getUint32, byteAt, le32. simpl.
  pose proof (Z.div_mod v 256 ltac:(lia)).
  pose proof (Z.div_mod (v / 256) 256 ltac:(lia)).
  pose proof (Z.div_mod (v / 65536) 256 ltac:(lia)).
  replace (v / 65536) with (v / 256 / 256) in * by (rewrite Z.div_div by lia; reflexivity).
  replace (v / 16777216) with (v / 256 / 256 / 256) by (rewrite !Z.div_div by lia; reflexivity).
  lia.
Qed.

(** ** The pink recurrence *)

Lemma fsub_fadd_fneg x y : fsub x y = fadd x (fneg y).
Proof.
  destruct x as [sx|sx| |sx mx ex], y as [sy|sy| |sy my ey];
    try reflexivity;
    destruct sx, sy; reflexivity.
Qed.

Lemma binary_round_aux_negb prec emax s m e l :
  binary_round_aux prec emax (negb s) m e l =
  SFopp (binary_round_aux prec emax s m e l).
Proof.
  unfold binary_round_aux.
  destruct (shr_fexp prec emax m e l) as [mrs' e'].
  destruct (shr_fexp prec emax _ e' loc_Exact) as [mrs'' e''].
  destruct (shr_m mrs''); try reflexivity.
  destruct (e'' <=? emax - prec); reflexivity.
Qed.

Lemma fmul_fneg_r x y : fmul x (fneg y) = fneg (fmul x y).
Proof.
  destruct x as [sx|sx| |sx mx ex], y as [sy|sy| |sy my ey];
    try reflexivity;
    try (destruct sx, sy; reflexivity).
  unfold fmul, fneg, SFmul. rewrite <- binary_round_aux_negb.
  f_equal. destruct sx, sy; reflexivity.
Qed.

Lemma leaky_negative a c bk white :
  leaky a (- c)%js bk white = (a * bk - white * c)%js.
Proof. unfold leaky. now rewrite fmul_fneg_r, <- fsub_fadd_fneg. Qed.

Lemma pinkKernel_kellet b r : pinkKernel b r = kelletStep b r.
Proof.
  destruct b as [[[[[[b0 b1] b2] b3] b4] b5] b6].
  unfold pinkKernel, pinkStep, kelletStep. cbv zeta.
  change (-0.0168980)%js with (fneg 0.0168980%js).
  rewrite leaky_negative. unfold leaky, whiteSample.
  rewrite load_store by (simpl; lia).
  reflexivity.
Qed.

Lemma scan_ext {S} (f g : S -> float -> float * S) s rs :
  (forall s r, f s r = g s r) -> scan f s rs = scan g s rs.
Proof.
  intros H. revert s. induction rs as [|r rs IH]; intros s; simpl; [easy|].
  rewrite H. destruct (g s r) as [o s']. now rewrite IH.
Qed.

(** ** Bounds of the arithmetic of the encoder and of the white filter *)

Lemma finite64_cases x :
  finite64 x ->
  (exists s, x = S754_zero s)
  \/ (exists s m e, x = S754_finite s m e /\ bounded 53 1024 m e = true).
Proof.
  intros [Hv Hf]. destruct x as [s|s| |s m e]; try discriminate Hf.
  - left. eauto.
  - right. exists s, m, e. split; [reflexivity | exact Hv].
Qed.

Lemma F2Z_abs x : F2Z (SFabs x) = Z.abs (F2Z x).
Proof.
  destruct x as [s|s| |s m e]; try reflexivity.
  unfold SFabs, F2Z.
  assert (0 <= Zpos m * 2 ^ (e + bias)).
  { apply Z.mul_nonneg_nonneg; [lia|]. apply Z.pow_nonneg. lia. }
  destruct s; cbn [cond_Zopp]; lia.
Qed.

Lemma finite64_abs x : finite64 x -> finite64 (SFabs x).
Proof. intros [Hv Hf]. destruct x; try discriminate Hf; split; assumption. Qed.

Lemma F2Z_finite_abs s m e :
  Z.abs (F2Z (S754_finite s m e)) = Zpos m * 2 ^ (e + bias).
Proof.
  unfold F2Z.
  assert (0 <= Zpos m * 2 ^ (e + bias)).
  { apply Z.mul_nonneg_nonneg; [lia|]. apply Z.pow_nonneg. lia. }
  destruct s; cbn [cond_Zopp]; lia.
Qed.

Lemma unity_pos : 0 < unity.
Proof. unfold unity. apply Z.pow_pos_nonneg; unfold bias; lia. Qed.

Lemma overflow64_pos : 0 < 2 ^ (1024 + bias).
Proof. apply Z.pow_pos_nonneg; unfold bias; lia. Qed.

(** A product of finite numbers whose magnitude is below a representable
    bound is finite and below that bound. *)
Lemma fmul_bound x y Y :
  finite64 x -> finite64 y ->
  representable 53 1074 Y -> Y < 2 ^ (1024 + bias) ->
  Z.abs (F2Z x) * Z.abs (F2Z y) <= Y * unity ->
  finite64 (fmul x y)
  /\ sign_of (fmul x y) = xorb (sign_of x) (sign_of y)
  /\ Z.abs (F2Z (fmul x y)) <= Y.
Proof.
  intros Hx Hy HY Hov Hle. pose proof unity_pos as HU.
  assert (HY0 : 0 <= Y) by apply HY.
  destruct (finite64_cases x Hx) as [[sx ->] | (sx & mx & ex & -> & Hbx)];
  destruct (finite64_cases y Hy) as [[sy ->] | (sy & my & ey & -> & Hby)];
    try (split; [split; reflexivity|]; split; [reflexivity|]; simpl; lia).
  rewrite !F2Z_finite_abs in Hle.
  pose proof (SFmul_encodes sx mx ex sy my ey Hbx Hby) as Henc.
  set (a := Zpos mx * 2 ^ (ex + bias) * (Zpos my * 2 ^ (ey + bias))) in *.
  assert (Ha : 0 <= a).
  { subst a. repeat apply Z.mul_nonneg_nonneg; try lia; apply Z.pow_nonneg; lia. }
  pose proof (round_frac_le 53 1074 ltac:(lia) a unity Y Ha HU HY Hle) as Hr.
  pose proof (round_frac_nonneg 53 1074 ltac:(lia) ltac:(lia) a unity Ha HU) as Hr0.
  destruct (encodes_finite 53 1024 _ _ _ Henc ltac:(lia)) as (Hv & Hf & HF & Hs).
  split; [split; assumption|]. split; [exact Hs|].
  unfold fmul. rewrite HF. destruct (xorb sx sy); cbn [cond_Zopp]; lia.
Qed.

Lemma fsub_bound x y Y :
  finite64 x -> finite64 y ->
  representable 53 1074 Y -> Y < 2 ^ (1024 + bias) ->
  Z.abs (F2Z x - F2Z y) <= Y ->
  finite64 (fsub x y) /\ Z.abs (F2Z (fsub x y)) <= Y.
Proof.
  intros Hx Hy HY Hov Hle.
  assert (HY0 : 0 <= Y) by apply HY.
  destruct (finite64_cases x Hx) as [[sx ->] | (sx & mx & ex & -> & Hbx)];
  destruct (finite64_cases y Hy) as [[sy ->] | (sy & my & ey & -> & Hby)].
  - split; [destruct sx, sy; split; reflexivity | destruct sx, sy; simpl; lia].
  - unfold fsub, SFsub. split; [split; [exact Hby | reflexivity]|].
    rewrite F2Z_finite_abs. change (F2Z (S754_zero sx)) with 0 in Hle.
    rewrite Z.sub_0_l, Z.abs_opp, F2Z_finite_abs in Hle. exact Hle.
  - unfold fsub, SFsub. split; [split; [exact Hbx | reflexivity]|].
    change (F2Z (S754_zero sy)) with 0 in Hle. rewrite Z.sub_0_r in Hle. exact Hle.
  - destruct (bounded64_inv _ _ Hbx) as (Hex & _).
    destruct (bounded64_inv _ _ Hby) as (Hey & _).
    pose proof (SFsub_encodes sx mx ex sy my ey ltac:(unfold bias; lia) ltac:(unfold bias; lia))
      as Hsub.
    cbv zeta in Hsub. unfold fsub.
    destruct Hsub as [[HD ->] | [HD Henc]].
    + split; [split; reflexivity | simpl; lia].
    + set (D := F2Z (S754_finite sx mx ex) - F2Z (S754_finite sy my ey)) in *.
      pose proof (round_frac_le 53 1074 ltac:(lia) (Z.abs D) 1 Y ltac:(lia) ltac:(lia) HY
                    ltac:(lia)) as Hr.
      pose proof (round_frac_nonneg 53 1074 ltac:(lia) ltac:(lia) (Z.abs D) 1 ltac:(lia) ltac:(lia)) as Hr0.
      destruct (encodes_finite 53 1024 _ _ _ Henc ltac:(lia)) as (Hv & Hf & HF & Hs).
      split; [split; assumption|].
      rewrite HF. destruct (D <? 0); cbn [cond_Zopp]; lia.
Qed.

Lemma fround_bound x Y :
  finite64 x ->
  representable 24 1999 Y -> Y < 2 ^ (128 + bias) ->
  Z.abs (F2Z x) <= Y ->
  finite64 (fround x) /\ Z.abs (F2Z (fround x)) <= Y.
Proof.
  intros Hx HY Hov Hle.
  assert (HY0 : 0 <= Y) by apply HY.
  destruct (finite64_cases x Hx) as [[sx ->] | (sx & mx & ex & -> & Hbx)].
  - split; [split; reflexivity | simpl; lia].
  - destruct (bounded64_inv _ _ Hbx) as (Hex & _).
    rewrite F2Z_finite_abs in Hle.
    pose proof (fround_spec sx mx ex ltac:(unfold bias; lia)) as [Hfin _].
    cbv zeta in Hfin.
    set (a := Zpos mx * 2 ^ (ex + bias)) in *.
    assert (Ha : 0 <= a).
    { subst a. apply Z.mul_nonneg_nonneg; [lia | apply Z.pow_nonneg; lia]. }
    pose proof (round_frac_le 24 1999 ltac:(lia) a 1 Y Ha ltac:(lia) HY ltac:(lia)) as Hr.
    pose proof (round_frac_nonneg 24 1999 ltac:(lia) ltac:(lia) a 1 Ha ltac:(lia)) as Hr0.
    destruct (Hfin ltac:(lia)) as (Hv & Hf & HF & Hs & _).
    split; [split; assumption|].
    rewrite HF. destruct sx; cbn [cond_Zopp]; lia.
Qed.

Lemma truncate_F2Z s m e :
  0 <= e + bias ->
  truncate (S754_finite s m e) = cond_Zopp s (Zpos m * 2 ^ (e + bias) / unity).
Proof.
  intros He. unfold truncate, unity. f_equal.
  destruct (Z.le_gt_cases 0 e) as [H0|H0].
  - rewrite Z.shiftl_mul_pow2 by lia.
    rewrite Z.pow_add_r by (unfold bias; lia).
    rewrite Z.mul_assoc. symmetry. apply Z.div_mul.
    apply Z.pow_nonzero; unfold bias; lia.
  - rewrite Z.shiftl_div_pow2 by lia.
    replace (2 ^ bias) with (2 ^ (- e) * 2 ^ (e + bias)).
    2:{ rewrite <- Z.pow_add_r by lia. f_equal. lia. }
    rewrite Z.div_mul_cancel_r; [reflexivity | |].
    + apply Z.pow_nonzero; lia.
    + apply Z.pow_nonzero; lia.
Qed.

Lemma truncate_bound x n :
  finite64 x -> 0 <= n -> Z.abs (F2Z x) <= n * unity ->
  Z.abs (truncate x) <= n
  /\ (sign_of x = true -> truncate x <= 0)
  /\ (sign_of x = false -> 0 <= truncate x).
Proof.
  intros Hx Hn Hle. pose proof unity_pos as HU.
  destruct (finite64_cases x Hx) as [[sx ->] | (sx & mx & ex & -> & Hbx)].
  - simpl. lia.
  - destruct (bounded64_inv _ _ Hbx) as (Hex & _).
    rewrite truncate_F2Z by (unfold bias; lia).
    rewrite F2Z_finite_abs in Hle.
    set (a := Zpos mx * 2 ^ (ex + bias)) in *.
    assert (Ha : 0 <= a).
    { subst a. apply Z.mul_nonneg_nonneg; [lia | apply Z.pow_nonneg; lia]. }
    assert (0 <= a / unity) by (apply Z.div_pos; lia).
    assert (a / unity <= n).
    { apply Z.div_le_upper_bound; lia. }
    cbn [sign_of].
    destruct sx; cbn [cond_Zopp]; repeat split; intros; try discriminate; lia.
Qed.

Lemma ToInt16_no_wrap x :
  -32768 <= truncate x <= 32767 -> ToInt16 x = truncate x.
Proof.
  intros H. unfold ToInt16. cbv zeta.
  destruct (Z.le_gt_cases 0 (truncate x)).
  - rewrite Z.mod_small by lia.
    destruct (32768 <=? truncate x) eqn:E; [apply Z.leb_le in E; lia | reflexivity].
  - replace (truncate x mod 65536) with (truncate x + 65536).
    2:{ apply Z.mod_unique with (q := -1); lia. }
    destruct (32768 <=? truncate x + 65536) eqn:E; [lia | apply Z.leb_gt in E; lia].
Qed.

Lemma finite64_one : finite64 1%js.
Proof. split; reflexivity. Qed.

Lemma finite64_minus_one : finite64 (-1)%js.
Proof. split; reflexivity. Qed.

Lemma finite64_zero : finite64 0%js.
Proof. split; reflexivity. Qed.

Lemma F2Z_one : F2Z 1%js = unity.
Proof. vm_compute. reflexivity. Qed.

Lemma F2Z_minus_one : F2Z (-1)%js = - unity.
Proof. vm_compute. reflexivity. Qed.

Lemma F2Z_zero : F2Z 0%js = 0.
Proof. reflexivity. Qed.

(** The clamp [Math.max(-1, Math.min(1, x))]. *)
Lemma clamp_spec x :
  valid64 x ->
  let c := Math_max (-1)%js (Math_min 1%js x) in
  c = NaN \/ (finite64 c /\ - unity <= F2Z c <= unity).
Proof.
  intros Hv c. pose proof unity_pos as HU.
  destruct x as [s|s| |s m e].
  - right. assert (c = S754_zero s) as -> by (destruct s; reflexivity).
    split; [split; reflexivity | simpl; lia].
  - right. destruct s.
    + assert (c = (-1)%js) as -> by reflexivity.
      split; [apply finite64_minus_one | rewrite F2Z_minus_one; lia].
    + assert (c = 1%js) as -> by reflexivity.
      split; [apply finite64_one | rewrite F2Z_one; lia].
  - left. reflexivity.
  - right.
    assert (Hx : finite64 (S754_finite s m e)) by (split; [exact Hv | reflexivity]).
    set (x := S754_finite s m e) in *.
    assert (Hmin : exists d, Math_min 1%js x = d /\ finite64 d /\ F2Z d <= unity
                             /\ (d = 1%js \/ d = x)).
    { unfold Math_min. change (is_nan 1%js || is_nan x) with false. cbv iota.
      unfold flt. rewrite (SFltb_F2Z _ _ finite64_one Hx), (SFltb_F2Z _ _ Hx finite64_one).
      rewrite F2Z_one.
      destruct (unity <? F2Z x) eqn:E1.
      - exists 1%js. rewrite F2Z_one. repeat split; auto; lia.
      - apply Z.ltb_ge in E1.
        destruct (F2Z x <? unity) eqn:E2.
        + exists x. repeat split; auto; try lia; try apply Hx.
        + change (is_neg_zero 1%js) with false. cbv iota.
          exists x. repeat split; auto; try lia; try apply Hx. }
    destruct Hmin as (d & Hd & Hdf & Hdle & _). subst c. rewrite Hd.
    unfold Math_max. change (is_nan (-1)%js) with false.
    assert (is_nan d = false) as ->.
    { destruct Hdf as [_ Hf]. destruct d; try discriminate Hf; reflexivity. }
    cbv iota. cbn [orb]. unfold fgt.
    rewrite (SFltb_F2Z _ _ Hdf finite64_minus_one), (SFltb_F2Z _ _ finite64_minus_one Hdf).
    rewrite F2Z_minus_one.
    destruct (F2Z d <? - unity) eqn:E1.
    + split; [apply finite64_minus_one | rewrite F2Z_minus_one; lia].
    + apply Z.ltb_ge in E1. destruct (- unity <? F2Z d) eqn:E2.
      * split; [exact Hdf | lia].
      * change (is_neg_zero (-1)%js) with false. cbv iota.
        split; [apply finite64_minus_one | rewrite F2Z_minus_one; lia].
Qed.

Lemma F2Z_neg_sign x : F2Z x < 0 -> sign_of x = true.
Proof.
  destruct x as [s|s| |s m e]; simpl; try lia.
  assert (0 <= Zpos m * 2 ^ (e + bias)).
  { apply Z.mul_nonneg_nonneg; [lia | apply Z.pow_nonneg; lia]. }
  destruct s; cbn [cond_Zopp]; [reflexivity | lia].
Qed.

Ltac representable_const :=
  split; [vm_compute; intros Hgt; discriminate Hgt | vm_compute; reflexivity].

Lemma representable_32768 : representable 53 1074 (32768 * unity).
Proof. representable_const. Qed.

Lemma representable_32767 : representable 53 1074 (32767 * unity).
Proof. representable_const. Qed.

Lemma intSample_range x :
  valid64 x -> -32768 <= truncate (intSample x) <= 32767.
Proof.
  intros Hv. unfold intSample. cbv zeta.
  destruct (clamp_spec x Hv) as [-> | [Hc Hb]]; [simpl; lia|].
  set (c := Math_max (-1)%js (Math_min 1%js x)) in *.
  pose proof unity_pos as HU.
  unfold flt. rewrite (SFltb_F2Z _ _ Hc finite64_zero), F2Z_zero.
  destruct (F2Z c <? 0) eqn:E.
  - apply Z.ltb_lt in E.
    assert (Hk : finite64 32768%js) by (split; reflexivity).
    assert (HFk : F2Z 32768%js = 32768 * unity) by (vm_compute; reflexivity).
    destruct (fmul_bound c 32768%js (32768 * unity) Hc Hk representable_32768) as (Hf & Hs & Hle).
    + vm_compute. reflexivity.
    + rewrite HFk. nia.
    + rewrite (F2Z_neg_sign c E) in Hs.
      destruct (truncate_bound _ 32768 Hf ltac:(lia) Hle) as (Ht & Hneg & _).
      specialize (Hneg Hs). lia.
  - apply Z.ltb_ge in E.
    assert (Hk : finite64 32767%js) by (split; reflexivity).
    assert (HFk : F2Z 32767%js = 32767 * unity) by (vm_compute; reflexivity).
    destruct (fmul_bound c 32767%js (32767 * unity) Hc Hk representable_32767) as (Hf & Hs & Hle).
    + vm_compute. reflexivity.
    + rewrite HFk. nia.
    + destruct (truncate_bound _ 32767 Hf ltac:(lia) Hle) as (Ht & _ & _). lia.
Qed.

Lemma unit_draw_finite r :
  unit_draw r -> finite64 r /\ 0 <= F2Z r < unity.
Proof.
  intros (Hv & Hle & Hlt).
  assert (Hf : finite64 r).
  { split; [exact Hv|]. destruct r as [s|s| |s m e]; try reflexivity.
    - destruct s; discriminate.
    - discriminate. }
  split; [exact Hf|]. unfold fle in Hle. unfold flt in Hlt.
  rewrite (SFleb_F2Z _ _ finite64_zero Hf), F2Z_zero in Hle.
  rewrite (SFltb_F2Z _ _ Hf finite64_one), F2Z_one in Hlt.
  apply Z.leb_le in Hle. apply Z.ltb_lt in Hlt. lia.
Qed.

Lemma half_double : 2 * half = unity.
Proof. vm_compute. reflexivity. Qed.

Lemma representable_unit : representable 53 1074 unity.
Proof. representable_const. Qed.

Lemma representable_two : representable 53 1074 (2 * unity).
Proof. representable_const. Qed.

Lemma representable_half : representable 53 1074 half.
Proof. representable_const. Qed.

Lemma representable32_half : representable 24 1999 half.
Proof. representable_const. Qed.

Lemma sign_false_nonneg x : sign_of x = false -> 0 <= F2Z x.
Proof.
  destruct x as [s|s| |s m e]; simpl; try lia. intros ->. cbn [cond_Zopp].
  apply Z.mul_nonneg_nonneg; [lia | apply Z.pow_nonneg; lia].
Qed.

(** A white sample, as stored in the buffer, is within [[-0.5, 0.5]]. *)
Lemma whiteSample_half r :
  unit_draw r ->
  finite64 (fround (whiteSample r)) /\ Z.abs (F2Z (fround (whiteSample r))) <= half.
Proof.
  intros Hr. destruct (unit_draw_finite r Hr) as (Hf & H0 & H1).
  pose proof unity_pos as HU. pose proof half_double as Hh.
  unfold whiteSample.
  assert (H2 : finite64 2%js) by (split; reflexivity).
  assert (HF2 : F2Z 2%js = 2 * unity) by (vm_compute; reflexivity).
  assert (Hhalf : finite64 0.5%js) by (split; reflexivity).
  assert (HFh : F2Z 0.5%js = half) by (vm_compute; reflexivity).
  (* r * 2 *)
  destruct (fmul_bound r 2%js (2 * unity) Hf H2 representable_two) as (Ht1 & Hs1 & Hb1).
  { vm_compute. reflexivity. }
  { rewrite HF2. nia. }
  assert (Hpos1 : 0 <= F2Z (r * 2)%js).
  { destruct (finite64_cases r Hf) as [[s ->] | (s & m & e & -> & Hb)].
    - destruct s; simpl; lia.
    - apply sign_false_nonneg. rewrite Hs1. cbn [sign_of].
      destruct s; [|reflexivity].
      exfalso. unfold F2Z in H0. cbn [cond_Zopp] in H0.
      assert (0 < Zpos m * 2 ^ (e + bias)).
      { apply Z.mul_pos_pos; [lia|]. apply Z.pow_pos_nonneg; [lia|].
        destruct (bounded64_inv _ _ Hb) as (He & _). unfold bias. lia. }
      lia. }
  (* ... - 1 *)
  destruct (fsub_bound (r * 2)%js 1%js unity Ht1 finite64_one representable_unit)
    as (Ht2 & Hb2).
  { vm_compute. reflexivity. }
  { rewrite F2Z_one. lia. }
  (* ... * 0.5 *)
  destruct (fmul_bound (r * 2 - 1)%js 0.5%js half Ht2 Hhalf representable_half)
    as (Ht3 & _ & Hb3).
  { vm_compute. reflexivity. }
  { rewrite HFh. nia. }
  (* the store *)
  apply fround_bound; [exact Ht3 | exact representable32_half | | exact Hb3].
  vm_compute. reflexivity.
Qed.

Lemma sample_max_bound (samples : list float) (max0 : float) :
  Forall (fun s => finite64 s /\ Z.abs (F2Z s) <= half) samples ->
  finite64 max0 -> 0 <= F2Z max0 <= half ->
  let max :=
    fold_left (fun max s =>
                 let abs := Math_abs s in
                 if (abs > max)%js then abs else max) samples max0 in
  finite64 max /\ 0 <= F2Z max <= half.
Proof.
  intros Hall. revert max0. induction Hall as [|s samples [Hs Hb] _ IH]; intros max0 Hm Hmb.
  - simpl. split; assumption.
  - cbn [fold_left]. apply IH.
    + destruct (fgt (Math_abs s) max0); [apply finite64_abs; exact Hs | exact Hm].
    + destruct (fgt (Math_abs s) max0); [|exact Hmb].
      unfold Math_abs. rewrite F2Z_abs. lia.
Qed.

Lemma normalizeSamples_small samples :
  Forall (fun s => finite64 s /\ Z.abs (F2Z s) <= half) samples ->
  normalizeSamples samples = samples.
Proof.
  intros Hall. unfold normalizeSamples.
  pose proof (sample_max_bound samples 0%js Hall finite64_zero) as Hmax.
  cbv zeta in Hmax.
  destruct Hmax as (Hf & Hb).
  { rewrite F2Z_zero. pose proof half_double. pose proof unity_pos. lia. }
  cbv zeta.
  match goal with
  | |- context [fold_left ?f samples ?z] => set (max := fold_left f samples z) in *
  end.
  assert (H99 : finite64 0.99%js) by (split; reflexivity).
  assert (HF99 : half < F2Z 0.99%js) by (vm_compute; reflexivity).
  unfold fgt at 1. rewrite (SFltb_F2Z _ _ H99 Hf).
  destruct (F2Z 0.99%js <? F2Z max) eqn:E; [apply Z.ltb_lt in E; lia | reflexivity].
Qed.

(** ** The normalizer on binary32 buffers *)

Lemma round_frac_zero p g b : 0 <= g -> 0 < b -> round_frac p g 0 b = 0.
Proof.
  intros Hg Hb. unfold round_frac. rewrite Z.div_0_l by lia.
  pose proof (ulp_exp_nonneg p g 0 Hg) as Hk.
  assert (Hc : 0 < b * 2 ^ ulp_exp p g 0).
  { apply Z.mul_pos_pos; [lia | apply Z.pow_pos_nonneg; lia]. }
  rewrite rne_exact by (try apply Z.mod_0_l; lia).
  rewrite Z.div_0_l by lia. reflexivity.
Qed.

(** The value of a product of finite numbers. *)
Lemma fmul_value x y :
  finite64 x -> finite64 y ->
  let r := round_frac 53 1074 (Z.abs (F2Z x) * Z.abs (F2Z y)) unity in
  r < 2 ^ (1024 + bias) ->
  finite64 (fmul x y)
  /\ sign_of (fmul x y) = xorb (sign_of x) (sign_of y)
  /\ F2Z (fmul x y) = cond_Zopp (xorb (sign_of x) (sign_of y)) r.
Proof.
  intros Hx Hy r Hov. pose proof unity_pos as HU.
  destruct (finite64_cases x Hx) as [[sx ->] | (sx & mx & ex & -> & Hbx)];
  destruct (finite64_cases y Hy) as [[sy ->] | (sy & my & ey & -> & Hby)];
    try (subst r; rewrite ?Z.mul_0_l, ?Z.mul_0_r in *;
         change (F2Z (S754_zero sx)) with 0 in *;
         try change (F2Z (S754_zero sy)) with 0 in *;
         rewrite ?Z.abs_0, ?Z.mul_0_l, ?Z.mul_0_r;
         rewrite round_frac_zero by lia;
         split; [split; reflexivity|]; split; [reflexivity|];
         cbn [sign_of]; destruct (xorb _ _); reflexivity).
  subst r. rewrite !F2Z_finite_abs in *.
  pose proof (SFmul_encodes sx mx ex sy my ey Hbx Hby) as Henc.
  set (a := Zpos mx * 2 ^ (ex + bias) * (Zpos my * 2 ^ (ey + bias))) in *.
  assert (Ha : 0 <= a).
  { subst a. repeat apply Z.mul_nonneg_nonneg; try lia; apply Z.pow_nonneg; lia. }
  pose proof (round_frac_nonneg 53 1074 ltac:(lia) ltac:(lia) a unity Ha HU) as Hr0.
  destruct (encodes_finite 53 1024 _ _ _ Henc ltac:(lia)) as (Hv & Hf & HF & Hs).
  split; [split; assumption|]. split; [exact Hs | exact HF].
Qed.

(** The value of a finite number stored in a [Float32Array]. *)
Lemma fround_value x :
  finite64 x ->
  let r := round_frac 24 1999 (Z.abs (F2Z x)) 1 in
  r < 2 ^ (128 + bias) ->
  finite64 (fround x) /\ sign_of (fround x) = sign_of x
  /\ F2Z (fround x) = cond_Zopp (sign_of x) r
  /\ representable 24 1999 r.
Proof.
  intros Hx r Hov.
  destruct (finite64_cases x Hx) as [[sx ->] | (sx & mx & ex & -> & Hbx)].
  - subst r. change (F2Z (S754_zero sx)) with 0. rewrite Z.abs_0.
    rewrite round_frac_zero by lia.
    split; [split; reflexivity|]. split; [reflexivity|].
    split; [destruct sx; reflexivity|].
    split; [lia | apply Z.mod_0_l; apply Z.pow_nonzero; [lia|]].
    apply ulp_exp_nonneg. lia.
  - destruct (bounded64_inv _ _ Hbx) as (Hex & _).
    subst r. rewrite F2Z_finite_abs in *.
    pose proof (fround_spec sx mx ex ltac:(unfold bias; lia)) as [Hfin _].
    cbv zeta in Hfin.
    destruct (Hfin Hov) as (Hv & Hf & HF & Hs & Hrep).
    split; [split; assumption|]. split; [exact Hs|]. split; [exact HF | exact Hrep].
Qed.

(** The value of a quotient of finite numbers that does not underflow. *)
Lemma fdiv_value x y :
  finite64 x -> finite64 y -> F2Z x <> 0 -> F2Z y <> 0 ->
  Z.abs (F2Z y) * 2 ^ 1074 <= Z.abs (F2Z x) * unity ->
  let r := round_frac 53 1074 (Z.abs (F2Z x) * unity) (Z.abs (F2Z y)) in
  r < 2 ^ (1024 + bias) ->
  finite64 (fdiv x y)
  /\ sign_of (fdiv x y) = xorb (sign_of x) (sign_of y)
  /\ F2Z (fdiv x y) = cond_Zopp (xorb (sign_of x) (sign_of y)) r.
Proof.
  intros Hx Hy Hx0 Hy0 Hq r Hov. pose proof unity_pos as HU.
  destruct (finite64_cases x Hx) as [[sx ->] | (sx & mx & ex & -> & Hbx)];
    [exfalso; apply Hx0; reflexivity|].
  destruct (finite64_cases y Hy) as [[sy ->] | (sy & my & ey & -> & Hby)];
    [exfalso; apply Hy0; reflexivity|].
  subst r. rewrite !F2Z_finite_abs in *.
  pose proof (SFdiv_encodes sx mx ex sy my ey Hbx Hby Hq) as Henc.
  destruct (bounded64_inv _ _ Hbx) as (Hex & _).
  destruct (bounded64_inv _ _ Hby) as (Hey & _).
  assert (0 < Zpos my * 2 ^ (ey + bias)).
  { apply Z.mul_pos_pos; [lia | apply Z.pow_pos_nonneg; unfold bias; lia]. }
  assert (0 <= Zpos mx * 2 ^ (ex + bias) * unity).
  { repeat apply Z.mul_nonneg_nonneg; try lia; apply Z.pow_nonneg; lia. }
  pose proof (round_frac_nonneg 53 1074 ltac:(lia) ltac:(lia) _ _ H0 H) as Hr0.
  destruct (encodes_finite 53 1024 _ _ _ Henc ltac:(lia)) as (Hv & Hf & HF & Hs).
  split; [split; assumption|]. split; [exact Hs | exact HF].
Qed.

Lemma finite32_fround x : finite32 x -> fround x = x.
Proof.
  intros (Hx & Hrep & Hlt).
  pose proof (fround_value x Hx) as Hv. cbv zeta in Hv.
  rewrite (round_frac_exact 24 1999 ltac:(lia) _ Hrep) in Hv.
  destruct (Hv Hlt) as (Hf & Hs & HF & _).
  apply finite64_eq; [exact Hf | exact Hx | | exact Hs].
  rewrite HF. destruct (finite64_cases x Hx) as [[sx ->] | (sx & mx & ex & -> & Hbx)].
  - destruct sx; reflexivity.
  - rewrite F2Z_finite_abs. reflexivity.
Qed.

Lemma float32_cases x :
  float32 x ->
  x = NaN \/ (exists s, x = S754_infinity s) \/ finite32 x.
Proof.
  intros [Hv Hr]. destruct x as [s|s| |s m e].
  - right. right. split; [split; reflexivity|]. change (F2Z (S754_zero s)) with 0.
    rewrite Z.abs_0. split.
    + split; [lia | apply Z.mod_0_l; apply Z.pow_nonzero; [lia|]].
      apply ulp_exp_nonneg. lia.
    + apply Z.pow_pos_nonneg; unfold bias; lia.
  - right. left. eauto.
  - left. reflexivity.
  - right. right.
    assert (Hx : finite64 (S754_finite s m e)) by (split; [exact Hv | reflexivity]).
    destruct (bounded64_inv _ _ Hv) as (Hex & _).
    pose proof (fround_spec s m e ltac:(unfold bias; lia)) as [Hfin Hinf].
    cbv zeta in Hfin, Hinf. rewrite Hr in Hfin, Hinf.
    destruct (Z.lt_ge_cases (round_frac 24 1999 (Z.pos m * 2 ^ (e + bias)) 1)
                            (2 ^ (128 + bias))) as [Hlt|Hge].
    + destruct (Hfin Hlt) as (_ & _ & HF & _ & Hrep).
      assert (Habs : Z.abs (F2Z (S754_finite s m e))
                     = round_frac 24 1999 (Z.pos m * 2 ^ (e + bias)) 1).
      { rewrite F2Z_finite_abs. unfold F2Z in HF.
        destruct s; cbn [cond_Zopp] in HF; lia. }
      split; [exact Hx|]. rewrite Habs. split; assumption.
    + discriminate (Hinf Hge).
Qed.

Lemma N99_bounds : 2 ^ (bias - 1) <= N99 /\ N99 <= unity.
Proof. split; vm_compute; intros H; discriminate H. Qed.

Lemma FA_above : N99 * (2 ^ 53 + 1) <= FA * 2 ^ 53.
Proof. vm_compute. intros H; discriminate H. Qed.

Lemma FA_representable64 : representable 53 1074 FA.
Proof. representable_const. Qed.

Lemma FA_representable32 : representable 24 1999 FA.
Proof. representable_const. Qed.

Lemma FA_small : FA < 2 ^ (128 + bias).
Proof. vm_compute. reflexivity. Qed.

Lemma FA_lt_unit : FA < unity.
Proof. vm_compute. reflexivity. Qed.

Lemma L99_representable : representable 53 1074 L99.
Proof. representable_const. Qed.

Lemma L99_near : 4 * (FA - L99) < 2 ^ ulp_exp 24 1999 FA.
Proof. vm_compute. reflexivity. Qed.

Lemma L99_le : 0 <= L99 <= FA.
Proof. split; vm_compute; intros H; discriminate H. Qed.

Lemma K_bounds : 0 < K99 <= unity /\ 10 * 67108864 * (unity - K99) <= 7 * unity.
Proof.
  split; [split|]; vm_compute; try reflexivity; intros H; discriminate H.
Qed.

Lemma pow_split a b : 0 <= a -> 0 <= b -> 2 ^ (a + b) = 2 ^ a * 2 ^ b.
Proof. intros. apply Z.pow_add_r; lia. Qed.

(** Rescaling by [0.99 / M] brings [M] to [target], and every smaller
    magnitude to at most [target]. *)
Lemma peak_scaling M x :
  N99 < M < 2 ^ (128 + bias) -> 0 <= x <= M ->
  let C := round_frac 53 1074 (N99 * unity) M in
  let r64 := round_frac 53 1074 (x * C) unity in
  0 <= C <= unity /\ r64 <= FA /\ round_frac 24 1999 r64 1 <= FA
  /\ (x = M -> round_frac 24 1999 r64 1 = FA).
Proof.
  intros [HNM HM] [Hx0 HxM] C r64.
  pose proof unity_pos as HU. destruct N99_bounds as [HNlo HNhi].
  assert (HN0 : 0 < N99).
  { assert (0 < 2 ^ (bias - 1)) by (apply Z.pow_pos_nonneg; unfold bias; lia). lia. }
  assert (HNU : 0 <= N99 * unity) by nia.
  assert (HC0 : 0 <= C) by (apply round_frac_nonneg; lia).
  assert (HCU : C <= unity).
  { apply round_frac_le; [lia | exact HNU | lia | exact representable_unit | nia]. }
  (* the error of the quotient *)
  assert (E1 : 2 ^ 53 * Z.abs (C * M - N99 * unity) <= N99 * unity).
  { pose proof (round_frac_error 53 1074 ltac:(lia) ltac:(lia) (N99 * unity) M HNU ltac:(lia))
      as Herr. fold C in Herr.
    set (q := N99 * unity / M) in *.
    assert (Hq : 2 ^ (bias - 129) <= q).
    { apply Z.div_le_lower_bound; [lia|].
      assert (2 ^ (bias - 129) * 2 ^ (128 + bias) = 2 ^ (bias - 1) * unity).
      { unfold unity. rewrite <- !Z.pow_add_r by (unfold bias; lia). f_equal; lia. }
      assert (0 < 2 ^ (bias - 129)) by (apply Z.pow_pos_nonneg; unfold bias; lia).
      nia. }
    assert (Hq0 : 0 < q).
    { assert (0 < 2 ^ (bias - 129)) by (apply Z.pow_pos_nonneg; unfold bias; lia). lia. }
    pose proof (Zdigits2_ge_pow q (bias - 129) ltac:(unfold bias; lia) Hq) as Hdq.
    pose proof (Zdigits2_bounds q Hq0) as [Hlo _].
    assert (Hulp : ulp_exp 53 1074 q = Zdigits2 q - 53).
    { unfold ulp_exp. unfold bias in Hdq. lia. }
    rewrite Hulp in Herr.
    assert (Hp : 2 ^ (Zdigits2 q - 1) = 2 ^ (Zdigits2 q - 53) * 2 ^ 52).
    { rewrite <- Z.pow_add_r by (unfold bias in Hdq; lia). f_equal; lia. }
    assert (HMq : M * q <= N99 * unity) by (apply Z.mul_div_le; lia).
    assert (0 < 2 ^ (Zdigits2 q - 53))
      by (apply Z.pow_pos_nonneg; unfold bias in Hdq; lia).
    change (2 ^ 53) with 9007199254740992. change (2 ^ 52) with 4503599627370496 in Hp.
    assert (M * (2 ^ (Zdigits2 q - 53) * 4503599627370496) <= M * q)
      by (apply Z.mul_le_mono_nonneg_l; lia).
    lia. }
  assert (HMC : M * C <= FA * unity).
  { pose proof FA_above as HA. change (2 ^ 53) with 9007199254740992 in *.
    assert (N99 * unity * 9007199254740993 <= FA * unity * 9007199254740992) by nia.
    lia. }
  assert (HxC : x * C <= FA * unity) by nia.
  assert (HxC0 : 0 <= x * C) by nia.
  assert (Hr64 : r64 <= FA).
  { apply round_frac_le; [lia | exact HxC0 | lia | exact FA_representable64 | exact HxC]. }
  assert (Hr64n : 0 <= r64) by (apply round_frac_nonneg; lia).
  split; [lia|]. split; [exact Hr64|]. split.
  - apply round_frac_le; [lia | lia | lia | exact FA_representable32 | lia].
  - intros ->.
    assert (HL : L99 <= r64).
    { apply round_frac_ge; [lia | lia | exact HxC0 | lia | exact L99_representable |].
      unfold L99. change (2 ^ 53) with 9007199254740992 in *.
      assert (Hpw : 9007199254740992 * 2 ^ (bias - 53) = unity) by (vm_compute; reflexivity).
      assert (N99 * unity <= unity * unity) by nia.
      assert (9007199254740992 * ((N99 - 2 ^ (bias - 53)) * unity)
              = 9007199254740992 * (N99 * unity) - unity * unity) by nia.
      lia. }
    apply round_near_below; [lia | lia | exact FA_representable32 | lia |].
    pose proof L99_near. lia.
Qed.

(** Rescaling by [0.99 / target] moves no binary32 number. *)
Lemma rescale_identity x :
  representable 24 1999 x -> 
  round_frac 24 1999 (round_frac 53 1074 (x * K99) unity) 1 = x.
Proof.
  intros Hrep. pose proof unity_pos as HU.
  destruct K_bounds as [[HK0 HKU] HKe].
  assert (Hx0 : 0 <= x) by apply Hrep.
  set (y := round_frac 53 1074 (x * K99) unity).
  assert (HxK0 : 0 <= x * K99) by nia.
  assert (Hy0 : 0 <= y) by (apply round_frac_nonneg; lia).
  assert (Hrep64 : representable 53 1074 x) by (apply representable_32_64; exact Hrep).
  assert (Hyx : y <= x).
  { apply round_frac_le; [lia | exact HxK0 | lia | exact Hrep64 | nia]. }
  apply round_near_below; [lia | lia | exact Hrep | lia |].
  set (kx := ulp_exp 24 1999 x).
  assert (Hkx : 1999 <= kx) by (unfold kx, ulp_exp; lia).
  destruct (Z.eq_dec x 0) as [Hz|Hnz].
  { assert (y = 0) by lia. assert (0 < 2 ^ kx) by (apply Z.pow_pos_nonneg; lia). lia. }
  pose proof (Zdigits2_bounds x ltac:(lia)) as [_ Hxhi].
  assert (Hxlt : x < 2 ^ kx * 16777216).
  { change 16777216 with (2 ^ 24). rewrite <- Z.pow_add_r by lia.
    eapply Z.lt_le_trans; [exact Hxhi|]. apply Z.pow_le_mono_r; [lia|].
    unfold kx, ulp_exp. lia. }
  pose proof (round_frac_error 53 1074 ltac:(lia) ltac:(lia) (x * K99) unity HxK0 HU) as Herr.
  fold y in Herr.
  assert (Hk64 : ulp_exp 53 1074 (x * K99 / unity) <= kx - 29).
  { assert (x * K99 / unity <= x) by (apply Z.div_le_upper_bound; nia).
    assert (0 <= x * K99 / unity) by (apply Z.div_pos; lia).
    pose proof (ulp_exp_le 53 1074 (x * K99 / unity) x ltac:(lia)).
    unfold ulp_exp in *. unfold kx. lia. }
  set (Q := 2 ^ (kx - 29)).
  assert (HQ : 0 < Q) by (apply Z.pow_pos_nonneg; lia).
  assert (HP : 2 ^ kx = Q * 536870912).
  { change 536870912 with (2 ^ 29). unfold Q. rewrite <- Z.pow_add_r by lia.
    f_equal; lia. }
  assert (Hpow : 2 ^ ulp_exp 53 1074 (x * K99 / unity) <= Q).
  { apply Z.pow_le_mono_r; lia. }
  assert (Herr' : 2 * (x * K99 - y * unity) <= unity * Q) by nia.
  rewrite HP in *.
  (* by contradiction, in units of [unity] *)
  destruct (Z.lt_ge_cases (4 * (x - y)) (Q * 536870912)) as [Hlt|Hge]; [exact Hlt|exfalso].
  assert (H1 : Q * 536870912 * unity <= 4 * (x - y) * unity)
    by (apply Z.mul_le_mono_nonneg_r; lia).
  assert (H2 : x * (unity - K99) <= Q * 536870912 * 16777216 * (unity - K99))
    by (apply Z.mul_le_mono_nonneg_r; lia).
  assert (H3 : Q * 134217728 * (10 * 67108864 * (unity - K99)) <= Q * 134217728 * (7 * unity))
    by (apply Z.mul_le_mono_nonneg_l; lia).
  nia.
Qed.

Lemma F2Z_sign_abs x : F2Z x = cond_Zopp (sign_of x) (Z.abs (F2Z x)).
Proof.
  destruct x as [s|s| |s m e]; try (destruct s; reflexivity); try reflexivity.
  rewrite F2Z_finite_abs. reflexivity.
Qed.

Lemma abs_cond_Zopp s r : 0 <= r -> Z.abs (cond_Zopp s r) = r.
Proof. destruct s; cbn [cond_Zopp]; lia. Qed.

Lemma finite64_rescale : finite64 rescale /\ sign_of rescale = false.
Proof. split; [split|]; reflexivity. Qed.

Lemma finite64_099 : finite64 0.99%js /\ sign_of 0.99%js = false.
Proof. split; [split|]; reflexivity. Qed.

Lemma finite64_target : finite64 target /\ sign_of target = false.
Proof. split; [split|]; reflexivity. Qed.

(** A second rescaling leaves every finite binary32 sample as it is. *)
Lemma rescale_fixed s : finite32 s -> fround (fmul s rescale) = s.
Proof.
  intros (Hs & Hrep & Hlt).
  destruct finite64_rescale as [Hc Hcs].
  destruct K_bounds as [[HK0 HKU] _]. pose proof unity_pos as HU.
  assert (HabsK : Z.abs (F2Z rescale) = K99) by (fold K99; lia).
  set (x := Z.abs (F2Z s)) in *.
  assert (Hx0 : 0 <= x) by (unfold x; lia).
  pose proof (rescale_identity x Hrep) as Hid.
  set (y := round_frac 53 1074 (x * K99) unity) in *.
  assert (Hy0 : 0 <= y) by (apply round_frac_nonneg; nia).
  assert (Hyx : y <= x).
  { apply round_frac_le; [lia | nia | lia | apply representable_32_64; exact Hrep | nia]. }
  pose proof (fmul_value s rescale Hs Hc) as Hmul. cbv zeta in Hmul.
  fold x in Hmul. rewrite HabsK in Hmul. fold y in Hmul.
  assert (Hov : 2 ^ (128 + bias) <= 2 ^ (1024 + bias))
    by (apply Z.pow_le_mono_r; unfold bias; lia).
  destruct (Hmul ltac:(lia)) as (Hf & Hsg & HF).
  rewrite Hcs, xorb_false_r in Hsg, HF.
  pose proof (fround_value (fmul s rescale) Hf) as Hrd. cbv zeta in Hrd.
  rewrite HF, abs_cond_Zopp, Hid in Hrd by exact Hy0.
  destruct (Hrd Hlt) as (Hf' & Hsg' & HF' & _).
  apply finite64_eq; [exact Hf' | exact Hs | | congruence].
  rewrite HF', Hsg. symmetry. apply F2Z_sign_abs.
Qed.

(** The first rescaling, by [0.99 / M] for a peak [M] above [0.99]. *)
Lemma scaled_sample M s :
  finite64 M -> N99 < F2Z M < 2 ^ (128 + bias) ->
  finite32 s -> Z.abs (F2Z s) <= F2Z M ->
  let s' := fround (fmul s (fdiv 0.99%js M)) in
  finite32 s' /\ Z.abs (F2Z s') <= FA
  /\ (Z.abs (F2Z s) = F2Z M -> Z.abs (F2Z s') = FA).
Proof.
  intros HM [HNM HMlt] (Hs & Hrep & Hlt) Hle s'.
  destruct finite64_099 as [H99 H99s]. pose proof unity_pos as HU.
  destruct N99_bounds as [HNlo HNhi].
  assert (HN0 : 0 < N99).
  { assert (0 < 2 ^ (bias - 1)) by (apply Z.pow_pos_nonneg; unfold bias; lia). lia. }
  set (x := Z.abs (F2Z s)) in *.
  assert (Hx0 : 0 <= x) by (unfold x; lia).
  destruct (peak_scaling (F2Z M) x ltac:(lia) ltac:(lia)) as (HC & Hr64 & Hr32 & Heq).
  set (C := round_frac 53 1074 (N99 * unity) (F2Z M)) in *.
  set (r64 := round_frac 53 1074 (x * C) unity) in *.
  (* the scale *)
  pose proof (fdiv_value 0.99%js M H99 HM) as Hdiv. cbv zeta in Hdiv.
  fold N99 in Hdiv.
  rewrite (Z.abs_eq N99), (Z.abs_eq (F2Z M)) in Hdiv by lia. fold C in Hdiv.
  assert (Hov : 2 ^ (128 + bias) <= 2 ^ (1024 + bias))
    by (apply Z.pow_le_mono_r; unfold bias; lia).
  assert (Hunit : unity < 2 ^ (1024 + bias))
    by (unfold unity; apply Z.pow_lt_mono_r; unfold bias; lia).
  destruct Hdiv as (Hc & Hcs & HFc); try lia.
  { assert (2 ^ (128 + bias) * 2 ^ 1074 <= 2 ^ (bias - 1) * unity).
    { unfold unity. rewrite <- !Z.pow_add_r by (unfold bias; lia).
      apply Z.pow_le_mono_r; unfold bias; lia. }
    assert (0 < 2 ^ 1074) by (apply Z.pow_pos_nonneg; lia).
    nia. }
  set (c := fdiv 0.99%js M) in *.
  assert (HFc' : Z.abs (F2Z c) = C).
  { rewrite HFc. apply abs_cond_Zopp. lia. }
  (* the product *)
  pose proof (fmul_value s c Hs Hc) as Hmul. cbv zeta in Hmul.
  fold x in Hmul. rewrite HFc' in Hmul. fold r64 in Hmul.
  pose proof FA_small as HFA.
  destruct (Hmul ltac:(lia)) as (Hf & Hsg & HF).
  assert (Hr64n : 0 <= r64) by (apply round_frac_nonneg; nia).
  (* the store *)
  pose proof (fround_value (fmul s c) Hf) as Hrd. cbv zeta in Hrd.
  rewrite HF, abs_cond_Zopp in Hrd by exact Hr64n.
  destruct (Hrd ltac:(lia)) as (Hf' & Hsg' & HF' & Hrep').
  assert (Hr32n : 0 <= round_frac 24 1999 r64 1) by (apply round_frac_nonneg; lia).
  assert (Habs : Z.abs (F2Z s') = round_frac 24 1999 r64 1).
  { unfold s'. rewrite HF'. apply abs_cond_Zopp. exact Hr32n. }
  split; [|split].
  - split; [exact Hf'|]. rewrite Habs. split; [exact Hrep' | lia].
  - rewrite Habs. exact Hr32.
  - intros HxM. rewrite Habs. apply Heq. exact HxM.
Qed.

Lemma peak_from_cons max0 s samples :
  peak_from max0 (s :: samples)
  = peak_from (if fgt (Math_abs s) max0 then Math_abs s else max0) samples.
Proof. reflexivity. Qed.

Lemma finite32_finite64 s : finite32 s -> finite64 s.
Proof. intros H. apply H. Qed.

Lemma sign_abs x : sign_of (SFabs x) = false.
Proof. destruct x; reflexivity. Qed.

Lemma peak_from_finite samples : forall max0,
  Forall (fun s => s = NaN \/ finite32 s) samples ->
  finite64 max0 -> sign_of max0 = false ->
  let r := peak_from max0 samples in
  finite64 r /\ sign_of r = false /\ F2Z max0 <= F2Z r
  /\ Forall (fun s => finite32 s -> Z.abs (F2Z s) <= F2Z r) samples
  /\ (r = max0 \/ exists s, In s samples /\ finite32 s /\ r = Math_abs s).
Proof.
  induction samples as [|s samples IH]; intros max0 Hall Hm Hsg.
  - cbn. repeat split; auto; try apply Hm. lia.
  - inversion Hall as [|? ? Hs Hall']; subst.
    rewrite peak_from_cons. cbv zeta.
    destruct Hs as [-> | Hs32].
    + (* NaN is skipped *)
      assert (fgt (Math_abs NaN) max0 = false) as ->.
      { unfold fgt, Math_abs, SFltb. destruct max0; reflexivity. }
      destruct (IH max0 Hall' Hm Hsg) as (Hf & Hs & Hle & Hb & Hat).
      split; [exact Hf|]. split; [exact Hs|]. split; [exact Hle|]. split.
      * constructor; [|exact Hb]. intros [[_ Hfin] _]. discriminate Hfin.
      * destruct Hat as [Hat | (s & Hin & Hs32 & Hat)]; [left; exact Hat|].
        right. exists s. split; [right; exact Hin | split; assumption].
    + pose proof (finite32_finite64 s Hs32) as Hs64.
      pose proof (finite64_abs s Hs64) as Ha.
      assert (Hnan : is_nan s = false).
      { destruct Hs64 as [_ Hfin]. destruct s; try reflexivity. discriminate Hfin. }
      unfold fgt, Math_abs. rewrite (SFltb_F2Z _ _ Hm Ha), F2Z_abs.
      destruct (F2Z max0 <? Z.abs (F2Z s)) eqn:E.
      * apply Z.ltb_lt in E.
        destruct (IH (SFabs s) Hall' Ha (sign_abs s)) as (Hf & Hs & Hle & Hb & Hat).
        rewrite F2Z_abs in Hle.
        split; [exact Hf|]. split; [exact Hs|]. split; [lia|]. split.
        -- constructor; [intros _; exact Hle | exact Hb].
        -- right. destruct Hat as [Hat | (s0 & Hin & Hs0 & Hat)].
           ++ exists s. split; [left; reflexivity | split; assumption].
           ++ exists s0. split; [right; exact Hin | split; assumption].
      * apply Z.ltb_ge in E.
        destruct (IH max0 Hall' Hm Hsg) as (Hf & Hs & Hle & Hb & Hat).
        split; [exact Hf|]. split; [exact Hs|]. split; [exact Hle|]. split.
        -- constructor; [intros _; lia | exact Hb].
        -- destruct Hat as [Hat | (s0 & Hin & Hs0 & Hat)]; [left; exact Hat|].
           right. exists s0. split; [right; exact Hin | split; assumption].
Qed.

Lemma peak_from_top samples :
  peak_from (S754_infinity false) samples = S754_infinity false.
Proof.
  induction samples as [|s samples IH]; [reflexivity|].
  rewrite peak_from_cons.
  assert (fgt (Math_abs s) (S754_infinity false) = false) as ->; [|exact IH].
  destruct s as [sg|sg| |sg m e]; reflexivity.
Qed.

Lemma peak_from_infinite samples : forall max0,
  Forall float32 samples -> Exists (fun s => is_infinite s = true) samples ->
  finite64 max0 ->
  peak_from max0 samples = S754_infinity false.
Proof.
  induction samples as [|s samples IH]; intros max0 Hall Hex Hm.
  - inversion Hex.
  - inversion Hall as [|? ? Hs Hall']; subst. rewrite peak_from_cons.
    destruct (is_infinite s) eqn:Hinf.
    + destruct s as [sg|sg| |sg m e]; try discriminate Hinf.
      assert (fgt (Math_abs (S754_infinity sg)) max0 = true) as ->.
      { destruct Hm as [_ Hfin]. destruct max0 as [s0|s0| |s0 m0 e0];
          try discriminate Hfin; reflexivity. }
      apply peak_from_top.
    + assert (Hex' : Exists (fun s => is_infinite s = true) samples).
      { inversion Hex; subst; [congruence | assumption]. }
      apply IH; [exact Hall' | exact Hex' |].
      destruct (float32_cases s Hs) as [-> | [[sg ->] | Hs32]].
      * assert (fgt (Math_abs NaN) max0 = false) as ->; [|exact Hm].
        unfold fgt, Math_abs, SFltb. destruct max0; reflexivity.
      * discriminate Hinf.
      * destruct (fgt (Math_abs s) max0); [|exact Hm].
        apply finite64_abs, Hs32.
Qed.

Lemma not_infinite_cases samples :
  Forall float32 samples -> ~ Exists (fun s => is_infinite s = true) samples ->
  Forall (fun s => s = NaN \/ finite32 s) samples.
Proof.
  intros Hall Hno. induction Hall as [|s samples Hs _ IH]; constructor.
  - destruct (float32_cases s Hs) as [-> | [[sg ->] | Hs32]]; auto.
    exfalso. apply Hno. left. reflexivity.
  - apply IH. intros H. apply Hno. right. exact H.
Qed.

Lemma map_fixed {A} (f : A -> A) l : Forall (fun x => f x = x) l -> map f l = l.
Proof. induction 1 as [|x l Hx _ IH]; [reflexivity|]. cbn. rewrite Hx, IH. reflexivity. Qed.

Lemma peak_of_zeros samples :
  Forall (fun s => s = NaN \/ exists sg, s = S754_zero sg) samples ->
  peak samples = 0%js.
Proof.
  unfold peak. fold (peak_from 0%js samples).
  induction 1 as [|s samples Hs _ IH]; [reflexivity|].
  rewrite peak_from_cons.
  assert (fgt (Math_abs s) 0%js = false) as ->; [|exact IH].
  destruct Hs as [-> | [sg ->]]; reflexivity.
Qed.

Lemma normalizeSamples_peak samples :
  normalizeSamples samples =
  if fgt (peak samples) 0.99%js
  then map (fun s => fround (s * (0.99 / peak samples))%js) samples
  else samples.
Proof. reflexivity. Qed.

Lemma Exists_infinite_dec samples :
  Exists (fun s => is_infinite s = true) samples
  \/ ~ Exists (fun s => is_infinite s = true) samples.
Proof.
  induction samples as [|s samples [IH|IH]].
  - right. intros H. inversion H.
  - left. right. exact IH.
  - destruct (is_infinite s) eqn:E.
    + left. left. exact E.
    + right. intros H. inversion H; subst; [congruence | contradiction].
Qed.

(** The buffer after a rescaling by [0 = 0.99 / Infinity]. *)
Lemma normalize_infinite samples :
  Forall float32 samples ->
  Forall (fun s => s = NaN \/ exists sg, s = S754_zero sg)
    (map (fun s => fround (s * (0.99 / S754_infinity false))%js) samples).
Proof.
  intros Hall. apply List.Forall_map. eapply List.Forall_impl; [|exact Hall].
  intros s _. cbn beta.
  change (0.99 / S754_infinity false)%js with (S754_zero false).
  destruct s as [sg|sg| |sg m e].
  - right. exists (xorb sg false). reflexivity.
  - left. reflexivity.
  - left. reflexivity.
  - right. exists (xorb sg false). reflexivity.
Qed.

Lemma normalizeSamples_idempotent samples :
  Forall float32 samples ->
  normalizeSamples (normalizeSamples samples) = normalizeSamples samples.
Proof.
  intros Hall.
  destruct (Exists_infinite_dec samples) as [Hinf|Hfin].
  - (* an infinite sample: everything becomes zero or NaN *)
    assert (Hpk : peak samples = S754_infinity false).
    { apply (peak_from_infinite samples 0%js Hall Hinf). split; reflexivity. }
    rewrite (normalizeSamples_peak samples), Hpk.
    change (fgt (S754_infinity false) 0.99%js) with true. cbv iota.
    pose proof (normalize_infinite samples Hall) as Hz.
    set (l := map _ samples) in *.
    rewrite normalizeSamples_peak, (peak_of_zeros l Hz). reflexivity.
  - pose proof (not_infinite_cases samples Hall Hfin) as Hcases.
    destruct (peak_from_finite samples 0%js Hcases ltac:(split; reflexivity) eq_refl)
      as (HM & HMs & _ & Hbound & Hat).
    change (peak_from 0%js samples) with (peak samples) in HM, HMs, Hbound, Hat.
    set (M := peak samples) in *.
    destruct finite64_099 as [H99 _].
    rewrite (normalizeSamples_peak samples). fold M.
    destruct (fgt M 0.99%js) eqn:Hgt; [|rewrite normalizeSamples_peak; fold M; rewrite Hgt; reflexivity].
    unfold fgt in Hgt. rewrite (SFltb_F2Z _ _ H99 HM) in Hgt. apply Z.ltb_lt in Hgt.
    fold N99 in Hgt.
    destruct N99_bounds as [HNlo _].
    assert (HN0 : 0 < N99).
    { assert (0 < 2 ^ (bias - 1)) by (apply Z.pow_pos_nonneg; unfold bias; lia). lia. }
    destruct Hat as [Hat | (sj & Hin & Hsj & Hat)].
    { rewrite Hat in Hgt. change (F2Z 0%js) with 0 in Hgt. lia. }
    assert (HMj : F2Z M = Z.abs (F2Z sj)).
    { rewrite Hat. unfold Math_abs. apply F2Z_abs. }
    assert (HMlt : F2Z M < 2 ^ (128 + bias)) by (rewrite HMj; apply Hsj).
    set (g := fun s => fround (s * (0.99 / M))%js).
    (* the rescaled buffer *)
    assert (Hl' : Forall (fun s' => s' = NaN \/ (finite32 s' /\ Z.abs (F2Z s') <= FA))
                    (map g samples)).
    { apply List.Forall_map. rewrite List.Forall_forall in Hcases, Hbound. apply List.Forall_forall.
      intros s Hs. destruct (Hcases s Hs) as [-> | Hs32].
      - left. reflexivity.
      - right. destruct (scaled_sample M s HM ltac:(lia) Hs32 (Hbound s Hs Hs32))
          as (H1 & H2 & _).
        split; assumption. }
    assert (Hj : In (g sj) (map g samples) /\ finite32 (g sj) /\ Z.abs (F2Z (g sj)) = FA).
    { split; [apply in_map; exact Hin|].
      rewrite List.Forall_forall in Hbound.
      destruct (scaled_sample M sj HM ltac:(lia) Hsj ltac:(lia)) as (H1 & _ & H3).
      split; [exact H1 | apply H3; lia]. }
    destruct Hj as (Hjin & Hj32 & HjA).
    set (l := map g samples) in *.
    assert (Hl'' : Forall (fun s => s = NaN \/ finite32 s) l).
    { eapply List.Forall_impl; [|exact Hl']. intros s [H|[H _]]; auto. }
    destruct (peak_from_finite l 0%js Hl'' ltac:(split; reflexivity) eq_refl)
      as (HM2 & HMs2 & _ & Hbound2 & Hat2).
    change (peak_from 0%js l) with (peak l) in HM2, HMs2, Hbound2, Hat2.
    assert (Hpk : peak l = target).
    { destruct finite64_target as [Ht Hts].
      apply finite64_eq; [exact HM2 | exact Ht | | congruence].
      fold FA. rewrite List.Forall_forall in Hbound2, Hl'.
      pose proof (Hbound2 _ Hjin Hj32) as Hge.
      destruct Hat2 as [Hat2 | (s2 & Hin2 & Hs2 & Hat2)].
      - rewrite Hat2 in Hge. change (F2Z 0%js) with 0 in Hge.
        pose proof L99_le. pose proof L99_near.
        assert (0 < FA) by (vm_compute; reflexivity). lia.
      - assert (F2Z (peak l) = Z.abs (F2Z s2)).
        { rewrite Hat2. unfold Math_abs. apply F2Z_abs. }
        destruct (Hl' s2 Hin2) as [-> | [_ Hle2]].
        + destruct Hs2 as [[_ Hf] _]. discriminate Hf.
        + lia. }
    rewrite (normalizeSamples_peak l), Hpk.
    change (fgt target 0.99%js) with true. cbv iota.
    apply map_fixed. eapply List.Forall_impl; [|exact Hl''].
    intros s [-> | Hs32]; [reflexivity|].
    apply rescale_fixed. exact Hs32.
Qed.

(** ** The encoder, the white filter and the peak *)

Lemma pcm16_truncate x :
  valid64 x ->
  -32768 <= truncate (intSample x) <= 32767 /\ pcm16 x = truncate (intSample x).
Proof.
  intros Hv. pose proof (intSample_range x Hv) as H.
  split; [exact H | apply ToInt16_no_wrap; exact H].
Qed.

Lemma getInt16_pcmBytes x rest :
  -32768 <= pcm16 x <= 32767 ->
  getInt16 (pcmBytes x ++ rest) 0 = pcm16 x.
Proof.
  intros H. unfold getInt16, getUint16, byteAt, pcmBytes, le16.
  set (v := pcm16 x mod 65536). cbn.
  assert (Hv : 0 <= v < 65536) by (apply Z.mod_pos_bound; lia).
  assert (Hu : v mod 256 + 256 * (v / 256) = v).
  { pose proof (Z.div_mod v 256 ltac:(lia)). lia. }
  rewrite Hu. subst v.
  destruct (Z.le_gt_cases 0 (pcm16 x)).
  - rewrite Z.mod_small by lia.
    destruct (32768 <=? pcm16 x) eqn:E; [apply Z.leb_le in E; lia | reflexivity].
  - replace (pcm16 x mod 65536) with (pcm16 x + 65536)
      by (apply Z.mod_unique with (q := -1); lia).
    destruct (32768 <=? pcm16 x + 65536) eqn:E; [lia | apply Z.leb_gt in E; lia].
Qed.

Lemma getInt16_drop bytes offset :
  getInt16 bytes offset = getInt16 (drop offset bytes) 0.
Proof.
  unfold getInt16, getUint16, byteAt. rewrite !lookup_drop.
  rewrite Nat.add_0_r. reflexivity.
Qed.

Lemma drop_flat_map_pcm samples i x :
  samples !! i = Some x ->
  exists rest, drop (2 * i) (flat_map pcmBytes samples) = pcmBytes x ++ rest.
Proof.
  revert i. induction samples as [|y ys IH]; intros i H; [discriminate|].
  destruct i as [|i].
  - injection H as ->. exists (flat_map pcmBytes ys). reflexivity.
  - destruct (IH i H) as [rest Hrest]. exists rest.
    replace (2 * Datatypes.S i)%nat with (Datatypes.S (Datatypes.S (2 * i))) by lia.
    exact Hrest.
Qed.

Lemma clamp_between x :
  valid64 x ->
  let sample := Math_max (-1)%js (Math_min 1%js x) in
  is_nan sample = true \/ (fle (-1)%js sample = true /\ fle sample 1%js = true).
Proof.
  intros Hv sample. destruct (clamp_spec x Hv) as [H | [Hf Hb]].
  - left. fold sample in H. rewrite H. reflexivity.
  - right. fold sample in Hf, Hb. unfold fle.
    rewrite (SFleb_F2Z _ _ finite64_minus_one Hf), (SFleb_F2Z _ _ Hf finite64_one).
    rewrite F2Z_minus_one, F2Z_one. split; apply Z.leb_le; lia.
Qed.

Lemma finite64_half : finite64 0.5%js.
Proof. split; reflexivity. Qed.

Lemma whiteSample_le_half r :
  unit_draw r -> fle (Math_abs (fround (whiteSample r))) 0.5%js = true.
Proof.
  intros Hr. destruct (whiteSample_half r Hr) as [Hf Hb].
  unfold fle, Math_abs.
  rewrite (SFleb_F2Z _ _ (finite64_abs _ Hf) finite64_half), F2Z_abs.
  apply Z.leb_le. exact Hb.
Qed.

Lemma unit_draws_draws w n : unit_draws w -> Forall unit_draw (draws w n).
Proof.
  intros Hw. unfold draws. apply List.Forall_map, List.Forall_forall.
  intros i _. apply Hw.
Qed.

Lemma world0_unit_draws : unit_draws world0.
Proof.
  intros i. cbn [random world0]. unfold sampleRandom.
  do 12 (destruct i as [|i]; [split; [|split]; reflexivity|]).
  split; [|split]; reflexivity.
Qed.

Lemma peak_is_maximum (samples : list float) :
  Forall float32 samples ->
  (forall s, In s samples -> is_nan s = false ->
             fle (Math_abs s) (peak samples) = true)
  /\ (peak samples = 0%js \/ exists s, In s samples /\ peak samples = Math_abs s).
Proof.
  intros Hall.
  destruct (Exists_infinite_dec samples) as [Hinf|Hfin].
  - assert (Hpk : peak samples = S754_infinity false).
    { apply (peak_from_infinite samples 0%js Hall Hinf). split; reflexivity. }
    rewrite Hpk. split.
    + intros s _ Hs. destruct s as [sg|sg| |sg m e]; try reflexivity. discriminate Hs.
    + right. apply List.Exists_exists in Hinf. destruct Hinf as (s & Hin & Hs).
      exists s. split; [exact Hin|].
      destruct s as [sg|sg| |sg m e]; try discriminate Hs. reflexivity.
  - pose proof (not_infinite_cases samples Hall Hfin) as Hcases.
    destruct (peak_from_finite samples 0%js Hcases ltac:(split; reflexivity) eq_refl)
      as (HM & _ & _ & Hbound & Hat).
    change (peak_from 0%js samples) with (peak samples) in HM, Hbound, Hat.
    rewrite List.Forall_forall in Hcases, Hbound.
    split.
    + intros s Hin Hs. destruct (Hcases s Hin) as [-> | Hs32]; [discriminate Hs|].
      unfold fle, Math_abs.
      rewrite (SFleb_F2Z _ _ (finite64_abs _ (finite32_finite64 s Hs32)) HM), F2Z_abs.
      apply Z.leb_le. apply Hbound; assumption.
    + destruct Hat as [Hat | (s & Hin & _ & Hat)]; [left; exact Hat|].
      right. exists s. split; assumption.
Qed.

(** * The claims *)

(** ** C1: chunked generation

    Claim C1.  For White, Pink, Brown, Blue, Violet and Orange noise, the
    chunk loop of [generateNoise], which hands the state returned by one
    chunk call to the next and starts from no state, fills the buffer with
    exactly the samples that a single call of the filter over the whole
    length returns, for every positive chunk size and the same random
    draws; both runs consume the same number of draws. *)
Theorem chunked_generation_equivalence noiseType chunkSize totalSamples w :
  threaded noiseType ->
  0 < chunkSize ->
  0 <= totalSamples <= MAX_LENGTH ->
  exists samples state w1 w2,
    generateChunk noiseType (Z.to_nat totalSamples) None w = (Normal (samples, state), w1)
    /\ generateSamples chunkSize noiseType totalSamples w = (Normal samples, w2)
    /\ drawn w1 = drawn w2
    /\ length samples = Z.to_nat totalSamples.
Proof.
  intros Ht Hc HT.
  destruct (threaded_kernel noiseType Ht) as (S & init & step & Hs).
  set (k := {| kstate := S; kinit := init; kpiece := scan step |}) in *.
  assert (Hl : kernel_length k) by (intros s rs; apply scan_length).
  destruct (Hs (Z.to_nat totalSamples) None w ltac:(lia)) as (st' & bufs1 & Hone & _).
  destruct (generateSamples_chunked k noiseType chunkSize totalSamples w Hs Hl Hc HT)
    as (bufs2 & Hmany).
  pose proof (ceil_div_spec totalSamples chunkSize Hc) as Hcd.
  simpl kpiece in *. simpl kinit in *.
  rewrite chunked_scan in Hmany by (rewrite draws_length; nia).
  eexists _, _, _, _. split; [exact Hone|]. split; [exact Hmany|].
  split; [reflexivity|]. now rewrite scan_length, draws_length.
Qed.

Lemma chunked_generation_equivalence_witness :
  exists samples state w1 w2,
    generateChunk "pink" (Z.to_nat 10) None world0 = (Normal (samples, state), w1)
    /\ generateSamples 4 "pink" 10 world0 = (Normal samples, w2)
    /\ drawn w1 = drawn w2 /\ length samples = Z.to_nat 10.
Proof.
  apply (chunked_generation_equivalence "pink" 4 10 world0).
  - right. left. reflexivity.
  - lia.
  - vm_compute. split; discriminate.
Defined.

(** ** C2: unknown noise type

    Claim C2, counterexample.  [generateNoise "unknown" 5] fails with the
    unknown-type error only after the sample buffer of 13230000 elements
    has been allocated: the host records that allocation. *)
Lemma unknown_type_allocates_first :
  exists w',
    generateNoise "unknown" 5%js world0 = (Throw UnknownNoiseType, w')
    /\ allocated w' = [Float32Buffer 13230000]
    /\ allocated w' <> allocated world0.
Proof.
  exists (after [Float32Buffer 13230000] 0 world0).
  rewrite (totalSamples_encoded "unknown" 5%js 13230000) by (vm_compute; reflexivity).
  rewrite generateEncoded_unsupported
    by (first [exact unknown_unsupported | unfold MAX_LENGTH; lia]).
  split; [reflexivity|]. split; [reflexivity | discriminate].
Qed.

(** Claim C2, amended.  When the noise type is none of the seven of the
    [switch], the error is raised by the [default] branch inside the first
    iteration of the chunk loop, after the buffer for all the samples has
    been allocated; when the sample count is zero the loop body never runs
    and no error is raised at all. *)
Theorem unknown_noise_type_fails_in_first_chunk noiseType duration n w :
  ~ supported noiseType ->
  totalSamplesOf duration = Int n ->
  0 <= n <= MAX_LENGTH ->
  (1 <= n ->
     generateNoise noiseType duration w =
     (Throw UnknownNoiseType, after [Float32Buffer n] 0 w))
  /\ (n = 0 -> exists bytes w', generateNoise noiseType duration w = (Normal bytes, w')).
Proof.
  intros Hns Htotal Hn.
  rewrite (totalSamples_encoded _ _ _ Htotal). split.
  - intros H1. apply generateEncoded_unsupported; [exact Hns | lia].
  - intros ->. rewrite generateEncoded_zero. eauto.
Qed.

Lemma unknown_noise_type_fails_in_first_chunk_witness :
  generateNoise "unknown" 5%js world0 =
  (Throw UnknownNoiseType, after [Float32Buffer 13230000] 0 world0).
Proof.
  apply (unknown_noise_type_fails_in_first_chunk "unknown" 5%js 13230000 world0).
  - exact unknown_unsupported.
  - vm_compute. reflexivity.
  - unfold MAX_LENGTH. lia.
  - lia.
Defined.

(** ** C3: sample counts that are not positive

    Claim C3, counterexample.  [generateNoise "brown" 0] does not fail: it
    returns the 44 bytes of a container with no samples. *)
Lemma zero_samples_produce_a_file :
  generateNoise "brown" 0%js world0 =
  (Normal [82; 73; 70; 70; 36; 0; 0; 0; 87; 65; 86; 69; 102; 109; 116; 32;
           16; 0; 0; 0; 1; 0; 1; 0; 68; 172; 0; 0; 136; 88; 1; 0; 2; 0; 16; 0;
           100; 97; 116; 97; 0; 0; 0; 0],
   after [ByteBuffer 44; Float32Buffer 0] 0 world0).
Proof. vm_compute. reflexivity. Qed.

(** Claim C3, amended.  There is no check of the sample count: a negative
    count makes the allocation of the sample buffer fail with a
    [RangeError], and a count of zero produces a container of 44 bytes with
    an empty data chunk. *)
Theorem nonpositive_sample_count noiseType duration n w :
  totalSamplesOf duration = Int n ->
  n <= 0 ->
  (n < 0 -> generateNoise noiseType duration w = (Throw RangeError, w))
  /\ (n = 0 ->
      generateNoise noiseType duration w =
      (Normal (wavHeader SAMPLE_RATE 0), after [ByteBuffer 44; Float32Buffer 0] 0 w)).
Proof.
  intros Htotal Hn. rewrite (totalSamples_encoded _ _ _ Htotal). split.
  - apply generateEncoded_negative.
  - intros ->. apply generateEncoded_zero.
Qed.

Lemma nonpositive_sample_count_witness :
  generateNoise "brown" (-1)%js world0 = (Throw RangeError, world0)
  /\ generateNoise "brown" 0%js world0 =
     (Normal (wavHeader SAMPLE_RATE 0), after [ByteBuffer 44; Float32Buffer 0] 0 world0).
Proof.
  split.
  - apply (nonpositive_sample_count "brown" (-1)%js (-2646000) world0);
      [vm_compute; reflexivity | lia | lia].
  - apply (nonpositive_sample_count "brown" 0%js 0 world0);
      [vm_compute; reflexivity | lia | lia].
Defined.

(** ** C4: sample count and encoded length

    Claim C4, counterexample.  For a duration of 0.03125 minutes (1.875
    seconds) the product with the sample rate is 82687.5: rounding gives
    82688, but [generateNoise] produces 82687 samples and 165418 bytes.
    For one second of white noise the output has 88244 bytes, not 44144. *)
Lemma sample_count_is_floored :
  roundedSamplesOf 0.03125%js = Int 82688
  /\ totalSamplesOf 0.03125%js = Int 82687
  /\ (exists samples w1 bytes w2,
        generateSamples CHUNK_SIZE "white" 82687 world0 = (Normal samples, w1)
        /\ Z.of_nat (length samples) = 82687
        /\ generateNoise "white" 0.03125%js world0 = (Normal bytes, w2)
        /\ Z.of_nat (length bytes) = 165418)
  /\ (exists bytes w2,
        generateNoise "white" (1 / 60)%js world0 = (Normal bytes, w2)
        /\ Z.of_nat (length bytes) = 88244
        /\ Z.of_nat (length bytes) <> 44144).
Proof.
  split; [vm_compute; reflexivity|]. split; [vm_compute; reflexivity|]. split.
  - rewrite (totalSamples_encoded "white" 0.03125%js 82687) by (vm_compute; reflexivity).
    destruct (generateEncoded_sizes "white" 82687 world0)
      as (samples & w1 & bytes & w2 & H1 & H2 & H3 & H4).
    + left. left. reflexivity.
    + lia.
    + unfold MAX_LENGTH. lia.
    + exists samples, w1, bytes, w2.
      split; [exact H1|]. split; [lia|]. split; [exact H3 | exact H4].
  - rewrite (totalSamples_encoded "white" (1 / 60)%js 44100) by (vm_compute; reflexivity).
    destruct (generateEncoded_sizes "white" 44100 world0)
      as (samples & w1 & bytes & w2 & H1 & H2 & H3 & H4).
    + left. left. reflexivity.
    + lia.
    + unfold MAX_LENGTH. lia.
    + exists bytes, w2. split; [exact H3|]. split; lia.
Qed.

(** Claim C4, amended.  For every supported noise type the sample buffer has
    exactly [n] samples, where [n] is the floor (not the rounding) of
    [SAMPLE_RATE * duration * 60], and the encoded output has exactly
    [44 + 2 * n] bytes; one second of white noise gives 44100 samples and
    88244 bytes (not 44144). *)
Theorem generated_sample_count_and_length noiseType duration n w :
  supported noiseType ->
  totalSamplesOf duration = Int n ->
  0 <= n ->
  44 + n * 2 <= MAX_LENGTH ->
  exists samples w1 bytes w2,
    generateSamples CHUNK_SIZE noiseType n w = (Normal samples, w1)
    /\ Z.of_nat (length samples) = n
    /\ generateNoise noiseType duration w = (Normal bytes, w2)
    /\ Z.of_nat (length bytes) = 44 + 2 * n.
Proof.
  intros Hs Htotal Hn Hmax.
  rewrite (totalSamples_encoded _ _ _ Htotal).
  destruct (generateEncoded_sizes noiseType n w Hs Hn Hmax)
    as (samples & w1 & bytes & w2 & H1 & H2 & H3 & H4).
  exists samples, w1, bytes, w2.
  split; [exact H1|]. split; [lia|]. split; [exact H3 | exact H4].
Qed.

Lemma generated_sample_count_and_length_witness :
  exists samples w1 bytes w2,
    generateSamples CHUNK_SIZE "white" 44100 world0 = (Normal samples, w1)
    /\ Z.of_nat (length samples) = 44100
    /\ generateNoise "white" (1 / 60)%js world0 = (Normal bytes, w2)
    /\ Z.of_nat (length bytes) = 88244.
Proof.
  apply (generated_sample_count_and_length "white" (1 / 60)%js 44100 world0).
  - left. left. reflexivity.
  - vm_compute. reflexivity.
  - lia.
  - unfold MAX_LENGTH. lia.
Defined.

(** ** C5: conversion to 16-bit PCM

    Claim C5.  For every buffer of numbers, [createWavFile] writes, for the
    sample at index [i], the clamp of the sample to [[-1, 1]] multiplied by
    32768 when negative and by 32767 otherwise, truncated toward zero, as
    two bytes in little-endian order at offset [44 + 2 * i]; the integer is
    always within [[-32768, 32767]], so that [setInt16] never wraps. *)
Theorem pcm_samples_stay_in_int16 (samples : list float) sampleRate w :
  Forall valid64 samples ->
  44 + Z.of_nat (length samples) * 2 <= MAX_LENGTH ->
  exists bytes w',
    createWavFile samples sampleRate w = (Normal bytes, w')
    /\ forall (i : nat) x, samples !! i = Some x ->
         let sample := Math_max (-1)%js (Math_min 1%js x) in
         let scaled := if (sample < 0)%js then (sample * 32768)%js else (sample * 32767)%js in
         (is_nan sample = true \/ (fle (-1)%js sample = true /\ fle sample 1%js = true))
         /\ -32768 <= truncate scaled <= 32767
         /\ getInt16 bytes (44 + 2 * i) = truncate scaled
         /\ bytes !! (44 + 2 * i)%nat = Some (truncate scaled mod 65536 mod 256)
         /\ bytes !! (44 + 2 * i + 1)%nat = Some (truncate scaled mod 65536 / 256).
Proof.
  intros Hall Hlen. eexists _, _. split; [apply createWavFile_bytes; exact Hlen|].
  intros i x Hx sample scaled.
  assert (Hv : valid64 x).
  { eapply Forall_lookup_1; [exact Hall | exact Hx]. }
  destruct (pcm16_truncate x Hv) as [Hr Hp].
  change (intSample x) with scaled in Hr, Hp.
  destruct (drop_flat_map_pcm samples i x Hx) as [rest Hrest].
  assert (Hdrop : drop (44 + 2 * i)
                    (wavHeader sampleRate (Z.of_nat (length samples))
                     ++ flat_map pcmBytes samples) = pcmBytes x ++ rest).
  { rewrite drop_app_add' by reflexivity. exact Hrest. }
  split; [apply clamp_between; exact Hv|]. split; [exact Hr|]. split; [|split].
  - rewrite getInt16_drop, Hdrop, getInt16_pcmBytes by lia. exact Hp.
  - rewrite <- (Nat.add_0_r (44 + 2 * i)), <- lookup_drop, Hdrop.
    unfold pcmBytes, le16. rewrite Hp. reflexivity.
  - rewrite <- lookup_drop, Hdrop.
    unfold pcmBytes, le16. rewrite Hp. reflexivity.
Qed.

Lemma pcm_samples_stay_in_int16_witness :
  exists bytes w',
    createWavFile [0.99999%js; (-1)%js; 0.5%js] 44100 world0 = (Normal bytes, w')
    /\ forall (i : nat) x, [0.99999%js; (-1)%js; 0.5%js] !! i = Some x ->
         let sample := Math_max (-1)%js (Math_min 1%js x) in
         let scaled := if (sample < 0)%js then (sample * 32768)%js else (sample * 32767)%js in
         (is_nan sample = true \/ (fle (-1)%js sample = true /\ fle sample 1%js = true))
         /\ -32768 <= truncate scaled <= 32767
         /\ getInt16 bytes (44 + 2 * i) = truncate scaled
         /\ bytes !! (44 + 2 * i)%nat = Some (truncate scaled mod 65536 mod 256)
         /\ bytes !! (44 + 2 * i + 1)%nat = Some (truncate scaled mod 65536 / 256).
Proof.
  apply (pcm_samples_stay_in_int16 [0.99999%js; (-1)%js; 0.5%js] 44100 world0).
  - repeat constructor.
  - vm_compute. discriminate.
Defined.

(** ** C6: the header

    Claim C6.  For every sample buffer and every sample rate that the
    32-bit fields of the header hold (a sample rate below [2^31], so that
    the byte rate fits too, and [36 + dataBytes] below [2^32]), the first 44
    bytes are exactly the RIFF/WAVE header: 'RIFF', [36 + dataBytes],
    'WAVE', 'fmt ', 16, format 1, 1 channel, the sample rate, the byte rate
    [sampleRate * 2], block align 2, 16 bits per sample, 'data',
    [dataBytes = 2 * sampleCount], every number little-endian; reading the
    fields back gives the sample rate, 1 channel, 16 bits and the data
    length. *)
Theorem wav_header_layout_and_roundtrip samples sampleRate w :
  0 <= sampleRate < 2147483648 ->
  36 + 2 * Z.of_nat (length samples) < 4294967296 ->
  let dataBytes := 2 * Z.of_nat (length samples) in
  exists bytes w',
    createWavFile samples sampleRate w = (Normal bytes, w')
    /\ take 44 bytes =
         [82; 73; 70; 70] ++ le32 (36 + dataBytes) ++
         [87; 65; 86; 69] ++
         [102; 109; 116; 32] ++ le32 16 ++
         le16 1 ++ le16 1 ++
         le32 sampleRate ++ le32 (sampleRate * 2) ++
         le16 2 ++ le16 16 ++
         [100; 97; 116; 97] ++ le32 dataBytes
    /\ Z.of_nat (length bytes) = 44 + dataBytes
    /\ getUint32 bytes 24 = sampleRate
    /\ getUint16 bytes 22 = 1
    /\ getUint16 bytes 34 = 16
    /\ getUint32 bytes 40 = dataBytes.
Proof.
  intros Hrate Hlen dataBytes.
  rewrite createWavFile_bytes by (unfold MAX_LENGTH; lia).
  eexists _, _. split; [reflexivity|].
  assert (Hhdr : wavHeader sampleRate (Z.of_nat (length samples)) =
         [82; 73; 70; 70] ++ le32 (36 + dataBytes) ++
         [87; 65; 86; 69] ++
         [102; 109; 116; 32] ++ le32 16 ++
         le16 1 ++ le16 1 ++
         le32 sampleRate ++ le32 (sampleRate * 2) ++
         le16 2 ++ le16 16 ++
         [100; 97; 116; 97] ++ le32 dataBytes).
  { unfold wavHeader, ToUint32, ToUint16, CHANNELS. subst dataBytes.
    rewrite (Z.mod_small (36 + _)) by lia.
    rewrite (Z.mod_small sampleRate) by lia.
    rewrite (Z.mod_small (sampleRate * 1 * 2)) by lia.
    rewrite (Z.mod_small (Z.of_nat (length samples) * 2)) by lia.
    rewrite Z.mul_1_r, (Z.mul_comm (Z.of_nat (length samples)) 2). reflexivity. }
  split; [| split].
  - rewrite take_app_length' by reflexivity. exact Hhdr.
  - rewrite length_app, wavHeader_length, flat_map_pcm_length. subst dataBytes. lia.
  - rewrite Hhdr.
    pose proof (le32_roundtrip sampleRate ltac:(lia)) as Hr.
    pose proof (le32_roundtrip dataBytes ltac:(subst dataBytes; lia)) as Hd.
    unfold getUint32, getUint16, byteAt, le32, le16 in *. simpl in *.
    repeat split; assumption.
Qed.

Lemma wav_header_layout_and_roundtrip_witness :
  exists bytes w',
    createWavFile [0.5%js; (-1)%js] 44100 world0 = (Normal bytes, w')
    /\ take 44 bytes =
         [82; 73; 70; 70; 40; 0; 0; 0; 87; 65; 86; 69; 102; 109; 116; 32;
          16; 0; 0; 0; 1; 0; 1; 0; 68; 172; 0; 0; 136; 88; 1; 0; 2; 0; 16; 0;
          100; 97; 116; 97; 4; 0; 0; 0]
    /\ Z.of_nat (length bytes) = 48
    /\ getUint32 bytes 24 = 44100
    /\ getUint16 bytes 22 = 1
    /\ getUint16 bytes 34 = 16
    /\ getUint32 bytes 40 = 4.
Proof.
  apply (wav_header_layout_and_roundtrip [0.5%js; (-1)%js] 44100 world0); simpl; lia.
Defined.

(** ** C7: the normalizer

    Claim C7.  On a buffer of binary32 values, [normalizeSamples] finds the
    maximum absolute value of the samples (NaN apart), multiplies every
    sample by [0.99 / max] when that maximum exceeds 0.99 and returns the
    buffer as it is otherwise; applying it twice gives the same buffer as
    applying it once. *)
Theorem normalizer_is_idempotent (samples : list float) :
  Forall float32 samples ->
  normalizeSamples samples
  = (if fgt (peak samples) 0.99%js
     then map (fun s => fround (s * (0.99 / peak samples))%js) samples
     else samples)
  /\ (forall s, In s samples -> is_nan s = false ->
                fle (Math_abs s) (peak samples) = true)
  /\ (peak samples = 0%js \/ exists s, In s samples /\ peak samples = Math_abs s)
  /\ normalizeSamples (normalizeSamples samples) = normalizeSamples samples.
Proof.
  intros Hall. split; [reflexivity|].
  destruct (peak_is_maximum samples Hall) as [Hmax Hat].
  split; [exact Hmax|]. split; [exact Hat|].
  apply normalizeSamples_idempotent. exact Hall.
Qed.

Lemma normalizer_is_idempotent_witness :
  let samples := [fround 1.7%js; fround (-0.3)%js; fround 0.99%js; NaN; fround (-2.5)%js] in
  normalizeSamples samples
  = (if fgt (peak samples) 0.99%js
     then map (fun s => fround (s * (0.99 / peak samples))%js) samples
     else samples)
  /\ (forall s, In s samples -> is_nan s = false ->
                fle (Math_abs s) (peak samples) = true)
  /\ (peak samples = 0%js \/ exists s, In s samples /\ peak samples = Math_abs s)
  /\ normalizeSamples (normalizeSamples samples) = normalizeSamples samples.
Proof.
  apply (normalizer_is_idempotent
           [fround 1.7%js; fround (-0.3)%js; fround 0.99%js; NaN; fround (-2.5)%js]).
  repeat constructor.
Defined.

(** ** C8: the pink filter

    Claim C8.  [generatePinkNoise] computes Paul Kellet's recurrence
    [kelletStep] over the draws: six poles [bk = ak * bk + white * ck] with
    the listed coefficients, the output
    [(b0 + ... + b6 + white * 0.5362) * 0.11] with the [b6] of the previous
    step, then [b6 = white * 0.115926]; the returned state holds the seven
    poles, and a call that is given this state starts from them. *)
Theorem pink_filter_is_kellet_recurrence length state w :
  Z.of_nat length <= MAX_LENGTH ->
  let run := scan kelletStep (pinkInit state) (draws w length) in
  generatePinkNoise length state w =
    (Normal (fst run, pinkPack (snd run)),
     after [Float32Buffer (Z.of_nat length)] length w)
  /\ pinkInit (Some (pinkPack (snd run))) = snd run.
Proof.
  intros Hmax run. subst run.
  rewrite generatePinkNoise_scan by exact Hmax. cbv zeta.
  rewrite (scan_ext pinkKernel kelletStep) by apply pinkKernel_kellet.
  split; [reflexivity | apply pinkInit_pack].
Qed.

Lemma pink_filter_is_kellet_recurrence_witness :
  let run := scan kelletStep (pinkInit None) (draws world0 3) in
  generatePinkNoise 3 None world0 =
    (Normal (fst run, pinkPack (snd run)), after [Float32Buffer 3] 3 world0)
  /\ pinkInit (Some (pinkPack (snd run))) = snd run.
Proof.
  apply (pink_filter_is_kellet_recurrence 3 None world0).
  unfold MAX_LENGTH. simpl. lia.
Defined.

(** ** C9: the grey filter

    Claim C9.  A call of the Grey filter scales every white draw by 0.7 and
    by 0.6 and applies the two-pole blend to these inputs [x]: [state1]
    moves toward [x] by 0.01 ([state1 * 0.99 + x * 0.01]), [state2] by 0.05
    ([state2 * 0.95 + x * 0.05]), and
    [out = (state1 * 0.4 + state2 * 0.3 + x * 0.3) * 1.2], with both states
    starting at zero; the chunk loop hands the state object through
    unchanged for Grey, so a generation in chunks is the concatenation of
    runs that each restart at zero. *)
Theorem grey_blend_restarts_each_chunk chunkSize totalSamples w :
  0 < chunkSize -> 0 <= totalSamples <= MAX_LENGTH ->
  (exists w1,
     generateGreyNoise (Z.to_nat totalSamples) w
     = (Normal (fst (scan greyKernel (0%js, 0%js)
                       (map greyInput (draws w (Z.to_nat totalSamples))))), w1))
  /\ (forall len state, generateChunk "grey" len state =
        (chunkSamples ← generateGreyNoise len; mret (chunkSamples, state)))
  /\ (exists w2,
        generateSamples chunkSize "grey" totalSamples w
        = (Normal (chunked (fun (s : unit) rs => (greyPure rs, s))
                     (Z.to_nat (ceil_div totalSamples chunkSize)) (Z.to_nat chunkSize) tt
                     (draws w (Z.to_nat totalSamples))), w2)).
Proof.
  intros Hc HT. split; [|split].
  - eexists. apply generateGreyNoise_pure. lia.
  - intros len state. reflexivity.
  - destruct (generateSamples_chunked greyK "grey" chunkSize totalSamples w
                grey_sound grey_length Hc HT) as [bufs H].
    eexists. exact H.
Qed.

Lemma grey_blend_restarts_each_chunk_witness :
  (exists w1,
     generateGreyNoise (Z.to_nat 3) greyWorld
     = (Normal (fst (scan greyKernel (0%js, 0%js)
                       (map greyInput (draws greyWorld (Z.to_nat 3))))), w1))
  /\ (forall len state, generateChunk "grey" len state =
        (chunkSamples ← generateGreyNoise len; mret (chunkSamples, state)))
  /\ (exists w2,
        generateSamples 2 "grey" 3 greyWorld
        = (Normal (chunked (fun (s : unit) rs => (greyPure rs, s))
                     (Z.to_nat (ceil_div 3 2)) (Z.to_nat 2) tt
                     (draws greyWorld (Z.to_nat 3))), w2)).
Proof.
  apply (grey_blend_restarts_each_chunk 2 3 greyWorld); [lia | vm_compute; split; discriminate].
Defined.

(** ** C10: the white filter

    Claim C10.  When every draw is in [[0, 1)], every sample of
    [generateWhiteNoise] is the draw spread to [[-1, 1)] and halved, and
    lies in [[-0.5, 0.5]]; the maximum found by the normalizer does not
    exceed 0.99, and [normalizeSamples] returns the buffer unchanged. *)
Theorem white_noise_within_half length w :
  unit_draws w -> Z.of_nat length <= MAX_LENGTH ->
  exists samples w',
    generateWhiteNoise length w = (Normal samples, w')
    /\ samples = map (fun r => fround ((r * 2 - 1) * 0.5)%js) (draws w length)
    /\ Forall (fun s => fle (Math_abs s) 0.5%js = true) samples
    /\ fgt (peak samples) 0.99%js = false
    /\ normalizeSamples samples = samples.
Proof.
  intros Hw Hlen. eexists _, _. split; [apply generateWhiteNoise_map; exact Hlen|].
  split; [reflexivity|].
  pose proof (unit_draws_draws w length Hw) as Hd.
  set (samples := map _ (draws w length)).
  assert (Hsmall : Forall (fun s => finite64 s /\ Z.abs (F2Z s) <= half) samples).
  { apply List.Forall_map. eapply List.Forall_impl; [|exact Hd].
    intros r Hr. apply (whiteSample_half r Hr). }
  pose proof (normalizeSamples_small samples Hsmall) as Hn.
  split; [|split; [|exact Hn]].
  - apply List.Forall_map. eapply List.Forall_impl; [|exact Hd].
    intros r Hr. apply (whiteSample_le_half r Hr).
  - rewrite normalizeSamples_peak in Hn.
    destruct (fgt (peak samples) 0.99%js) eqn:E; [|reflexivity].
    exfalso.
    pose proof (sample_max_bound samples 0%js Hsmall finite64_zero) as Hmax.
    cbv zeta in Hmax. change (fold_left _ samples 0%js) with (peak samples) in Hmax.
    destruct Hmax as (Hf & Hb).
    { rewrite F2Z_zero. pose proof half_double. pose proof unity_pos. lia. }
    unfold fgt in E. rewrite (SFltb_F2Z _ _ (proj1 finite64_099) Hf) in E.
    apply Z.ltb_lt in E.
    assert (half < F2Z 0.99%js) by (vm_compute; reflexivity). lia.
Qed.

Lemma white_noise_within_half_witness :
  exists samples w',
    generateWhiteNoise 9 world0 = (Normal samples, w')
    /\ samples = map (fun r => fround ((r * 2 - 1) * 0.5)%js) (draws world0 9)
    /\ Forall (fun s => fle (Math_abs s) 0.5%js = true) samples
    /\ fgt (peak samples) 0.99%js = false
    /\ normalizeSamples samples = samples.
Proof.
  apply (white_noise_within_half 9 world0).
  - exact world0_unit_draws.
  - vm_compute. discriminate.
Defined.
